(** * Anti-VPN-List: the CIDR canonicalisation core, embedded in Rocq

    A shallow embedding of [utils/RadixTree.js], [utils/iputils.js],
    [utils/IpChecker.js], [example/index.js] and of
    [CIDRProcessor.filterContainedCIDRsRadix] in [scripts/download.js].

    Conventions of the embedding.
    - A JavaScript string is a [string]; a character stands for one UTF-16
      code unit below 256, so the white space of [trim] and [parseInt] is
      TAB, LF, VT, FF, CR, SP and NBSP.
    - A JavaScript number is a [JsNumber]: [NaN] or an exact integer.  The
      embedding agrees with IEEE doubles as long as every intermediate value
      is an integer of magnitude below 2^53.  Where the source would leave
      the integers (a prefix length above 32 gives [2 ** -1]) the embedding
      answers [Untracked] rather than invent a value.
    - A [Map] is an association list in insertion order, a [Set] a
      duplicate-free list in insertion order, an object that is mutated in
      place is rebuilt along the path that reaches it.
    - [throw] is the [Throw] outcome of [completion]. *)

From Stdlib Require Import ZArith List String Ascii Bool Lia Arith.
From Stdlib Require Import DecimalString Sorting.Sorted Permutation.
Import ListNotations.

Open Scope string_scope.
Open Scope list_scope.

(* ================================================================== *)
(** ** Outcomes of a call *)

Inductive completion (A : Type) : Type :=
| Normal (a : A)
| Throw (message : string)
| Untracked.

Arguments Normal {A} a.
Arguments Throw {A} message.
Arguments Untracked {A}.

Definition bind {A B : Type} (m : completion A) (k : A -> completion B)
  : completion B :=
  match m with
  | Normal a => k a
  | Throw msg => Throw msg
  | Untracked => Untracked
  end.

Notation "x <- m ;; k" := (bind m (fun x => k))
  (at level 61, m at next level, right associativity).

Fixpoint mapM {A B : Type} (f : A -> completion B) (l : list A)
  : completion (list B) :=
  match l with
  | [] => Normal []
  | a :: l' => b <- f a ;; bs <- mapM f l' ;; Normal (b :: bs)
  end.

(* ================================================================== *)
(** ** JavaScript strings *)

Module Js.

(** [s.length] *)
Definition len (s : string) : nat := String.length s.

(** [s.slice(n)] for [0 <= n]. *)
Fixpoint sliceFrom (n : nat) (s : string) : string :=
  match n, s with
  | O, _ => s
  | S _, EmptyString => EmptyString
  | S n', String _ s' => sliceFrom n' s'
  end.

(** [s.slice(0, n)] for [0 <= n]. *)
Fixpoint sliceTo (n : nat) (s : string) : string :=
  match n, s with
  | O, _ => EmptyString
  | S _, EmptyString => EmptyString
  | S n', String c s' => String c (sliceTo n' s')
  end.

(** [s.startsWith(key)] *)
Fixpoint startsWith (s key : string) {struct key} : bool :=
  match key with
  | EmptyString => true
  | String k key' =>
      match s with
      | EmptyString => false
      | String c s' => Ascii.eqb c k && startsWith s' key'
      end
  end.

(** [s.includes(c)] for a one-character needle. *)
Fixpoint includes (s : string) (c : ascii) : bool :=
  match s with
  | EmptyString => false
  | String d s' => Ascii.eqb d c || includes s' c
  end.

(** [s.split(sep)] for a one-character separator: never the empty list. *)
Fixpoint split (sep : ascii) (s : string) : list string :=
  match s with
  | EmptyString => [EmptyString]
  | String c s' =>
      if Ascii.eqb c sep then EmptyString :: split sep s'
      else match split sep s' with
           | [] => [String c EmptyString]
           | piece :: pieces => String c piece :: pieces
           end
  end.

(** [parts.join(sep)] *)
Fixpoint join (sep : string) (parts : list string) : string :=
  match parts with
  | [] => EmptyString
  | [p] => p
  | p :: rest => p ++ sep ++ join sep rest
  end.

(** White space as [trim] and [parseInt] see it, among code units below 256. *)
Definition isWhite (c : ascii) : bool :=
  let n := nat_of_ascii c in
  ((9 <=? n) && (n <=? 13) || (n =? 32) || (n =? 160))%nat.

Fixpoint trimStart (s : string) : string :=
  match s with
  | EmptyString => EmptyString
  | String c s' => if isWhite c then trimStart s' else s
  end.

Fixpoint trimEnd (s : string) : string :=
  match s with
  | EmptyString => EmptyString
  | String c s' =>
      match trimEnd s' with
      | EmptyString => if isWhite c then EmptyString else String c EmptyString
      | t => String c t
      end
  end.

(** [s.trim()] *)
Definition trim (s : string) : string := trimEnd (trimStart s).

(** [s.padStart(n, "0")] *)
Fixpoint zeros (n : nat) : string :=
  match n with
  | O => EmptyString
  | S n' => String "0" (zeros n')
  end.

Definition padStart0 (n : nat) (s : string) : string :=
  zeros (n - len s) ++ s.

(** *** Numbers *)

Inductive JsNumber : Type :=
| NaN
| Num (z : Z).

Local Open Scope Z_scope.

(** [ToInt32] and [ToUint32] of the language specification. *)
Definition wrapInt32 (z : Z) : Z := (z + 2 ^ 31) mod 2 ^ 32 - 2 ^ 31.
Definition wrapUint32 (z : Z) : Z := z mod 2 ^ 32.

Definition toInt32 (n : JsNumber) : Z :=
  match n with NaN => 0 | Num z => wrapInt32 z end.
Definition toUint32 (n : JsNumber) : Z :=
  match n with NaN => 0 | Num z => wrapUint32 z end.

(** [a << k], [a >> k] and [a >>> k] for a literal [0 <= k < 32]. *)
Definition shl (a : JsNumber) (k : Z) : JsNumber :=
  Num (wrapInt32 (toInt32 a * 2 ^ k)).
Definition sar (a : JsNumber) (k : Z) : JsNumber :=
  Num (toInt32 a / 2 ^ k).
Definition shr (a : JsNumber) (k : Z) : JsNumber :=
  Num (toUint32 a / 2 ^ k).

(** [a & b] and [~a] *)
Definition band (a b : JsNumber) : JsNumber :=
  Num (Z.land (toInt32 a) (toInt32 b)).
Definition bnot (a : JsNumber) : JsNumber :=
  Num (Z.lnot (toInt32 a)).

(** [a + b] and [a - b] on numbers *)
Definition add (a b : JsNumber) : JsNumber :=
  match a, b with Num x, Num y => Num (x + y) | _, _ => NaN end.
Definition sub (a b : JsNumber) : JsNumber :=
  match a, b with Num x, Num y => Num (x - y) | _, _ => NaN end.

(** [a < b], [a > b], [a <= b]: false as soon as one side is [NaN]. *)
Definition lt (a b : JsNumber) : bool :=
  match a, b with Num x, Num y => x <? y | _, _ => false end.
Definition gt (a b : JsNumber) : bool :=
  match a, b with Num x, Num y => y <? x | _, _ => false end.
Definition le (a b : JsNumber) : bool :=
  match a, b with Num x, Num y => x <=? y | _, _ => false end.

(** [a !== b] on numbers: [NaN] differs from everything. *)
Definition strictNe (a b : JsNumber) : bool :=
  match a, b with Num x, Num y => negb (x =? y) | _, _ => true end.

(** [2 ** k]: an integer for [0 <= k], a fraction otherwise. *)
Definition pow2 (k : Z) : option JsNumber :=
  if 0 <=? k then Some (Num (2 ^ k)) else None.

(** The value of a character as a digit, in any radix up to 36. *)
Definition digitValue (c : ascii) : option Z :=
  let n := Z.of_nat (nat_of_ascii c) in
  if (48 <=? n) && (n <=? 57) then Some (n - 48)
  else if (97 <=? n) && (n <=? 122) then Some (n - 87)
  else if (65 <=? n) && (n <=? 90) then Some (n - 55)
  else None.

(** The longest run of radix-[R] digits that starts [s], as a number;
    [acc] is the value read so far, [None] when no digit was read. *)
Fixpoint readDigits (R : Z) (s : string) (acc : option Z) : option Z :=
  match s with
  | EmptyString => acc
  | String c s' =>
      match digitValue c with
      | Some d =>
          if d <? R then
            readDigits R s'
              (Some (match acc with None => d | Some a => a * R + d end))
          else acc
      | None => acc
      end
  end.

(** [parseInt(s, radix)]; [radix = None] is the one-argument call. *)
Definition parseInt (s : string) (radix : option Z) : JsNumber :=
  let s1 := trimStart s in
  let sign := match s1 with String "-" _ => -1 | _ => 1 end in
  let s2 := match s1 with
            | String "-" r => r
            | String "+" r => r
            | _ => s1
            end in
  let R0 := match radix with None => 0 | Some r => wrapInt32 r end in
  if negb (R0 =? 0) && ((R0 <? 2) || (36 <? R0)) then NaN
  else
    let stripPrefix := (R0 =? 0) || (R0 =? 16) in
    let R1 := if R0 =? 0 then 10 else R0 in
    let hex := match s2 with
               | String "0" (String "x" r) => Some r
               | String "0" (String "X" r) => Some r
               | _ => None
               end in
    let '(R, s3) := match stripPrefix, hex with
                    | true, Some r => (16, r)
                    | _, _ => (R1, s2)
                    end in
    match readDigits R s3 None with
    | None => NaN
    | Some m => Num (sign * m)
    end.

(** [parseInt(x)] where [x] may be [undefined]: the text "undefined" has no
    digit. *)
Definition parseIntOpt (x : option string) (radix : option Z) : JsNumber :=
  match x with
  | Some s => parseInt s radix
  | None => NaN
  end.

Fixpoint allDecimal (s : string) : bool :=
  match s with
  | EmptyString => true
  | String c s' =>
      let n := nat_of_ascii c in
      ((48 <=? n) && (n <=? 57))%nat && allDecimal s'
  end.

(** [Number(x)].  Tracked on [undefined], on blank text and on an optionally
    signed run of decimal digits; the other literals of the language (hex,
    fractions, exponents, Infinity) are left untracked. *)
Definition toNumber (x : option string) : completion JsNumber :=
  match x with
  | None => Normal NaN
  | Some s =>
      let s1 := trim s in
      let body := match s1 with
                  | String "-" r => r
                  | String "+" r => r
                  | _ => s1
                  end in
      match s1 with
      | EmptyString => Normal (Num 0)
      | _ =>
          if (0 <? len body)%nat && allDecimal body
          then Normal (parseInt s1 (Some 10))
          else Untracked
      end
  end.

(** [String(n)] for an integer [n], as template literals and [join] use it. *)
Definition toStringDec (z : Z) : string :=
  NilZero.string_of_int (Z.to_int z).

(** [n.toString(2)] *)
Fixpoint binaryDigits (p : positive) : string :=
  match p with
  | xH => "1"
  | xO p' => binaryDigits p' ++ "0"
  | xI p' => binaryDigits p' ++ "1"
  end.

Definition toString2 (n : JsNumber) : string :=
  match n with
  | NaN => "NaN"
  | Num Z0 => "0"
  | Num (Zpos p) => binaryDigits p
  | Num (Zneg p) => "-" ++ binaryDigits p
  end.

(** [s.slice(0, n)] for a number [n]: [NaN] counts as 0, a negative [n]
    counts from the end. *)
Definition slice0 (s : string) (n : JsNumber) : string :=
  match n with
  | NaN => EmptyString
  | Num z =>
      if z <? 0 then sliceTo (Z.to_nat (Z.of_nat (len s) + z)) s
      else sliceTo (Z.to_nat z) s
  end.

(** *** Arrays *)

(** [array.sort(compare)]: the sort is stable; an element moves right past its
    neighbour exactly when [compare] is positive there.  For a consistent
    comparison every stable sort gives this list. *)
Fixpoint sortInsert {A : Type} (compare : A -> A -> JsNumber) (x : A)
  (sorted : list A) : list A :=
  match sorted with
  | [] => [x]
  | y :: rest =>
      if gt (compare x y) (Num 0) then y :: sortInsert compare x rest
      else x :: sorted
  end.

Definition sort {A : Type} (compare : A -> A -> JsNumber) (l : list A)
  : list A :=
  fold_right (sortInsert compare) [] l.

(** [new Set(array)], in iteration order: first occurrences. *)
Fixpoint newSet (seen : list string) (l : list string) : list string :=
  match l with
  | [] => []
  | x :: l' =>
      if existsb (String.eqb x) seen then newSet seen l'
      else x :: newSet (x :: seen) l'
  end.

End Js.

(* ================================================================== *)
(** ** utils/RadixTree.js *)

(** [class RadixNode]: [children] is the [Map] from key to child, in
    insertion order. *)
Unset Elimination Schemes.
Inductive RadixNode : Type :=
| Node (value : string) (children : list (string * RadixNode)) (isEnd : bool).
Set Elimination Schemes.

Definition value (n : RadixNode) : string :=
  match n with Node v _ _ => v end.
Definition children (n : RadixNode) : list (string * RadixNode) :=
  match n with Node _ cs _ => cs end.
Definition isEnd (n : RadixNode) : bool :=
  match n with Node _ _ e => e end.

(** [new RadixNode(value)] *)
Definition newRadixNode (v : string) : RadixNode := Node v [] false.

(** [map.set(key, v)]: an existing key keeps its place, a new one goes last. *)
Fixpoint mapSet {V : Type} (key : string) (v : V) (m : list (string * V))
  : list (string * V) :=
  match m with
  | [] => [(key, v)]
  | (k, w) :: m' =>
      if String.eqb k key then (k, v) :: m' else (k, w) :: mapSet key v m'
  end.

Module RadixTree.

(** [_commonPrefixLength(str1, str2)] *)
Fixpoint _commonPrefixLength (str1 str2 : string) : nat :=
  match str1, str2 with
  | String a s1, String b s2 =>
      if Ascii.eqb a b then S (_commonPrefixLength s1 s2) else O
  | _, _ => O
  end.

(** The tree object: its root node. *)
Record t : Type := mk { root : RadixNode }.

(** [new RadixTree()] *)
Definition new : t := mk (newRadixNode "").

Section InsertLoop.
(** What the [while] loop of [insert] does once it has moved to a child. *)
Variable continue : RadixNode -> string -> RadixNode.

(** The [for] loop of lines 32-54 over [node.children.entries()]: the first
    child whose key shares a leading character with [prefix] is split when
    the key is not consumed whole (lines 39-47) and the walk goes on in it
    with the rest of [prefix].  The child stays under its old key: the
    parent's map is not touched.  [None] is [found === false]. *)
Fixpoint insertScan (prefix : string) (entries : list (string * RadixNode))
  : option (list (string * RadixNode)) :=
  match entries with
  | [] => None
  | (key, child) :: rest =>
      let commonPrefixLength := _commonPrefixLength prefix key in
      if (0 <? commonPrefixLength)%nat then
        let commonPrefix := Js.sliceTo commonPrefixLength prefix in
        let remainingPrefix := Js.sliceFrom commonPrefixLength prefix in
        let remainingKey := Js.sliceFrom commonPrefixLength key in
        let child' :=
          if (0 <? Js.len remainingKey)%nat then
            let newChild := Node remainingKey (children child) (isEnd child) in
            Node commonPrefix [(remainingKey, newChild)] false
          else child in
        Some ((key, continue child' remainingPrefix) :: rest)
      else
        match insertScan prefix rest with
        | Some rest' => Some ((key, child) :: rest')
        | None => None
        end
  end.
End InsertLoop.

(** The [while (prefix.length > 0)] loop of [insert], from [node] on.  Each
    turn either returns or shortens [prefix], so [S (length prefix)] turns
    are enough (lemma [insertLoop_fuel]). *)
Fixpoint insertLoop (fuel : nat) (node : RadixNode) (prefix : string)
  : RadixNode :=
  match fuel with
  | O => node
  | S fuel' =>
      if (0 <? Js.len prefix)%nat then
        match insertScan (insertLoop fuel') prefix (children node) with
        | Some entries => Node (value node) entries (isEnd node)
        | None =>
            let newNode := Node prefix [] true in
            Node (value node) (mapSet prefix newNode (children node))
                 (isEnd node)
        end
      else Node (value node) (children node) true
  end.

(** [insert(prefix)] *)
Definition insert (tree : t) (prefix : string) : t :=
  mk (insertLoop (S (Js.len prefix)) (root tree) prefix).

(** [search(binaryIP)], from [node] on: every turn of the [while] loop moves
    to a child, so the walk is structural in the tree. *)
Fixpoint searchFrom (node : RadixNode) (binaryIP : string) : bool :=
  match node with
  | Node _ entries nodeIsEnd =>
      if (0 <? Js.len binaryIP)%nat then
        (fix scan (es : list (string * RadixNode)) : bool :=
           match es with
           | [] => nodeIsEnd
           | (key, child) :: rest =>
               if Js.startsWith binaryIP key then
                 if isEnd child then true
                 else searchFrom child (Js.sliceFrom (Js.len key) binaryIP)
               else scan rest
           end) entries
      else nodeIsEnd
  end.

Definition search (tree : t) (binaryIP : string) : bool :=
  searchFrom (root tree) binaryIP.

(** Every child sits in its parent's map under its own [value]. *)
Fixpoint keysAgree (node : RadixNode) : bool :=
  match node with
  | Node _ entries _ =>
      (fix all (es : list (string * RadixNode)) : bool :=
         match es with
         | [] => true
         | (key, child) :: rest =>
             String.eqb key (value child) && keysAgree child && all rest
         end) entries
  end.

End RadixTree.

(* ================================================================== *)
(** ** utils/iputils.js *)

Module iputils.
Import Js.
Local Open Scope Z_scope.

(** [ipToNumber(ip)]: the body has no [throw]. *)
Definition ipToNumber (ip : string) : completion JsNumber :=
  Normal
    (fold_left (fun acc octet => add (shl acc 8) (parseInt octet None))
       (split "." ip) (Num 0)).

(** [numberToIp(num)].  The four numbers joined are results of [&], on
    which [toInt32] is the identity. *)
Definition numberToIp (num : JsNumber) : string :=
  join "."
    (map (fun n => toStringDec (toInt32 n))
       [ band (shr num 24) (Num 255);
         band (shr num 16) (Num 255);
         band (shr num 8) (Num 255);
         band num (Num 255) ]).

(** [const [a, b] = cidr.split("/")]: [split] yields at least one piece, the
    second is [undefined] when there is no slash. *)
Definition splitSlash (cidr : string) : string * option string :=
  match split "/" cidr with
  | [] => (EmptyString, None)
  | [a] => (a, None)
  | a :: b :: _ => (a, Some b)
  end.

(** [cidrToRange(cidr)].  Tracked while [2 ** maskBits] and the sums stay
    exact integers: [0 <= maskBits <= 52]. *)
Definition cidrToRange (cidr : string) : completion (JsNumber * JsNumber) :=
  let '(ip, prefix) := splitSlash cidr in
  ipNum <- ipToNumber ip ;;
  p <- toNumber prefix ;;
  match sub (Num 32) p with
  | NaN =>
      let start := band ipNum (bnot (sub NaN (Num 1))) in
      Normal (start, NaN)
  | Num maskBits =>
      if (0 <=? maskBits) && (maskBits <=? 52) then
        let numAddresses := Num (2 ^ maskBits) in
        let start := band ipNum (bnot (sub numAddresses (Num 1))) in
        let end_ := sub (add start numAddresses) (Num 1) in
        Normal (start, end_)
      else Untracked
  end.

(** [ipToBinary(ip)] *)
Definition ipToBinary (ip : string) : string :=
  join ""
    (map (fun octet => padStart0 8 (toString2 (parseInt octet (Some 10))))
       (split "." ip)).

(** [cidrToBinaryPrefix(cidr)] *)
Definition cidrToBinaryPrefix (cidr : string) : string :=
  let '(ip, mask) := splitSlash cidr in
  slice0 (ipToBinary ip) (parseIntOpt mask None).

(** The inner [while (maxSize > 0)] loop of [rangeToCIDRs]: the value of
    [maxSize] when the loop is left. *)
Fixpoint largestMask (maxSize : nat) (start end_ : JsNumber) : nat :=
  match maxSize with
  | O => O
  | S maxSize' =>
      let size := Num (2 ^ (32 - Z.of_nat maxSize)) in
      let mask := shr (bnot (sub size (Num 1))) 0 in
      let maskedBase := band start mask in
      if strictNe maskedBase start then maxSize
      else
        let broadcast := sub (add start size) (Num 1) in
        if gt broadcast end_ then maxSize
        else largestMask maxSize' start end_
  end.

(** The outer [while (start <= end)] loop.  [start] grows by at least one per
    turn, so [end - start + 1] turns are enough (lemma [decompose_tiling]).
    When [maxSize] is 33, which takes a [start] that is no 32-bit integer,
    the source steps by [2 ** -1]: untracked. *)
Fixpoint decompose (fuel : nat) (start end_ : JsNumber) (cidrs : list string)
  : completion (list string) :=
  if le start end_ then
    match fuel with
    | O => Untracked
    | S fuel' =>
        let maxSize := S (largestMask 32 start end_) in
        let cidr :=
          (numberToIp start ++ "/" ++ toStringDec (Z.of_nat maxSize))%string in
        match pow2 (32 - Z.of_nat maxSize) with
        | Some size => decompose fuel' (add start size) end_ (cidrs ++ [cidr])
        | None => Untracked
        end
    end
  else Normal cidrs.

Definition turns (start end_ : JsNumber) : nat :=
  match start, end_ with
  | Num s, Num e => Z.to_nat (e - s + 1)
  | _, _ => O
  end.

(** [rangeToCIDRs(startIP, endIP)] *)
Definition rangeToCIDRs (startIP endIP : string) : completion (list string) :=
  start <- ipToNumber startIP ;;
  end_ <- ipToNumber endIP ;;
  if gt start end_ then
    Throw "Start IP must be less than or equal to End IP"
  else decompose (turns start end_) start end_ [].

End iputils.

(* ================================================================== *)
(** ** scripts/download.js: [CIDRProcessor] *)

Module CIDRProcessor.
Import Js.
Local Open Scope Z_scope.

(** [u32ToIP(n)].  The four numbers written are results of [>>>] by 24
    and of [&], on which [toInt32] is the identity. *)
Definition u32ToIP (n : JsNumber) : string :=
  (toStringDec (toInt32 (shr n 24)) ++ "." ++
   toStringDec (toInt32 (band (sar n 16) (Num 255))) ++ "." ++
   toStringDec (toInt32 (band (sar n 8) (Num 255))) ++ "." ++
   toStringDec (toInt32 (band n (Num 255))))%string.

(** [a.split("/")[1]] *)
Definition maskText (a : string) : option string :=
  nth_error (split "/" a) 1.

(** The comparison handed to [sort] in [filterContainedCIDRsRadix]. *)
Definition compareCidrs (a b : string) : JsNumber :=
  let isCidrA := includes a "/" in
  let isCidrB := includes b "/" in
  if isCidrA && isCidrB then
    let lenA := parseIntOpt (maskText a) None in
    let lenB := parseIntOpt (maskText b) None in
    sub lenA lenB
  else if isCidrA then Num (-1)
  else if isCidrB then Num 1
  else Num 0.

(** The key the trie sees for one entry. *)
Definition binaryPrefix (cidr : string) : string :=
  if includes cidr "/" then iputils.cidrToBinaryPrefix cidr
  else iputils.ipToBinary cidr.

(** The [for] loop of [filterContainedCIDRsRadix] over the sorted entries,
    from the state ([tree], [result]). *)
Fixpoint filterLoop (tree : RadixTree.t) (result : list string)
  (cidrs : list string) : RadixTree.t * list string :=
  match cidrs with
  | [] => (tree, result)
  | cidr :: rest =>
      let prefix := binaryPrefix cidr in
      if negb (RadixTree.search tree prefix) then
        filterLoop (RadixTree.insert tree prefix) (result ++ [cidr]) rest
      else filterLoop tree result rest
  end.

(** [filterContainedCIDRsRadix()]: [keys] are the keys of [this.cidrMap] in
    insertion order, the answer is the returned [Set] in iteration order. *)
Definition filterContainedCIDRsRadix (keys : list string) : list string :=
  let cidrs := sort compareCidrs keys in
  newSet [] (snd (filterLoop RadixTree.new [] cidrs)).

(** *** Fetching and reading a feed *)

(** [const RETRY_ATTEMPTS = 3] *)
Definition RETRY_ATTEMPTS : Z := 3.

(** What one call of [fetch(url)] yields: a response, with its [ok] flag,
    its [status] and the lines of its body, or a rejection. *)
Inductive fetched : Type :=
| Responded (ok : bool) (status : Z) (lines : list string)
| Rejected (error : string).

(** [fetchWithRetry(url, attempt)].  [network] holds what the successive
    calls of [fetch] yield; the answer comes with the yields not yet
    consumed.  Waiting and logging leave no trace here; a [network] that
    runs out is untracked. *)
Fixpoint fetchWithRetry (network : list fetched) (attempt : Z)
  : completion (list string) * list fetched :=
  match network with
  | [] => (Untracked, [])
  | yield :: later =>
      let tried :=
        match yield with
        | Responded true _ lines => Normal lines
        | Responded false status _ =>
            Throw ("HTTP error! status: " ++ toStringDec status)
        | Rejected error => Throw error
        end in
      match tried with
      | Throw error =>
          if RETRY_ATTEMPTS <=? attempt then (Throw error, later)
          else fetchWithRetry later (attempt + 1)
      | answer => (answer, later)
      end
  end.

(** [s.includes(piece)] *)
Fixpoint includesText (s piece : string) : bool :=
  startsWith s piece ||
  match s with
  | EmptyString => false
  | String _ s' => includesText s' piece
  end.

(** [set.add(x)] and [set.has(x)] on a [Set] of strings. *)
Definition setAdd (x : string) (set : list string) : list string :=
  if existsb (String.eqb x) set then set else set ++ [x].

Definition setHas (x : option string) (set : list string) : bool :=
  match x with
  | Some s => existsb (String.eqb s) set
  | None => false
  end.

(** The fields [asnSet], [asnameSet] and [cidrMap] of the processor. *)
Record state : Type := mkState {
  asnSet : list string;
  asnameSet : list string;
  cidrMap : list (string * bool)
}.

(** [new CIDRProcessor()] *)
Definition newState : state := mkState [] [] [].

Section ProcessUrl.
(** The chain of [replace], [trim] and [toUpperCase] that ends
    [normalizeASName]: regular expressions are not embedded, the results
    hold for whatever text this chain returns. *)
Variable normalizeTail : string -> string.

(** [normalizeASName(name)]; [name] may be [undefined]. *)
Definition normalizeASName (name : option string) : string :=
  match name with
  | None => EmptyString
  | Some EmptyString => EmptyString
  | Some n =>
      if includesText n "PACKETHUB" then "PACKETHUB"
      else if includesText n "VULTR" then "VULTR"
      else normalizeTail n
  end.

(** The body of the [for await] loop of [processUrl] for one line. *)
Definition processLine (url : string) (st : state) (line : string)
  : completion state :=
  let trimmedLine := trim line in
  if negb (0 <? len trimmedLine)%nat || startsWith trimmedLine "#" then
    Normal st
  else if includesText url "iptoasn.com" then
    let fields := split "009" trimmedLine in
    let startIpU32 := nth_error fields 0 in
    let endIpU32 := nth_error fields 1 in
    let asn := nth_error fields 2 in
    let asname := nth_error fields 4 in
    let normAsname := normalizeASName asname in
    let asnameMatch :=
      (0 <? len normAsname)%nat && (0 <? List.length (asnameSet st))%nat &&
      existsb (fun ref => includesText normAsname ref
                          || includesText ref normAsname) (asnameSet st) in
    if setHas asn (asnSet st) || asnameMatch then
      startNum <- toNumber startIpU32 ;;
      endNum <- toNumber endIpU32 ;;
      let startIP := u32ToIP startNum in
      let endIP := u32ToIP endNum in
      cidrs <- iputils.rangeToCIDRs startIP endIP ;;
      Normal (mkState (asnSet st) (asnameSet st)
                (fold_left (fun m cidr => mapSet cidr true m) cidrs
                   (cidrMap st)))
    else Normal st
  else if includesText url "NullifiedCode" then
    if startsWith trimmedLine "AS" then
      match split " " trimmedLine with
      | [] => Normal st
      | as_ :: asnameParts =>
          let asnSet' := setAdd (sliceFrom 2 as_) (asnSet st) in
          let asnameRaw := trim (join " " asnameParts) in
          let asnameSet' :=
            if (0 <? len asnameRaw)%nat then
              let norm := normalizeASName (Some asnameRaw) in
              if (0 <? len norm)%nat then setAdd norm (asnameSet st)
              else asnameSet st
            else asnameSet st in
          Normal (mkState asnSet' asnameSet' (cidrMap st))
      end
    else Normal st
  else
    Normal (mkState (asnSet st) (asnameSet st)
              (mapSet trimmedLine true (cidrMap st))).

(** The [for await] loop over the lines of the body: the state reached,
    and how the loop ended.  A [throw] leaves the loop with the state as the
    lines before had made it. *)
Fixpoint processLines (url : string) (st : state) (lines : list string)
  : state * completion unit :=
  match lines with
  | [] => (st, Normal tt)
  | line :: rest =>
      match processLine url st line with
      | Normal st' => processLines url st' rest
      | Throw error => (st, Throw error)
      | Untracked => (st, Untracked)
      end
  end.

(** [processUrl(url)]: the [catch] logs whatever was thrown, by the fetch
    or by a line, and the call returns.  [None] where the model cannot
    follow. *)
Definition processUrl (url : string) (st : state) (network : list fetched)
  : option state :=
  match fst (fetchWithRetry network 1) with
  | Normal lines =>
      match processLines url st lines with
      | (_, Untracked) => None
      | (st', _) => Some st'
      end
  | Throw _ => Some st
  | Untracked => None
  end.
End ProcessUrl.

End CIDRProcessor.

(* ================================================================== *)
(** ** example/index.js and utils/IpChecker.js *)

Module example.
Import Js.
Local Open Scope Z_scope.

(** The [while (left <= right)] loop of [isBlocked]; the interval loses an
    index per turn.  Reading [ranges[mid]] outside the array would throw on
    destructuring. *)
Fixpoint isBlockedLoop (fuel : nat) (ipNum : JsNumber)
  (ranges : list (JsNumber * JsNumber)) (left right : Z) : completion bool :=
  if left <=? right then
    match fuel with
    | O => Untracked
    | S fuel' =>
        let mid := (left + right) / 2 in
        match (if mid <? 0 then None else nth_error ranges (Z.to_nat mid)) with
        | None => Throw "TypeError: undefined is not iterable"
        | Some (start, end_) =>
            if lt ipNum start then
              isBlockedLoop fuel' ipNum ranges left (mid - 1)
            else if gt ipNum end_ then
              isBlockedLoop fuel' ipNum ranges (mid + 1) right
            else Normal true
        end
    end
  else Normal false.

(** [isBlocked(ipNum, ranges)] *)
Definition isBlocked (ipNum : JsNumber) (ranges : list (JsNumber * JsNumber))
  : completion bool :=
  let left := 0 in
  let right := Z.of_nat (List.length ranges) - 1 in
  isBlockedLoop (List.length ranges) ipNum ranges left right.

(** The lines of the list file as CIDR texts (lines 50-54). *)
Definition readCidrs (data : string) : list string :=
  map (fun line => if includes line "/" then line else (line ++ "/32")%string)
    (filter (fun line => (0 <? len line)%nat)
       (map trim (split "010" data))).

End example.

Module IpChecker.
Import Js.
Local Open Scope Z_scope.

(** The private fields [#ranges] and [#totalIPs]. *)
Record t : Type := mk {
  ranges : list (JsNumber * JsNumber);
  totalIPs : JsNumber
}.

(** [new IpChecker()] *)
Definition new : t := mk [] (Num 0).

(** [load(filePath)], given the text read from the file. *)
Definition load (data : string) : completion t :=
  let cidrs := example.readCidrs data in
  loaded <- mapM iputils.cidrToRange cidrs ;;
  let sorted := sort (fun a b => sub (fst a) (fst b)) loaded in
  let total :=
    fold_left
      (fun acc r => add acc (add (sub (snd r) (fst r)) (Num 1)))
      sorted (Num 0) in
  Normal (mk sorted total).

(** The argument of [isBlocked]: a string or a number. *)
Inductive address : Type :=
| Text (ip : string)
| Numeric (ip : JsNumber).

(** [isBlocked(ip)]: the same loop as in [example/index.js]. *)
Definition isBlocked (checker : t) (ip : address) : completion bool :=
  ipNum <- match ip with
           | Text s => iputils.ipToNumber s
           | Numeric n => Normal n
           end ;;
  example.isBlocked ipNum (ranges checker).

Definition getTotalIPs (checker : t) : JsNumber := totalIPs checker.
Definition getRangeCount (checker : t) : nat := List.length (ranges checker).

End IpChecker.

(* ================================================================== *)
(** * Vocabulary of the properties *)

Import Js.
Local Open Scope Z_scope.

(** [a] need not move after [b] in the sort. *)
Definition notAfter {A : Type} (compare : A -> A -> JsNumber) (a b : A)
  : Prop :=
  gt (compare a b) (Num 0) = false.

(** The keys under the root, and its end flag, come from inserted texts. *)
Definition rootFrom (inserted : list string) (tree : RadixTree.t) : Prop :=
  (forall key,
     In key (map fst (children (RadixTree.root tree))) -> In key inserted)
  /\ (isEnd (RadixTree.root tree) = true -> In EmptyString inserted).

(** The tree after the inserts of [prefixes], in order, into a fresh tree. *)
Definition insertAll (prefixes : list string) : RadixTree.t :=
  fold_left RadixTree.insert prefixes RadixTree.new.

(** The range of an entry, a bare address counting as a /32 as in
    [IpChecker.load]. *)
Definition entryRange (entry : string) : completion (JsNumber * JsNumber) :=
  iputils.cidrToRange
    (if includes entry "/" then entry else (entry ++ "/32")%string).

(** [inner] lies within [outer]. *)
Definition within (inner outer : JsNumber * JsNumber) : bool :=
  le (fst outer) (fst inner) && le (snd inner) (snd outer).

(** The entries the loop keeps, from [tree] on. *)
Fixpoint kept (tree : RadixTree.t) (cidrs : list string) : list string :=
  match cidrs with
  | [] => []
  | cidr :: rest =>
      let prefix := CIDRProcessor.binaryPrefix cidr in
      if negb (RadixTree.search tree prefix)
      then cidr :: kept (RadixTree.insert tree prefix) rest
      else kept tree rest
  end.

(** An entry whose mask, if it has one, reads as an integer that a double
    holds exactly: on such entries the comparison of the sort is
    consistent. *)
Definition maskTracked (entry : string) : Prop :=
  includes entry "/" = true ->
  exists n, parseIntOpt (CIDRProcessor.maskText entry) None = Num n
            /\ (Z.abs n < 2 ^ 53)%Z.

(** An octet written in decimal holds no dot and reads back as itself. *)
Definition octetReadsBack (n : Z) : bool :=
  negb (includes (toStringDec n) ".") &&
  match parseInt (toStringDec n) None with
  | Num m => m =? n
  | NaN => false
  end.

(** The text [a.b.c.d] of four octets, as [numberToIp] writes it. *)
Definition dottedQuad (a b c d : Z) : string :=
  join "." (map toStringDec [a; b; c; d]).

(** A decimal octet in 0..255, as the specification asks of each of the
    four parts of an address text. *)
Definition decimalOctet (octet : string) : bool :=
  (0 <? len octet)%nat && allDecimal octet &&
  match readDigits 10 octet None with
  | Some v => v <=? 255
  | None => false
  end.

(** Follows the words of the specification, not the code: the texts that
    [parse] accepts. *)
Definition validAddressText (ip : string) : bool :=
  match split "." ip with
  | [a; b; c; d] => forallb decimalOctet [a; b; c; d]
  | _ => false
  end.

(** The array of ranges, as numbers. *)
Definition numRanges (rs : list (Z * Z)) : list (JsNumber * JsNumber) :=
  map (fun r => (Num (fst r), Num (snd r))) rs.

(** Ascending and pairwise disjoint: every range ends before the later ones
    start, and none is empty. *)
Definition ascendingDisjoint (rs : list (Z * Z)) : Prop :=
  StronglySorted (fun r r' => snd r < fst r') rs /\
  Forall (fun r => fst r <= snd r) rs.

(** The number [v] lies within the inclusive bounds of the range [r]. *)
Definition holds (v : Z) (r : Z * Z) : bool := (fst r <=? v) && (v <=? snd r).

(** The numbers that [<<], [&] and [~] yield. *)
Definition int32 (z : Z) : Prop := - 2 ^ 31 <= z < 2 ^ 31.

(** The number of addresses of a block of prefix length [maxSize]. *)
Definition blockSize (maxSize : nat) : Z := 2 ^ (32 - Z.of_nat maxSize).

(** A block of prefix length [maxSize] may start at [s]: [s] is aligned on
    its size and its last address is not above [e]. *)
Definition fits (s e : Z) (maxSize : nat) : Prop :=
  s mod blockSize maxSize = 0 /\ s + blockSize maxSize - 1 <= e.

(** The text the decomposer emits for the block at [s] of prefix length
    [maxSize]. *)
Definition cidrText (block : Z * nat) : string :=
  (iputils.numberToIp (Num (fst block)) ++ "/"
   ++ toStringDec (Z.of_nat (snd block)))%string.

(** Blocks that tile the numbers from [s] to [e]: each starts where the one
    before ended, is aligned on its size, ends at [e] at most, and is the
    largest such block the loop can choose (prefix length 1 at least). *)
Inductive tiling (e : Z) : Z -> list (Z * nat) -> Prop :=
| tiling_done : tiling e (e + 1) []
| tiling_block (s : Z) (maxSize : nat) (rest : list (Z * nat)) :
    (1 <= maxSize <= 32)%nat ->
    fits s e maxSize ->
    (maxSize = 1%nat \/ ~ fits s e (maxSize - 1)) ->
    tiling e (s + blockSize maxSize) rest ->
    tiling e s ((s, maxSize) :: rest).

(** The tree after the entries [entries] were kept. *)
Definition treeOf (entries : list string) : RadixTree.t :=
  insertAll (map CIDRProcessor.binaryPrefix entries).

(** The octet that [numberToIp] takes at bit [k]. *)
Definition octetAt (s k : Z) : Z := (wrapUint32 s / 2 ^ k) mod 256.

(** The texts of a tiling, read back one by one, are consecutive ranges
    from [s] to [e]. *)
Inductive consecutive (e : Z) : Z -> list (JsNumber * JsNumber) -> Prop :=
| consecutive_done : consecutive e (e + 1) []
| consecutive_range (s last : Z) (rest : list (JsNumber * JsNumber)) :
    s <= last <= e ->
    consecutive e (last + 1) rest ->
    consecutive e s ((Num s, Num last) :: rest).

(** ** Further vocabulary: the radix tree *)

(** Texts of which none shares its first character with an earlier one;
    the empty text shares nothing. *)
Fixpoint startApart (prefixes : list string) : Prop :=
  match prefixes with
  | [] => True
  | p :: rest =>
      Forall (fun q => RadixTree._commonPrefixLength q p = O) rest
      /\ startApart rest
  end.

(** The tree whose root holds one terminal leaf per key, in order. *)
Definition flatTree (keys : list string) (rootIsEnd : bool) : RadixTree.t :=
  RadixTree.mk
    (Node "" (map (fun key => (key, Node key [] true)) keys) rootIsEnd).

Definition nonEmpty (s : string) : bool := (0 <? len s)%nat.

Section EntriesWith.
Variable ok : RadixNode -> Prop.

(** The entries of one map: no key is empty, no key shares its first
    character with an earlier key, and every child is [ok]. *)
Fixpoint entriesWith (entries : list (string * RadixNode)) : Prop :=
  match entries with
  | [] => True
  | (key, child) :: rest =>
      key <> EmptyString
      /\ Forall (fun later =>
                   RadixTree._commonPrefixLength (fst later) key = O) rest
      /\ ok child
      /\ entriesWith rest
  end.
End EntriesWith.

(** The keys of every map of the tree are non-empty and start with
    different characters. *)
Fixpoint wellKeyed (node : RadixNode) : Prop :=
  match node with
  | Node _ entries _ => entriesWith wellKeyed entries
  end.

(** ** Further vocabulary: addresses *)

(** The number that a text of binary digits writes, most significant digit
    first, from the value [acc] read so far. *)
Fixpoint binaryValueFrom (acc : Z) (s : string) : Z :=
  match s with
  | EmptyString => acc
  | String c s' =>
      binaryValueFrom (2 * acc + (if Ascii.eqb c "1" then 1 else 0)) s'
  end.

Definition binaryValue (s : string) : Z := binaryValueFrom 0 s.

(** Only the characters 0 and 1. *)
Fixpoint allBinary (s : string) : bool :=
  match s with
  | EmptyString => true
  | String c s' => (Ascii.eqb c "0" || Ascii.eqb c "1") && allBinary s'
  end.

(** The eight digits that [ipToBinary] writes for the octet [o]. *)
Definition octetBits (o : Z) : string :=
  padStart0 8 (toString2 (parseInt (toStringDec o) (Some 10))).

(** The unsigned value of the address [a.b.c.d]. *)
Definition addressValue (a b c d : Z) : Z :=
  a * 2 ^ 24 + b * 2 ^ 16 + c * 2 ^ 8 + d.

(** The text [a.b.c.d/n]. *)
Definition cidrOf (a b c d : Z) (n : nat) : string :=
  (dottedQuad a b c d ++ "/" ++ toStringDec (Z.of_nat n))%string.

(** ** Further vocabulary: feeds *)

(** A yield of [fetch] that [fetchWithRetry] does not accept. *)
Definition failedYield (yield : CIDRProcessor.fetched) : Prop :=
  match yield with
  | CIDRProcessor.Responded true _ _ => False
  | _ => True
  end.

(** The error that [fetchWithRetry] catches for a yield it does not
    accept. *)
Definition errorOf (yield : CIDRProcessor.fetched) : string :=
  match yield with
  | CIDRProcessor.Rejected error => error
  | CIDRProcessor.Responded _ status _ =>
      ("HTTP error! status: " ++ toStringDec status)%string
  end.

(** The lines of a feed that are neither blank nor comments, trimmed. *)
Definition feedEntries (lines : list string) : list string :=
  filter (fun l => nonEmpty l && negb (startsWith l "#")) (map trim lines).

(** A line of tab-separated fields, as the iptoasn feed has them. *)
Definition tsvLine (fields : list string) : string :=
  join (String "009" EmptyString) fields.

(** An entry of the list as the feeds write it: [a.b.c.d/n] with four
    octets in 0..255 and [n] from 1 to 32, or the bare address [a.b.c.d]. *)
Definition wellFormedEntry (entry : string) : Prop :=
  exists a b c d n,
    0 <= a <= 255 /\ 0 <= b <= 255 /\ 0 <= c <= 255 /\ 0 <= d <= 255 /\
    (1 <= n <= 32)%nat /\
    (entry = cidrOf a b c d n \/ (n = 32%nat /\ entry = dottedQuad a b c d)).

(** One step of the fold of [ipToNumber]. *)
Definition ipStep (acc : JsNumber) (octet : string) : JsNumber :=
  add (shl acc 8) (parseInt octet None).

(** ** Further vocabulary: counting *)

(** [line] is the text [a.b.c.d/n] of four octets in 0..255, with a prefix
    length [n] from 1 to 32. *)
Definition blockLine (line : string) (n : nat) : Prop :=
  (1 <= n <= 32)%nat /\
  exists a b c d,
    0 <= a <= 255 /\ 0 <= b <= 255 /\ 0 <= c <= 255 /\ 0 <= d <= 255 /\
    line = cidrOf a b c d n.

(** The sum of a list of integers. *)
Definition sumZ (l : list Z) : Z := fold_right Z.add 0 l.

(** How many numbers a range holds. *)
Definition rangeCount (r : Z * Z) : Z := snd r - fst r + 1.

(* ================================================================== *)
(** * Properties *)

(** ** Strings *)

Lemma sliceFrom_length (n : nat) (s : string) :
  len (sliceFrom n s) = (len s - n)%nat.
Proof.
  revert s; induction n as [|n IH]; intros [|c s]; simpl; auto.
Qed.

Lemma startsWith_refl (s : string) : startsWith s s = true.
Proof.
  induction s as [|c s IH]; simpl; auto.
  now rewrite Ascii.eqb_refl.
Qed.

Lemma startsWith_append (s key : string) :
  startsWith s key = true <-> exists rest, s = (key ++ rest)%string.
Proof.
  revert s; induction key as [|k key IH]; intros s; simpl.
  - split; [intros _; now exists s | reflexivity].
  - destruct s as [|c s].
    + split; [discriminate | intros [rest H]; discriminate].
    + rewrite andb_true_iff, Ascii.eqb_eq, IH. split.
      * intros [-> [rest ->]]. now exists rest.
      * intros [rest H]. injection H as -> ->. split; eauto.
Qed.

(** ** The radix tree *)

Section InsertScanFacts.
Variables continue continue' : RadixNode -> string -> RadixNode.

(** The scan leaves the keys of the map as they are. *)
Lemma insertScan_keys (prefix : string)
  (entries entries' : list (string * RadixNode)) :
  RadixTree.insertScan continue prefix entries = Some entries' ->
  map fst entries' = map fst entries.
Proof.
  revert entries'; induction entries as [|[key child] rest IH];
    intros entries'; simpl; [discriminate|].
  destruct (0 <? RadixTree._commonPrefixLength prefix key)%nat.
  - intros [= <-]. reflexivity.
  - destruct (RadixTree.insertScan continue prefix rest) as [rest'|];
      [|discriminate].
    intros [= <-]. simpl. now rewrite (IH rest').
Qed.

(** The scan only calls [continue] on a strictly shorter text. *)
Lemma insertScan_ext (prefix : string) (entries : list (string * RadixNode)) :
  (forall node p,
     (len p < len prefix)%nat -> continue node p = continue' node p) ->
  RadixTree.insertScan continue prefix entries
  = RadixTree.insertScan continue' prefix entries.
Proof.
  intros Hext. induction entries as [|[key child] rest IH]; simpl; auto.
  destruct (0 <? RadixTree._commonPrefixLength prefix key)%nat eqn:Hpos.
  - rewrite Hext; auto.
    rewrite sliceFrom_length. apply Nat.ltb_lt in Hpos.
    assert (0 < len prefix)%nat
      by (destruct prefix; [simpl in Hpos; lia | unfold len; simpl; lia]).
    lia.
  - now rewrite IH.
Qed.
End InsertScanFacts.

(** Fuel beyond the length of the prefix changes nothing: the loop of
    [insert] has ended by then. *)
Lemma insertLoop_fuel (fuel fuel' : nat) (node : RadixNode) (prefix : string) :
  (len prefix < fuel)%nat -> (len prefix < fuel')%nat ->
  RadixTree.insertLoop fuel node prefix = RadixTree.insertLoop fuel' node prefix.
Proof.
  revert fuel' node prefix.
  induction fuel as [|fuel IH]; intros fuel' node prefix H H'; [lia|].
  destruct fuel' as [|fuel']; [lia|]. simpl.
  destruct (0 <? len prefix)%nat; auto.
  rewrite (insertScan_ext (RadixTree.insertLoop fuel)
             (RadixTree.insertLoop fuel')).
  - reflexivity.
  - intros child p Hp. apply IH; lia.
Qed.

Lemma mapSet_keys {V : Type} (key : string) (v : V) (m : list (string * V))
  (k : string) :
  In k (map fst (mapSet key v m)) -> k = key \/ In k (map fst m).
Proof.
  induction m as [|[k0 w] m IH]; simpl.
  - intros [<-|[]]; auto.
  - destruct (String.eqb k0 key); simpl; intros [<-|H]; auto.
    destruct (IH H); auto.
Qed.

(** A search that answers true has met the end flag of the root or has
    followed a key of the root. *)
Lemma searchFrom_true (node : RadixNode) (binaryIP : string) :
  RadixTree.searchFrom node binaryIP = true ->
  isEnd node = true \/
  exists key, In key (map fst (children node)) /\ startsWith binaryIP key = true.
Proof.
  destruct node as [v entries e]; simpl.
  destruct (0 <? len binaryIP)%nat; auto.
  induction entries as [|[key child] rest IH]; simpl; auto.
  destruct (startsWith binaryIP key) eqn:Hkey.
  - intros _. right. exists key. auto.
  - intros H. destruct (IH H) as [?|[k [Hin Hk]]]; auto.
    right. exists k. auto.
Qed.

Lemma rootFrom_insert (inserted : list string) (tree : RadixTree.t)
  (prefix : string) :
  rootFrom inserted tree ->
  rootFrom (inserted ++ [prefix]) (RadixTree.insert tree prefix).
Proof.
  intros [Hkeys Hend]. unfold RadixTree.insert, rootFrom. simpl.
  destruct tree as [[v entries e]]; simpl in *.
  destruct prefix as [|c prefix]; simpl.
  - split; intros; apply in_or_app; auto. right. now left.
  - destruct (RadixTree.insertScan _ _ entries) as [entries'|] eqn:Hscan; simpl.
    + apply insertScan_keys in Hscan. rewrite Hscan.
      split; intros; apply in_or_app; auto.
    + split; intros; apply in_or_app; auto.
      destruct (mapSet_keys _ _ _ _ H) as [->|Hin]; auto.
      right. now left.
Qed.

Lemma rootFrom_fold (prefixes inserted : list string) (tree : RadixTree.t) :
  rootFrom inserted tree ->
  rootFrom (inserted ++ prefixes) (fold_left RadixTree.insert prefixes tree).
Proof.
  revert inserted tree; induction prefixes as [|p prefixes IH];
    intros inserted tree H; simpl.
  - now rewrite app_nil_r.
  - replace (inserted ++ p :: prefixes) with ((inserted ++ [p]) ++ prefixes)
      by (now rewrite <- app_assoc).
    apply IH, rootFrom_insert, H.
Qed.

(** No false hit: when [search] answers true, the queried text starts with
    an inserted prefix. *)
Lemma search_sound (prefixes : list string) (binaryIP : string) :
  RadixTree.search (insertAll prefixes) binaryIP = true ->
  exists p, In p prefixes /\ startsWith binaryIP p = true.
Proof.
  intros H. apply searchFrom_true in H.
  destruct (rootFrom_fold prefixes [] RadixTree.new) as [Hkeys Hend].
  { split; simpl; [tauto | discriminate]. }
  destruct H as [H|[key [Hin Hkey]]].
  - exists EmptyString. split; [now apply Hend | now destruct binaryIP].
  - exists key. split; auto.
Qed.

(** C1, at the inputs where the code departs from it: after [insert("00")]
    and [insert("01")] on a fresh tree, [search] answers false for both
    inserted prefixes and for a text that starts with one of them.  The split
    of lines 39-47 leaves the child under its old key "00", so a text is
    matched against the stale key. *)
Theorem search_misses_inserted_prefix :
  let tree := insertAll ["00"; "01"] in
  RadixTree.search tree "00" = false /\
  RadixTree.search tree "01" = false /\
  RadixTree.search tree "0110" = false.
Proof. vm_compute. auto. Qed.

(** C10, at the inputs where the code departs from it: after [insert("00")]
    and [insert("01")] the root still maps the key "00" to a child whose
    [value] has become "0", so keys and stored fragments disagree. *)
Theorem split_keeps_stale_key :
  let tree := insertAll ["00"; "01"] in
  map (fun entry => (fst entry, value (snd entry)))
      (children (RadixTree.root tree)) = [("00", "0")] /\
  RadixTree.keysAgree (RadixTree.root tree) = false.
Proof. vm_compute. auto. Qed.

(** ** The deduplicator *)

(** C3, at the inputs where the code departs from it: from 10.0.0.0/24,
    10.0.1.0/24 and 10.0.1.0/25 the deduplicator keeps all three entries,
    although the range of 10.0.1.0/25 lies within that of 10.0.1.0/24. *)
Theorem filter_keeps_contained_block :
  CIDRProcessor.filterContainedCIDRsRadix
    ["10.0.0.0/24"; "10.0.1.0/24"; "10.0.1.0/25"]
  = ["10.0.0.0/24"; "10.0.1.0/24"; "10.0.1.0/25"] /\
  (inner <- entryRange "10.0.1.0/25" ;;
   outer <- entryRange "10.0.1.0/24" ;;
   Normal (within inner outer)) = Normal true.
Proof. vm_compute. auto. Qed.

(** The scenarios of the specification. *)
Example filterContainedCIDRsRadix_scenarios :
  CIDRProcessor.filterContainedCIDRsRadix ["192.168.0.0/16"; "192.168.1.0/24"]
  = ["192.168.0.0/16"] /\
  CIDRProcessor.filterContainedCIDRsRadix ["10.0.0.0/24"; "10.0.1.0/24"]
  = ["10.0.0.0/24"; "10.0.1.0/24"].
Proof. vm_compute. auto. Qed.

Lemma filterLoop_kept (tree : RadixTree.t) (result cidrs : list string) :
  snd (CIDRProcessor.filterLoop tree result cidrs) = result ++ kept tree cidrs.
Proof.
  revert tree result; induction cidrs as [|cidr rest IH]; intros tree result;
    simpl.
  - now rewrite app_nil_r.
  - destruct (negb _); rewrite IH; auto.
    now rewrite <- app_assoc.
Qed.

(** Discarded entries never touch the tree, so a second pass over the kept
    entries meets the same trees and keeps them all. *)
Lemma kept_kept (tree : RadixTree.t) (cidrs : list string) :
  kept tree (kept tree cidrs) = kept tree cidrs.
Proof.
  revert tree; induction cidrs as [|cidr rest IH]; intros tree; simpl; auto.
  destruct (negb _) eqn:Hmiss; auto.
  simpl. rewrite Hmiss. now rewrite IH.
Qed.

Lemma kept_In (tree : RadixTree.t) (cidrs : list string) (x : string) :
  In x (kept tree cidrs) -> In x cidrs.
Proof.
  revert tree; induction cidrs as [|cidr rest IH]; intros tree; simpl; auto.
  destruct (negb _); simpl; intros H.
  - destruct H; eauto.
  - eauto.
Qed.

Lemma kept_NoDup (tree : RadixTree.t) (cidrs : list string) :
  NoDup cidrs -> NoDup (kept tree cidrs).
Proof.
  revert tree; induction cidrs as [|cidr rest IH]; intros tree H; simpl.
  - constructor.
  - inversion H as [|? ? Hnotin Hrest]; subst.
    destruct (negb _); auto.
    constructor; auto. intros Hin. apply Hnotin. eapply kept_In, Hin.
Qed.

Lemma newSet_NoDup (seen l : list string) :
  NoDup l -> (forall x, In x seen -> ~ In x l) -> newSet seen l = l.
Proof.
  revert seen; induction l as [|x l IH]; intros seen Hnd Hseen; simpl; auto.
  inversion Hnd as [|? ? Hnotin Hrest]; subst.
  destruct (existsb (String.eqb x) seen) eqn:Hex.
  - apply existsb_exists in Hex. destruct Hex as [y [Hy Heq]].
    apply String.eqb_eq in Heq. subst y.
    exfalso. apply (Hseen x Hy). now left.
  - f_equal. apply IH; auto.
    intros y [<-|Hy]; auto.
    intros Hin. apply (Hseen y Hy). now right.
Qed.

(** *** The stable sort, for a comparison that is consistent on a domain *)

Section SortFacts.
Context {A : Type}.
Variable compare : A -> A -> JsNumber.
Variable domain : A -> Prop.

Hypothesis notAfter_trans : forall a b c,
  domain a -> domain b -> domain c ->
  notAfter compare a b -> notAfter compare b c -> notAfter compare a c.
Hypothesis after_notAfter : forall a b,
  domain a -> domain b ->
  gt (compare a b) (Num 0) = true -> notAfter compare b a.

Lemma sortInsert_In (x y : A) (l : list A) :
  In y (sortInsert compare x l) <-> y = x \/ In y l.
Proof.
  induction l as [|z l IH]; simpl.
  - intuition.
  - destruct (gt (compare x z) (Num 0)); simpl; [rewrite IH|]; intuition.
Qed.

Lemma sort_In (y : A) (l : list A) : In y (sort compare l) <-> In y l.
Proof.
  induction l as [|x l IH]; simpl; [tauto|].
  unfold sort in *. simpl. rewrite sortInsert_In, IH. intuition.
Qed.

Lemma sortInsert_Permutation (x : A) (l : list A) :
  Permutation (x :: l) (sortInsert compare x l).
Proof.
  induction l as [|z l IH]; simpl; auto.
  destruct (gt (compare x z) (Num 0)); auto.
  rewrite perm_swap. now constructor.
Qed.

Lemma sort_Permutation (l : list A) : Permutation l (sort compare l).
Proof.
  induction l as [|x l IH]; simpl; auto.
  unfold sort in *. simpl. rewrite <- sortInsert_Permutation. now constructor.
Qed.

Lemma sortInsert_sorted (x : A) (l : list A) :
  domain x -> Forall domain l ->
  StronglySorted (notAfter compare) l ->
  StronglySorted (notAfter compare) (sortInsert compare x l).
Proof.
  intros Hx Hl Hs. induction Hs as [|z l Hs IH Hz]; simpl.
  - repeat constructor.
  - inversion Hl as [|? ? Hdz Hdl]; subst.
    destruct (gt (compare x z) (Num 0)) eqn:Hcmp.
    + constructor; auto.
      apply Forall_forall. intros y Hy. apply sortInsert_In in Hy.
      destruct Hy as [->|Hy]; [now apply after_notAfter|].
      rewrite Forall_forall in Hz. auto.
    + constructor; [now constructor|].
      constructor; auto.
      rewrite Forall_forall in Hz, Hdl |- *. intros y Hy.
      apply notAfter_trans with z; auto.
Qed.

Lemma sort_sorted (l : list A) :
  Forall domain l -> StronglySorted (notAfter compare) (sort compare l).
Proof.
  induction l as [|x l IH]; intros Hl; unfold sort in *; simpl.
  - constructor.
  - inversion Hl; subst. apply sortInsert_sorted; auto.
    apply Forall_forall. intros y Hy. apply (proj1 (sort_In y l)) in Hy.
    rewrite Forall_forall in H2. auto.
Qed.

(** Sorting a sorted list leaves it as it is. *)
Lemma sort_of_sorted (l : list A) :
  StronglySorted (notAfter compare) l -> sort compare l = l.
Proof.
  induction 1 as [|x l Hs IH Hx]; unfold sort in *; simpl; auto.
  rewrite IH. destruct l as [|y l]; simpl; auto.
  inversion Hx as [|? ? Hxy _]; subst. unfold notAfter in Hxy.
  now rewrite Hxy.
Qed.
End SortFacts.

Ltac compareCidrs_cases :=
  unfold notAfter, CIDRProcessor.compareCidrs, maskTracked;
  repeat match goal with
  | |- context [includes ?e "/"] =>
      let E := fresh "Hslash" in destruct (includes e "/") eqn:E
  | H : true = true -> _ |- _ => destruct (H eq_refl) as [? [? _]]; clear H
  | H : false = true -> _ |- _ => clear H
  | |- _ -> _ => intro
  end;
  repeat match goal with
  | H : parseIntOpt _ _ = Num _ |- _ => rewrite H in *; clear H
  end;
  simpl in *; try discriminate; try reflexivity;
  repeat match goal with
  | H : (_ <? _)%Z = false |- _ => apply Z.ltb_ge in H
  | H : (_ <? _)%Z = true |- _ => apply Z.ltb_lt in H
  | |- (_ <? _)%Z = false => apply Z.ltb_ge
  end;
  try lia.

Lemma compareCidrs_trans (a b c : string) :
  maskTracked a -> maskTracked b -> maskTracked c ->
  notAfter CIDRProcessor.compareCidrs a b ->
  notAfter CIDRProcessor.compareCidrs b c ->
  notAfter CIDRProcessor.compareCidrs a c.
Proof. compareCidrs_cases. Qed.

Lemma compareCidrs_after (a b : string) :
  maskTracked a -> maskTracked b ->
  gt (CIDRProcessor.compareCidrs a b) (Num 0) = true ->
  notAfter CIDRProcessor.compareCidrs b a.
Proof. compareCidrs_cases. Qed.

Lemma StronglySorted_kept (tree : RadixTree.t) (cidrs : list string) :
  StronglySorted (notAfter CIDRProcessor.compareCidrs) cidrs ->
  StronglySorted (notAfter CIDRProcessor.compareCidrs) (kept tree cidrs).
Proof.
  intros Hs. revert tree. induction Hs as [|x l Hs IH Hx]; intros tree; simpl.
  - constructor.
  - destruct (negb _); auto.
    constructor; auto.
    rewrite Forall_forall in Hx |- *. intros y Hy. eauto using kept_In.
Qed.

(** What [filterContainedCIDRsRadix] returns for duplicate-free keys: the
    entries kept from the sorted keys. *)
Lemma filterContainedCIDRsRadix_kept (keys : list string) :
  NoDup keys ->
  CIDRProcessor.filterContainedCIDRsRadix keys
  = kept RadixTree.new (sort CIDRProcessor.compareCidrs keys).
Proof.
  intros Hnd. unfold CIDRProcessor.filterContainedCIDRsRadix.
  rewrite filterLoop_kept. simpl.
  apply newSet_NoDup; [|intros x []].
  apply kept_NoDup.
  eapply Permutation_NoDup; [apply sort_Permutation | exact Hnd].
Qed.

(** C9: the deduplicator is idempotent.  For the keys of a map (no
    duplicates) whose masks read as integers, running
    [filterContainedCIDRsRadix] on the set it returned, taken in its
    iteration order, returns that same set in the same order. *)
Theorem filterContainedCIDRsRadix_idempotent (keys : list string) :
  NoDup keys ->
  Forall maskTracked keys ->
  CIDRProcessor.filterContainedCIDRsRadix
    (CIDRProcessor.filterContainedCIDRsRadix keys)
  = CIDRProcessor.filterContainedCIDRsRadix keys.
Proof.
  intros Hnd Hmask.
  assert (Hsorted : StronglySorted (notAfter CIDRProcessor.compareCidrs)
                      (sort CIDRProcessor.compareCidrs keys)).
  { apply sort_sorted with (domain := maskTracked); auto.
    - exact compareCidrs_trans.
    - exact compareCidrs_after. }
  assert (Hnd' : NoDup (sort CIDRProcessor.compareCidrs keys))
    by (eapply Permutation_NoDup; [apply sort_Permutation | exact Hnd]).
  rewrite (filterContainedCIDRsRadix_kept keys Hnd).
  rewrite filterContainedCIDRsRadix_kept by now apply kept_NoDup.
  rewrite sort_of_sorted by now apply StronglySorted_kept.
  apply kept_kept.
Qed.

Lemma filterContainedCIDRsRadix_idempotent_witness :
  NoDup ["10.0.1.5"; "10.0.1.0/24"; "10.0.0.0/8"; "192.168.0.0/16"] /\
  Forall maskTracked ["10.0.1.5"; "10.0.1.0/24"; "10.0.0.0/8"; "192.168.0.0/16"] /\
  CIDRProcessor.filterContainedCIDRsRadix
    (CIDRProcessor.filterContainedCIDRsRadix
       ["10.0.1.5"; "10.0.1.0/24"; "10.0.0.0/8"; "192.168.0.0/16"])
  = CIDRProcessor.filterContainedCIDRsRadix
      ["10.0.1.5"; "10.0.1.0/24"; "10.0.0.0/8"; "192.168.0.0/16"].
Proof.
  assert (Hnd : NoDup ["10.0.1.5"; "10.0.1.0/24"; "10.0.0.0/8"; "192.168.0.0/16"]).
  { repeat constructor; simpl; intuition discriminate. }
  assert (Hmask : Forall maskTracked
            ["10.0.1.5"; "10.0.1.0/24"; "10.0.0.0/8"; "192.168.0.0/16"]).
  { repeat constructor; intros Hslash; try discriminate Hslash;
      eexists; (split; [vm_compute; reflexivity | vm_compute; reflexivity]). }
  split; [exact Hnd|]. split; [exact Hmask|].
  exact (filterContainedCIDRsRadix_idempotent _ Hnd Hmask).
Defined.

(** ** The address codec *)

Lemma wrapInt32_small (z : Z) : - 2 ^ 31 <= z < 2 ^ 31 -> wrapInt32 z = z.
Proof.
  intros H. unfold wrapInt32.
  rewrite Z.mod_small; lia.
Qed.

Lemma wrapInt32_range (z : Z) : - 2 ^ 31 <= wrapInt32 z < 2 ^ 31.
Proof.
  unfold wrapInt32.
  pose proof (Z.mod_pos_bound (z + 2 ^ 31) (2 ^ 32) ltac:(lia)). lia.
Qed.

Lemma wrapInt32_mod (z : Z) : wrapInt32 z mod 2 ^ 32 = z mod 2 ^ 32.
Proof.
  unfold wrapInt32.
  rewrite Zminus_mod_idemp_l.
  f_equal. lia.
Qed.

Lemma split_no_separator (sep : ascii) (s : string) :
  includes s sep = false -> split sep s = [s].
Proof.
  induction s as [|c s IH]; simpl; auto.
  destruct (Ascii.eqb c sep); simpl; [discriminate|].
  intros H. now rewrite IH.
Qed.

Lemma split_append (sep : ascii) (piece rest : string) :
  includes piece sep = false ->
  split sep (piece ++ String sep rest) = piece :: split sep rest.
Proof.
  induction piece as [|c piece IH]; simpl.
  - intros _. now rewrite Ascii.eqb_refl.
  - destruct (Ascii.eqb c sep); simpl; [discriminate|].
    intros H. now rewrite IH.
Qed.

Lemma octets_read_back :
  forallb octetReadsBack (map Z.of_nat (seq 0 256)) = true.
Proof. vm_compute. reflexivity. Qed.

Lemma octet_reads_back (n : Z) :
  0 <= n <= 255 ->
  includes (toStringDec n) "." = false /\
  parseInt (toStringDec n) None = Num n.
Proof.
  intros Hn.
  assert (Hin : In n (map Z.of_nat (seq 0 256))).
  { rewrite <- (Z2Nat.id n) by lia. apply in_map, in_seq. lia. }
  pose proof (proj1 (forallb_forall _ _) octets_read_back n Hin) as H.
  unfold octetReadsBack in H. apply andb_true_iff in H. destruct H as [H1 H2].
  split.
  - now destruct (includes (toStringDec n) ".").
  - destruct (parseInt (toStringDec n) None) as [|m]; [discriminate|].
    apply Z.eqb_eq in H2. now subst.
Qed.

Lemma split_dottedQuad (a b c d : Z) :
  0 <= a <= 255 -> 0 <= b <= 255 -> 0 <= c <= 255 -> 0 <= d <= 255 ->
  split "." (dottedQuad a b c d)
  = [toStringDec a; toStringDec b; toStringDec c; toStringDec d].
Proof.
  intros Ha Hb Hc Hd.
  destruct (octet_reads_back a Ha) as [Hda _].
  destruct (octet_reads_back b Hb) as [Hdb _].
  destruct (octet_reads_back c Hc) as [Hdc _].
  destruct (octet_reads_back d Hd) as [Hdd _].
  unfold dottedQuad. simpl.
  rewrite !split_append by assumption.
  now rewrite split_no_separator.
Qed.

(** One step of the fold of [ipToNumber] while the value is small. *)
Lemma shl8_small (x o : Z) :
  0 <= x < 2 ^ 16 -> 0 <= o <= 255 ->
  add (shl (Num x) 8) (Num o) = Num (x * 256 + o).
Proof.
  intros Hx Ho. unfold add, shl, toInt32.
  rewrite (wrapInt32_small x) by lia.
  rewrite wrapInt32_small by lia.
  f_equal.
Qed.

(** On a well-formed text [ipToNumber] yields the signed reading of the
    32 bits of the address. *)
Lemma ipToNumber_dottedQuad (a b c d : Z) :
  0 <= a <= 255 -> 0 <= b <= 255 -> 0 <= c <= 255 -> 0 <= d <= 255 ->
  iputils.ipToNumber (dottedQuad a b c d)
  = Normal (Num (wrapInt32 (a * 2 ^ 24 + b * 2 ^ 16 + c * 2 ^ 8 + d))).
Proof.
  intros Ha Hb Hc Hd. unfold iputils.ipToNumber.
  rewrite split_dottedQuad by assumption. cbv [fold_left].
  rewrite (proj2 (octet_reads_back a Ha)), (proj2 (octet_reads_back b Hb)),
    (proj2 (octet_reads_back c Hc)), (proj2 (octet_reads_back d Hd)).
  rewrite !shl8_small by lia.
  unfold add, shl, toInt32.
  rewrite (wrapInt32_small (_ + c)) by lia.
  do 2 f_equal. unfold wrapInt32.
  assert (Hlow : a < 128 \/ 128 <= a) by lia.
  destruct Hlow.
  - rewrite !Z.mod_small by lia. lia.
  - replace ((((0 * 256 + a) * 256 + b) * 256 + c) * 2 ^ 8 + 2 ^ 31)
      with (((((0 * 256 + a) * 256 + b) * 256 + c) * 2 ^ 8 - 2 ^ 31)
            + 1 * 2 ^ 32) by lia.
    replace (a * 2 ^ 24 + b * 2 ^ 16 + c * 2 ^ 8 + d + 2 ^ 31)
      with ((a * 2 ^ 24 + b * 2 ^ 16 + c * 2 ^ 8 + d - 2 ^ 31) + 1 * 2 ^ 32)
      by lia.
    rewrite !Z.mod_add by lia.
    rewrite !Z.mod_small by lia. lia.
Qed.

(** C5 as stated fails: [ipToNumber] does not fail on malformed text, here
    on "1.2.3", which has three octets. *)
Lemma ipToNumber_accepts_malformed :
  ~ (forall ip, validAddressText ip = false ->
                exists message, iputils.ipToNumber ip = Throw message).
Proof.
  intros H. destruct (H "1.2.3" eq_refl) as [message Hm]. discriminate Hm.
Qed.

(** What malformed texts yield instead of an error. *)
Example ipToNumber_malformed_values :
  iputils.ipToNumber "1.2.3" = Normal (Num 66051) /\
  iputils.ipToNumber "256.0.0.1" = Normal (Num 1) /\
  iputils.ipToNumber "1.2.3.4.5" = Normal (Num 33752069) /\
  iputils.ipToNumber "1.2.3.x" = Normal NaN.
Proof. vm_compute. auto. Qed.

(** C5, amended: [ipToNumber] validates nothing and never fails; it yields a
    number for every text, and for four decimal octets in 0..255 that number
    is the address [a*2^24 + b*2^16 + c*2^8 + d] modulo 2^32. *)
Theorem ipToNumber_never_fails (ip : string) (a b c d : Z) :
  0 <= a <= 255 -> 0 <= b <= 255 -> 0 <= c <= 255 -> 0 <= d <= 255 ->
  (exists n, iputils.ipToNumber ip = Normal n) /\
  (exists v, iputils.ipToNumber (dottedQuad a b c d) = Normal (Num v) /\
             v mod 2 ^ 32 = a * 2 ^ 24 + b * 2 ^ 16 + c * 2 ^ 8 + d).
Proof.
  intros Ha Hb Hc Hd. split.
  - eexists. reflexivity.
  - eexists. split; [now apply ipToNumber_dottedQuad|].
    rewrite wrapInt32_mod. apply Z.mod_small. lia.
Qed.

Lemma ipToNumber_never_fails_witness :
  (exists n, iputils.ipToNumber "not an address" = Normal n) /\
  (exists v, iputils.ipToNumber (dottedQuad 192 168 1 255) = Normal (Num v) /\
             v mod 2 ^ 32 = 192 * 2 ^ 24 + 168 * 2 ^ 16 + 1 * 2 ^ 8 + 255).
Proof.
  apply (ipToNumber_never_fails "not an address" 192 168 1 255); lia.
Defined.

(** ** The range decomposer *)

(** The addresses from 128.0.0.0 on read as negative numbers. *)
Example ipToNumber_sign_bit :
  iputils.ipToNumber "127.255.255.255" = Normal (Num 2147483647) /\
  iputils.ipToNumber "128.0.0.0" = Normal (Num (-2147483648)) /\
  iputils.ipToNumber "255.255.255.255" = Normal (Num (-1)).
Proof. vm_compute. auto. Qed.

(** The scenarios of the specification. *)
Example rangeToCIDRs_scenarios :
  iputils.rangeToCIDRs "192.168.0.0" "192.168.1.255"
  = Normal ["192.168.0.0/23"] /\
  iputils.rangeToCIDRs "10.0.0.1" "10.0.0.1" = Normal ["10.0.0.1/32"] /\
  iputils.rangeToCIDRs "255.255.255.0" "255.255.255.255"
  = Normal ["255.255.255.0/24"].
Proof. vm_compute. auto. Qed.

(** C2, at the inputs where the code departs from it: the two-address range
    from 127.255.255.255 to 128.0.0.0 (2147483647 and 2147483648 as unsigned
    values, as [processUrl] passes them through [u32ToIP]) has no
    decomposition, the call throws. *)
Theorem rangeToCIDRs_throws_across_sign_bit :
  CIDRProcessor.u32ToIP (Num 2147483647) = "127.255.255.255" /\
  CIDRProcessor.u32ToIP (Num 2147483648) = "128.0.0.0" /\
  iputils.rangeToCIDRs "127.255.255.255" "128.0.0.0"
  = Throw "Start IP must be less than or equal to End IP".
Proof. vm_compute. auto. Qed.

(** C6, at the inputs where the code departs from it, in both directions:
    with start 10.0.0.0 below end 200.0.0.0 the decomposer throws, and with
    start 255.255.255.255 above end 0.0.0.0 it does not throw but returns two
    blocks. *)
Theorem rangeToCIDRs_guard_is_signed :
  iputils.rangeToCIDRs "10.0.0.0" "200.0.0.0"
  = Throw "Start IP must be less than or equal to End IP" /\
  iputils.rangeToCIDRs "255.255.255.255" "0.0.0.0"
  = Normal ["255.255.255.255/32"; "0.0.0.0/32"].
Proof. vm_compute. auto. Qed.

(** C7, at the input where the code departs from it: for the whole address
    space, 0.0.0.0 to 255.255.255.255, whose minimal cover is the single
    block 0.0.0.0/0, the decomposer returns no list at all, it throws. *)
Theorem rangeToCIDRs_no_cover_of_whole_space :
  iputils.rangeToCIDRs "0.0.0.0" "255.255.255.255"
  = Throw "Start IP must be less than or equal to End IP".
Proof. vm_compute. auto. Qed.

(** ** The range index *)

(** The scenario of the specification. *)
Example isBlocked_scenario :
  (checker <- IpChecker.load "1.1.1.0/24" ;;
   IpChecker.isBlocked checker (IpChecker.Text "1.1.1.5")) = Normal true /\
  (checker <- IpChecker.load "1.1.1.0/24" ;;
   IpChecker.isBlocked checker (IpChecker.Text "1.1.2.5")) = Normal false.
Proof. vm_compute. auto. Qed.

(** C4, at the inputs where the code departs from it: with the single entry
    0.0.0.0/0 loaded, whose bounds are 0 and 4294967295, the address
    128.0.0.0 is reported as not blocked; and with 192.168.0.0/16 loaded, so
    is the address 192.168.0.1 given as its numeric value 3232235521. *)
Theorem isBlocked_misses_high_addresses :
  (checker <- IpChecker.load "0.0.0.0/0" ;; Normal (IpChecker.ranges checker))
  = Normal [(Num 0, Num 4294967295)] /\
  (checker <- IpChecker.load "0.0.0.0/0" ;;
   IpChecker.isBlocked checker (IpChecker.Text "128.0.0.0")) = Normal false /\
  (checker <- IpChecker.load "192.168.0.0/16" ;;
   IpChecker.isBlocked checker (IpChecker.Numeric (Num 3232235521)))
  = Normal false.
Proof. vm_compute. auto. Qed.

Lemma load_empty : IpChecker.load "" = Normal IpChecker.new.
Proof. reflexivity. Qed.

(** C8: on a checker without ranges, as [new IpChecker()] is before [load]
    and as [load] leaves it for an empty file, [isBlocked] returns false for
    every argument, text or number, and does not throw. *)
Theorem isBlocked_without_ranges (checker : IpChecker.t) (ip : IpChecker.address) :
  IpChecker.getRangeCount checker = O ->
  IpChecker.isBlocked checker ip = Normal false.
Proof.
  unfold IpChecker.getRangeCount, IpChecker.isBlocked. intros Hcount.
  destruct (IpChecker.ranges checker) as [|r rs]; [|discriminate].
  destruct ip as [s|n]; reflexivity.
Qed.

Lemma isBlocked_without_ranges_witness :
  IpChecker.getRangeCount IpChecker.new = O /\
  IpChecker.isBlocked IpChecker.new (IpChecker.Text "8.8.8.8") = Normal false /\
  (checker <- IpChecker.load "" ;;
   IpChecker.isBlocked checker (IpChecker.Numeric (Num 134744072)))
  = Normal false.
Proof.
  split; [reflexivity|]. split.
  - apply (isBlocked_without_ranges IpChecker.new); reflexivity.
  - rewrite load_empty. simpl bind.
    apply (isBlocked_without_ranges IpChecker.new); reflexivity.
Defined.

(** The loop of [isBlocked] ends within the fuel it is given, on any array,
    and never reads outside it. *)
Lemma isBlockedLoop_returns (ipNum : JsNumber)
  (ranges : list (JsNumber * JsNumber)) (fuel : nat) :
  forall left right : Z,
    0 <= left -> right < Z.of_nat (List.length ranges) ->
    right - left + 1 <= Z.of_nat fuel ->
    exists answer,
      example.isBlockedLoop fuel ipNum ranges left right = Normal answer.
Proof.
  induction fuel as [|fuel IH]; intros left right Hleft Hright Hfuel; simpl.
  - destruct (left <=? right) eqn:Hle; [apply Z.leb_le in Hle; lia | eauto].
  - destruct (left <=? right) eqn:Hle; [|eauto].
    apply Z.leb_le in Hle.
    set (mid := (left + right) / 2).
    assert (Hmid : left <= mid <= right).
    { unfold mid. split.
      - apply Z.div_le_lower_bound; lia.
      - apply Z.div_le_upper_bound; lia. }
    destruct (mid <? 0) eqn:Hneg; [apply Z.ltb_lt in Hneg; lia|].
    destruct (nth_error ranges (Z.to_nat mid)) as [[start end_]|] eqn:Hnth.
    2:{ apply nth_error_None in Hnth. lia. }
    destruct (lt ipNum start); [apply IH; lia|].
    destruct (gt ipNum end_); [apply IH; lia | eauto].
Qed.

(** *** The binary search, on ranges that are sorted and disjoint *)

Lemma StronglySorted_nth {A : Type} (R : A -> A -> Prop) (l : list A) :
  StronglySorted R l ->
  forall i j a b, (i < j)%nat ->
    nth_error l i = Some a -> nth_error l j = Some b -> R a b.
Proof.
  induction 1 as [|x l Hs IH Hx]; intros i j a b Hij Hi Hj.
  - destruct i; discriminate.
  - destruct j as [|j]; [lia|]. simpl in Hj.
    destruct i as [|i]; simpl in Hi.
    + injection Hi as <-. rewrite Forall_forall in Hx.
      apply Hx. eapply nth_error_In, Hj.
    + apply (IH i j); auto. lia.
Qed.

Lemma existsb_nth_false {A : Type} (p : A -> bool) (l : list A) :
  (forall i a, nth_error l i = Some a -> p a = false) -> existsb p l = false.
Proof.
  induction l as [|x l IH]; intros H; simpl; auto.
  rewrite (H O x eq_refl). apply IH. intros i a Hi. apply (H (S i) a Hi).
Qed.

Lemma nth_error_numRanges (rs : list (Z * Z)) (i : nat) :
  nth_error (numRanges rs) i
  = option_map (fun r => (Num (fst r), Num (snd r))) (nth_error rs i).
Proof. unfold numRanges. apply nth_error_map. Qed.

(** The loop of [isBlocked] between [left] and [right], when no range outside
    these indices holds the address: the fuel is enough and the answer is
    whether some range holds it. *)
Lemma isBlockedLoop_spec (v : Z) (rs : list (Z * Z)) :
  ascendingDisjoint rs ->
  forall (fuel : nat) (left right : Z),
    0 <= left -> right < Z.of_nat (List.length rs) ->
    right - left + 1 <= Z.of_nat fuel ->
    (forall i r, nth_error rs i = Some r ->
       Z.of_nat i < left \/ right < Z.of_nat i -> holds v r = false) ->
    example.isBlockedLoop fuel (Num v) (numRanges rs) left right
    = Normal (existsb (holds v) rs).
Proof.
  intros [Hsorted Hnonempty] fuel.
  induction fuel as [|fuel IH]; intros left right Hleft Hright Hfuel Hout.
  - simpl. destruct (left <=? right) eqn:Hle; [apply Z.leb_le in Hle; lia|].
    apply Z.leb_gt in Hle. f_equal. symmetry. apply existsb_nth_false.
    intros i r Hi. apply (Hout i r Hi). lia.
  - simpl. destruct (left <=? right) eqn:Hle.
    2:{ apply Z.leb_gt in Hle. f_equal. symmetry. apply existsb_nth_false.
        intros i r Hi. apply (Hout i r Hi). lia. }
    apply Z.leb_le in Hle.
    set (mid := (left + right) / 2).
    assert (Hmid : left <= mid <= right).
    { unfold mid. split.
      - apply Z.div_le_lower_bound; lia.
      - apply Z.div_le_upper_bound; lia. }
    destruct (mid <? 0) eqn:Hneg; [apply Z.ltb_lt in Hneg; lia|].
    rewrite nth_error_numRanges.
    destruct (nth_error rs (Z.to_nat mid)) as [[s e]|] eqn:Hnth.
    2:{ apply nth_error_None in Hnth. lia. }
    simpl option_map. cbv beta iota. simpl fst. simpl snd.
    assert (Hse : s <= e).
    { rewrite Forall_forall in Hnonempty.
      apply (Hnonempty (s, e)). eapply nth_error_In, Hnth. }
    unfold lt, gt.
    destruct (v <? s) eqn:Hvs.
    + apply Z.ltb_lt in Hvs. apply IH; try lia.
      intros i r Hi [Hlow|Hhigh]; [apply (Hout i r Hi); lia|].
      destruct (Z.eq_dec (Z.of_nat i) mid) as [Heq|Hne].
      * rewrite <- Heq, Nat2Z.id in Hnth. rewrite Hnth in Hi.
        injection Hi as <-. unfold holds. simpl.
        apply andb_false_iff. left. apply Z.leb_gt. lia.
      * destruct (Z_lt_le_dec right (Z.of_nat i)) as [Hfar|Hnear];
          [apply (Hout i r Hi); lia|].
        pose proof (StronglySorted_nth _ _ Hsorted (Z.to_nat mid) i (s, e) r
                      ltac:(lia) Hnth Hi) as Hlater.
        simpl in Hlater. unfold holds.
        apply andb_false_iff. left. apply Z.leb_gt. lia.
    + apply Z.ltb_ge in Hvs. destruct (e <? v) eqn:Hev.
      * apply Z.ltb_lt in Hev. apply IH; try lia.
        intros i r Hi [Hlow|Hhigh]; [|apply (Hout i r Hi); lia].
        destruct (Z.eq_dec (Z.of_nat i) mid) as [Heq|Hne].
        -- rewrite <- Heq, Nat2Z.id in Hnth. rewrite Hnth in Hi.
           injection Hi as <-. unfold holds. simpl.
           apply andb_false_iff. right. apply Z.leb_gt. lia.
        -- destruct (Z_lt_le_dec (Z.of_nat i) left) as [Hfar|Hnear];
             [apply (Hout i r Hi); lia|].
           pose proof (StronglySorted_nth _ _ Hsorted i (Z.to_nat mid) r (s, e)
                         ltac:(lia) Hi Hnth) as Hearlier.
           simpl in Hearlier.
           assert (Hr : fst r <= snd r).
           { rewrite Forall_forall in Hnonempty.
             apply (Hnonempty r). eapply nth_error_In, Hi. }
           unfold holds.
           apply andb_false_iff. right. apply Z.leb_gt. lia.
      * apply Z.ltb_ge in Hev. f_equal. symmetry.
        apply existsb_exists. exists (s, e). split.
        -- eapply nth_error_In, Hnth.
        -- unfold holds. simpl. apply andb_true_iff.
           split; apply Z.leb_le; lia.
Qed.

(** On sorted disjoint ranges [isBlocked] returns, and says whether some
    range holds the number it is given. *)
Lemma isBlocked_ascendingDisjoint (v : Z) (rs : list (Z * Z)) :
  ascendingDisjoint rs ->
  example.isBlocked (Num v) (numRanges rs) = Normal (existsb (holds v) rs).
Proof.
  intros Hrs. unfold example.isBlocked.
  assert (Hlen : List.length (numRanges rs) = List.length rs)
    by apply length_map.
  rewrite Hlen.
  apply isBlockedLoop_spec; auto; try lia.
  intros i r Hi Hrange. exfalso.
  assert (i < List.length rs)%nat by (apply nth_error_Some; congruence).
  lia.
Qed.

(** *** The decomposer on numbers of one sign *)

Lemma decompose_no_throw (fuel : nat) (start end_ : JsNumber)
  (cidrs : list string) (message : string) :
  iputils.decompose fuel start end_ cidrs <> Throw message.
Proof.
  revert start cidrs; induction fuel as [|fuel IH]; intros start cidrs; simpl.
  - destruct (le start end_); discriminate.
  - destruct (le start end_); [|discriminate].
    destruct (pow2 _); [apply IH | discriminate].
Qed.

(** The decomposer throws exactly when the number read from the start text
    is above the number read from the end text. *)
Lemma rangeToCIDRs_throws_iff (startIP endIP : string) :
  (exists message, iputils.rangeToCIDRs startIP endIP = Throw message) <->
  (exists s e, iputils.ipToNumber startIP = Normal (Num s) /\
               iputils.ipToNumber endIP = Normal (Num e) /\ e < s).
Proof.
  unfold iputils.rangeToCIDRs, iputils.ipToNumber. simpl bind.
  set (start := fold_left _ (split "." startIP) _).
  set (end_ := fold_left _ (split "." endIP) _).
  destruct (gt start end_) eqn:Hgt.
  - split; [intros _ | intros _; eauto].
    destruct start as [|s], end_ as [|e]; try discriminate.
    exists s, e. repeat split. now apply Z.ltb_lt.
  - split.
    + intros [message H]. now apply decompose_no_throw in H.
    + intros [s [e [[= Hs] [[= He] Hlt]]]].
      rewrite Hs, He in Hgt. simpl in Hgt. apply Z.ltb_ge in Hgt. lia.
Qed.

Lemma blockSize_bounds (maxSize : nat) :
  (1 <= maxSize <= 32)%nat -> 1 <= blockSize maxSize <= 2 ^ 31.
Proof.
  intros H. unfold blockSize. split.
  - change 1 with (2 ^ 0). apply Z.pow_le_mono_r; lia.
  - apply Z.pow_le_mono_r; lia.
Qed.

Lemma wrapInt32_wrapUint32 (z : Z) : wrapInt32 (wrapUint32 z) = wrapInt32 z.
Proof.
  unfold wrapInt32, wrapUint32.
  rewrite Zplus_mod_idemp_l. reflexivity.
Qed.

(** Clearing the low [k] bits. *)
Lemma land_neg_pow2 (s k : Z) :
  0 <= k -> Z.land s (- 2 ^ k) = s - s mod 2 ^ k.
Proof.
  intros Hk.
  replace (- 2 ^ k) with (Z.lnot (Z.ones k))
    by (rewrite Z.ones_equiv; unfold Z.lnot; lia).
  rewrite <- Z.ldiff_land, Z.ldiff_ones_r by assumption.
  rewrite Z.shiftr_div_pow2, Z.shiftl_mul_pow2 by assumption.
  pose proof (Z.pow_pos_nonneg 2 k ltac:(lia) Hk).
  rewrite (Z.div_mod s (2 ^ k)) at 2 by lia. lia.
Qed.

(** The mask of line 243 and the test of line 246. *)
Lemma maskedBase_value (s : Z) (maxSize : nat) :
  (1 <= maxSize <= 32)%nat -> int32 s ->
  band (Num s) (shr (bnot (sub (Num (blockSize maxSize)) (Num 1))) 0)
  = Num (s - s mod blockSize maxSize).
Proof.
  intros HM Hs. pose proof (blockSize_bounds maxSize HM) as Hsize.
  unfold band, shr, bnot, sub, toInt32, toUint32.
  rewrite (wrapInt32_small (blockSize maxSize - 1)) by lia.
  change (2 ^ 0) with 1. rewrite Z.div_1_r, wrapInt32_wrapUint32.
  replace (Z.lnot (blockSize maxSize - 1)) with (- blockSize maxSize)
    by (unfold Z.lnot; lia).
  rewrite (wrapInt32_small s) by exact Hs.
  rewrite (wrapInt32_small (- blockSize maxSize)) by lia.
  unfold blockSize. rewrite land_neg_pow2 by lia. reflexivity.
Qed.

(** The inner loop leaves at the first prefix length, from [n] downwards,
    whose block does not fit. *)
Lemma largestMask_spec (s e : Z) (n : nat) :
  (n <= 32)%nat -> int32 s ->
  let r := iputils.largestMask n (Num s) (Num e) in
  (r <= n)%nat /\
  (forall maxSize, (r < maxSize <= n)%nat -> fits s e maxSize) /\
  (r = O \/ ~ fits s e r).
Proof.
  intros Hn Hs. induction n as [|n IH].
  - simpl. split; [lia|]. split; [intros; lia | now left].
  - cbn [iputils.largestMask].
    fold (blockSize (S n)).
    rewrite maskedBase_value by (auto; lia).
    unfold strictNe, add, sub, gt.
    destruct (s - s mod blockSize (S n) =? s) eqn:Haligned; simpl negb;
      cbv iota.
    + apply Z.eqb_eq in Haligned.
      destruct (e <? s + blockSize (S n) - 1) eqn:Hover.
      * apply Z.ltb_lt in Hover.
        split; [lia|]. split; [intros; lia|].
        right. unfold fits. lia.
      * apply Z.ltb_ge in Hover.
        destruct (IH ltac:(lia)) as [Hle [Hfits Hstop]].
        split; [lia|]. split; [|exact Hstop].
        intros maxSize HM.
        destruct (Nat.eq_dec maxSize (S n)) as [->|Hne].
        -- unfold fits. lia.
        -- apply Hfits. lia.
    + apply Z.eqb_neq in Haligned.
      split; [lia|]. split; [intros; lia|].
      right. unfold fits. lia.
Qed.

(** With start and end of one sign the outer loop returns, with the fuel of
    [rangeToCIDRs], and what it appends tiles the range. *)
Lemma decompose_tiling (e : Z) :
  int32 e ->
  forall (fuel : nat) (s : Z) (cidrs : list string),
    s <= e + 1 -> (s <= e -> int32 s) ->
    e - s + 1 <= Z.of_nat fuel ->
    exists blocks,
      iputils.decompose fuel (Num s) (Num e) cidrs
      = Normal (cidrs ++ map cidrText blocks)
      /\ tiling e s blocks.
Proof.
  intros He fuel. induction fuel as [|fuel IH]; intros s cidrs Hse Hs Hfuel.
  - exists []. replace s with (e + 1) by lia. simpl.
    destruct (e + 1 <=? e) eqn:Hle; [apply Z.leb_le in Hle; lia|].
    rewrite app_nil_r. split; [reflexivity | constructor].
  - cbn [iputils.decompose]. unfold le.
    destruct (s <=? e) eqn:Hle.
    2:{ apply Z.leb_gt in Hle. exists []. replace s with (e + 1) by lia.
        rewrite app_nil_r. split; [reflexivity | constructor]. }
    apply Z.leb_le in Hle. specialize (Hs Hle).
    destruct (largestMask_spec s e 32 ltac:(lia) Hs) as [Hr [Hfits Hstop]].
    set (r := iputils.largestMask 32 (Num s) (Num e)) in *.
    assert (Hfits32 : fits s e 32).
    { unfold fits, blockSize. simpl. rewrite Z.mod_1_r. lia. }
    assert (Hr31 : (r <= 31)%nat).
    { destruct Hstop as [->|Hno]; [lia|].
      destruct (Nat.eq_dec r 32) as [Heq|]; [|lia].
      rewrite Heq in Hno. contradiction. }
    pose proof (blockSize_bounds (S r) ltac:(lia)) as Hsize.
    destruct (Hfits (S r) ltac:(lia)) as [Haligned Hlast].
    unfold pow2. fold (blockSize (S r)).
    destruct (0 <=? 32 - Z.of_nat (S r)) eqn:Hpos;
      [|apply Z.leb_gt in Hpos; lia].
    unfold add.
    destruct (IH (s + blockSize (S r))
                 (cidrs ++ [cidrText (s, S r)])) as [blocks [Hrun Htiles]];
      try lia.
    { intros Hnext. unfold int32 in *. lia. }
    exists ((s, S r) :: blocks). split.
    + unfold cidrText at 1 in Hrun. simpl fst in Hrun. simpl snd in Hrun.
      rewrite Hrun. now rewrite <- app_assoc.
    + constructor; auto; [lia | split; auto |].
      destruct Hstop as [Hzero|Hno]; [left; lia | right].
      now replace (S r - 1)%nat with r by lia.
Qed.

(** When both texts read as 32-bit numbers of one sign, in order,
    [rangeToCIDRs] returns the texts of blocks that tile the range. *)
Lemma rangeToCIDRs_tiling (startIP endIP : string) (s e : Z) :
  iputils.ipToNumber startIP = Normal (Num s) ->
  iputils.ipToNumber endIP = Normal (Num e) ->
  int32 s -> int32 e -> s <= e ->
  exists blocks,
    iputils.rangeToCIDRs startIP endIP = Normal (map cidrText blocks)
    /\ tiling e s blocks.
Proof.
  intros Hstart Hend Hs He Hse. unfold iputils.rangeToCIDRs.
  rewrite Hstart, Hend. simpl bind. unfold gt.
  destruct (e <? s) eqn:Hgt; [apply Z.ltb_lt in Hgt; lia|].
  destruct (decompose_tiling e He (iputils.turns (Num s) (Num e)) s [])
    as [blocks [Hrun Htiles]]; auto; try lia.
  { unfold iputils.turns. lia. }
  exists blocks. split; auto.
Qed.

Lemma blockSize_double (maxSize : nat) :
  (2 <= maxSize <= 32)%nat ->
  blockSize (maxSize - 1) = 2 * blockSize maxSize.
Proof.
  intros H. unfold blockSize.
  replace (32 - Z.of_nat (maxSize - 1)) with (Z.succ (32 - Z.of_nat maxSize))
    by lia.
  rewrite Z.pow_succ_r by lia. reflexivity.
Qed.

(** Two neighbours of a tiling never merge: when they have one size, below
    half the address space, the first is not aligned on the double size. *)
Lemma tiling_not_mergeable (e s s' : Z) (maxSize : nat) (rest : list (Z * nat)) :
  tiling e s ((s, maxSize) :: (s', maxSize) :: rest) ->
  (2 <= maxSize)%nat ->
  s mod blockSize (maxSize - 1) <> 0.
Proof.
  intros Htiles HM Haligned.
  inversion Htiles as [|? ? ? Hrange Hfits Hmax Hrest]; subst.
  inversion Hrest as [|? ? ? _ Hfits' _ _]; subst.
  destruct Hmax as [->|Hno]; [lia|].
  apply Hno. split; auto.
  destruct Hfits' as [_ Hlast].
  rewrite blockSize_double by lia. lia.
Qed.

(** *** The number of blocks *)

Lemma pow2_divide (j k : Z) : 0 <= j <= k -> (2 ^ j | 2 ^ k).
Proof.
  intros H. exists (2 ^ (k - j)).
  rewrite <- Z.pow_add_r by lia. f_equal. lia.
Qed.

Lemma aligned_weaken (s j k : Z) :
  0 <= j <= k -> s mod 2 ^ k = 0 -> s mod 2 ^ j = 0.
Proof.
  intros H Hk.
  pose proof (Z.pow_pos_nonneg 2 j ltac:(lia) ltac:(lia)).
  pose proof (Z.pow_pos_nonneg 2 k ltac:(lia) ltac:(lia)).
  apply Z.mod_divide; [lia|].
  apply Z.divide_trans with (2 ^ k); [now apply pow2_divide|].
  apply Z.mod_divide; [lia | assumption].
Qed.

(** Once the remaining numbers are fewer than the alignment of the current
    position, the blocks shrink at every step. *)
Lemma tiling_length_tail (e : Z) (blocks : list (Z * nat)) :
  forall (s k : Z),
    tiling e s blocks -> 0 <= k <= 32 ->
    s mod 2 ^ k = 0 -> e - s + 1 < 2 ^ k ->
    Z.of_nat (List.length blocks) <= k.
Proof.
  induction blocks as [|[s maxSize] rest IH];
    intros s' k Htiles Hk Haligned Hleft.
  - simpl. lia.
  - inversion Htiles as [|? ? ? Hrange [Hal Hlast] Hmax Hrest]; subst.
    pose proof (blockSize_bounds maxSize Hrange) as Hsize.
    set (j := 32 - Z.of_nat maxSize) in *.
    assert (Hj : blockSize maxSize = 2 ^ j) by reflexivity.
    assert (Hjk : j < k).
    { destruct (Z_lt_le_dec j k) as [|Hge]; auto.
      assert (2 ^ k <= 2 ^ j) by (apply Z.pow_le_mono_r; lia). lia. }
    assert (Hnext : e - (s + blockSize maxSize) + 1 < 2 ^ j).
    { destruct (Nat.eq_dec maxSize 1) as [Hone|Hmany];
        [|destruct Hmax as [Hone|Hno]; [lia|]].
      - assert (2 ^ k <= 2 ^ 32) by (apply Z.pow_le_mono_r; lia).
        assert (Hj31 : j = 31) by (unfold j; lia).
        rewrite Hj, Hj31. lia.
      - destruct (Z_lt_le_dec (e - (s + blockSize maxSize) + 1) (2 ^ j))
          as [|Hroom]; auto.
        exfalso. apply Hno. split.
        + rewrite blockSize_double by lia. rewrite Hj.
          replace (2 * 2 ^ j) with (2 ^ (Z.succ j))
            by (rewrite Z.pow_succ_r; lia).
          apply aligned_weaken with k; auto. lia.
        + rewrite blockSize_double by lia. lia. }
    assert (Hrec : Z.of_nat (List.length rest) <= j).
    { apply (IH (s + blockSize maxSize) j); auto; try lia.
      rewrite Hj. rewrite Z.add_mod, Z_mod_same_full, Z.add_0_r, Z.mod_mod by lia.
      rewrite <- Hj. exact Hal. }
    simpl List.length. lia.
Qed.

(** While the alignment of the position limits the blocks, they grow at
    every step; afterwards they shrink. *)
Lemma tiling_length (e : Z) (blocks : list (Z * nat)) :
  int32 e ->
  forall (s k : Z),
    tiling e s blocks -> 0 <= k <= 32 ->
    s mod 2 ^ k = 0 -> int32 s ->
    Z.of_nat (List.length blocks) <= (32 - k) + 32.
Proof.
  intros He.
  induction blocks as [|[s maxSize] rest IH];
    intros s' k Htiles Hk Haligned Hs.
  - simpl List.length. lia.
  - inversion Htiles as [|? ? ? Hrange [Hal Hlast] Hmax Hrest]; subst.
    pose proof (blockSize_bounds maxSize Hrange) as Hsize.
    set (j := 32 - Z.of_nat maxSize) in *.
    assert (Hj : blockSize maxSize = 2 ^ j) by reflexivity.
    assert (Hpos : 0 < 2 ^ (Z.succ j)) by (apply Z.pow_pos_nonneg; lia).
    assert (Hdouble : 2 ^ (Z.succ j) = 2 * 2 ^ j) by (rewrite Z.pow_succ_r; lia).
    destruct (Z.eq_dec (s mod 2 ^ (Z.succ j)) 0) as [Hwide|Hnarrow].
    + (* the end of the range limits this block *)
      assert (Hnext : e - (s + blockSize maxSize) + 1 < 2 ^ j).
      { destruct (Nat.eq_dec maxSize 1) as [Hone|Hmany];
          [|destruct Hmax as [Hone|Hno]; [lia|]].
        - assert (Hj31 : j = 31) by (unfold j; lia).
          rewrite Hj, Hj31. rewrite Hj31 in Hwide.
          unfold int32 in *.
          assert (s = 0).
          { apply Z.mod_divide in Hwide; [|lia].
            destruct Hwide as [q Hq]. change (Z.succ 31) with 32 in Hq. lia. }
          lia.
        - destruct (Z_lt_le_dec (e - (s + blockSize maxSize) + 1) (2 ^ j))
            as [|Hroom]; auto.
          exfalso. apply Hno. split.
          + rewrite blockSize_double by lia. rewrite Hj, <- Hdouble. exact Hwide.
          + rewrite blockSize_double by lia. lia. }
      assert (Hrec : Z.of_nat (List.length rest) <= j).
      { apply (tiling_length_tail e rest (s + blockSize maxSize) j);
          auto; try lia.
        rewrite Hj. rewrite Z.add_mod, Z_mod_same_full, Z.add_0_r, Z.mod_mod by lia.
        rewrite <- Hj. exact Hal. }
      simpl List.length. lia.
    + (* the alignment of [s] limits this block *)
      assert (Hkj : k <= j).
      { destruct (Z_lt_le_dec j k) as [Hlt|]; auto.
        exfalso. apply Hnarrow. apply aligned_weaken with k; auto. lia. }
      assert (Hrest_aligned : (s + blockSize maxSize) mod 2 ^ (Z.succ j) = 0).
      { rewrite Hj. rewrite Hj in Hal.
        apply Z.mod_divide in Hal; [|lia]. destruct Hal as [q Hq].
        assert (Hodd : q mod 2 = 1).
        { destruct (Z.eq_dec (q mod 2) 0) as [Heven|Hodd].
          - exfalso. apply Hnarrow. apply Z.mod_divide; [lia|].
            apply Z.mod_divide in Heven; [|lia]. destruct Heven as [h Hh].
            exists h. rewrite Hdouble. subst q. lia.
          - pose proof (Z.mod_pos_bound q 2 ltac:(lia)). lia. }
        apply Z.mod_divide; [lia|].
        exists ((q + 1) / 2). rewrite Hdouble.
        assert (Hhalf : q + 1 = 2 * ((q + 1) / 2)).
        { apply Z_div_exact_full_2; [lia|].
          rewrite Z.add_mod, Hodd by lia. reflexivity. }
        subst s. nia. }
      destruct (Z_le_gt_dec (s + blockSize maxSize) e) as [Hmore|Hdone].
      * assert (Hj31 : j <= 31) by (unfold j; lia).
        assert (Hrec : Z.of_nat (List.length rest) <= (32 - Z.succ j) + 32).
        { apply (IH (s + blockSize maxSize) (Z.succ j)); auto; try lia.
          unfold int32 in *. lia. }
        simpl List.length. lia.
      * inversion Hrest as [Hend|? ? ? Hrange' [_ Hlast'] _ _]; subst.
        -- simpl List.length. lia.
        -- pose proof (blockSize_bounds _ Hrange'). lia.
Qed.

(** At most 2 x 32 blocks. *)
Lemma tiling_at_most_64 (s e : Z) (blocks : list (Z * nat)) :
  int32 s -> int32 e -> tiling e s blocks -> (List.length blocks <= 64)%nat.
Proof.
  intros Hs He Htiles.
  pose proof (tiling_length e blocks He s 0 Htiles ltac:(lia)
                ltac:(apply Z.mod_1_r) Hs).
  lia.
Qed.

(** *** What the deduplicator discards *)

Lemma treeOf_snoc (entries : list string) (cidr : string) :
  treeOf (entries ++ [cidr])
  = RadixTree.insert (treeOf entries) (CIDRProcessor.binaryPrefix cidr).
Proof.
  unfold treeOf, insertAll. rewrite map_app, fold_left_app. reflexivity.
Qed.

(** An entry that the loop discards has, among the entries kept before it,
    one whose binary prefix starts its own. *)
Lemma kept_covers (cidrs before : list string) (x : string) :
  In x cidrs -> ~ In x (kept (treeOf before) cidrs) ->
  exists k, In k (before ++ kept (treeOf before) cidrs) /\
            startsWith (CIDRProcessor.binaryPrefix x)
                       (CIDRProcessor.binaryPrefix k) = true.
Proof.
  revert before; induction cidrs as [|cidr rest IH]; intros before Hin Hout;
    [destruct Hin|].
  simpl in Hout |- *.
  destruct (RadixTree.search (treeOf before) (CIDRProcessor.binaryPrefix cidr))
    eqn:Hsearch; simpl in Hout |- *.
  - destruct Hin as [->|Hin]; [|now apply IH].
    apply search_sound in Hsearch. destruct Hsearch as [p [Hp Hstarts]].
    apply in_map_iff in Hp. destruct Hp as [k [<- Hk]].
    exists k. split; auto. apply in_or_app. now left.
  - destruct Hin as [->|Hin]; [exfalso; apply Hout; now left|].
    rewrite <- treeOf_snoc in Hout |- *.
    destruct (IH (before ++ [cidr]) Hin) as [k [Hk Hstarts]].
    { intros H. apply Hout. now right. }
    exists k. split; auto.
    rewrite <- app_assoc in Hk. exact Hk.
Qed.

(** Every key that [filterContainedCIDRsRadix] leaves out is covered, bit
    prefix for bit prefix, by a key it returns. *)
Lemma filterContainedCIDRsRadix_covers (keys : list string) (x : string) :
  NoDup keys -> In x keys ->
  ~ In x (CIDRProcessor.filterContainedCIDRsRadix keys) ->
  exists k, In k (CIDRProcessor.filterContainedCIDRsRadix keys) /\
            startsWith (CIDRProcessor.binaryPrefix x)
                       (CIDRProcessor.binaryPrefix k) = true.
Proof.
  intros Hnd Hin. rewrite (filterContainedCIDRsRadix_kept keys Hnd).
  intros Hout.
  apply (kept_covers (sort CIDRProcessor.compareCidrs keys) [] x); auto.
  now apply sort_In.
Qed.

(** What [filterContainedCIDRsRadix] returns are keys it was given. *)
Lemma filterContainedCIDRsRadix_subset (keys : list string) (x : string) :
  NoDup keys ->
  In x (CIDRProcessor.filterContainedCIDRsRadix keys) -> In x keys.
Proof.
  intros Hnd. rewrite (filterContainedCIDRsRadix_kept keys Hnd).
  intros H. apply kept_In in H. now apply sort_In in H.
Qed.

(** *** Reading the emitted texts back *)

Lemma includes_append (a b : string) (c : ascii) :
  includes (a ++ b) c = includes a c || includes b c.
Proof.
  induction a as [|d a IH]; simpl; auto.
  now rewrite IH, orb_assoc.
Qed.

Lemma octets_without_slash :
  forallb (fun n => negb (includes (toStringDec n) "/"))
    (map Z.of_nat (seq 0 256)) = true.
Proof. vm_compute. reflexivity. Qed.

Lemma octet_without_slash (n : Z) :
  0 <= n <= 255 -> includes (toStringDec n) "/" = false.
Proof.
  intros Hn.
  assert (Hin : In n (map Z.of_nat (seq 0 256))).
  { rewrite <- (Z2Nat.id n) by lia. apply in_map, in_seq. lia. }
  pose proof (proj1 (forallb_forall _ _) octets_without_slash n Hin) as H.
  cbv beta in H. now destruct (includes (toStringDec n) "/").
Qed.

Lemma masks_read_back :
  forallb (fun m =>
             match toNumber (Some (toStringDec (Z.of_nat m))) with
             | Normal (Num z) => z =? Z.of_nat m
             | _ => false
             end && negb (includes (toStringDec (Z.of_nat m)) "/"))
    (seq 0 33) = true.
Proof. vm_compute. reflexivity. Qed.

Lemma mask_reads_back (m : nat) :
  (m <= 32)%nat ->
  toNumber (Some (toStringDec (Z.of_nat m))) = Normal (Num (Z.of_nat m)) /\
  includes (toStringDec (Z.of_nat m)) "/" = false.
Proof.
  intros Hm.
  assert (Hin : In m (seq 0 33)) by (apply in_seq; lia).
  pose proof (proj1 (forallb_forall _ _) masks_read_back m Hin) as H.
  cbv beta in H. apply andb_true_iff in H. destruct H as [H1 H2]. split.
  - destruct (toNumber (Some (toStringDec (Z.of_nat m)))) as [[|z]| |];
      try discriminate.
    apply Z.eqb_eq in H1. now subst.
  - now destruct (includes (toStringDec (Z.of_nat m)) "/").
Qed.

Lemma dottedQuad_without_slash (a b c d : Z) :
  0 <= a <= 255 -> 0 <= b <= 255 -> 0 <= c <= 255 -> 0 <= d <= 255 ->
  includes (dottedQuad a b c d) "/" = false.
Proof.
  intros Ha Hb Hc Hd. unfold dottedQuad. simpl.
  repeat (rewrite includes_append; simpl).
  now rewrite !octet_without_slash by assumption.
Qed.

Lemma octetAt_range (s k : Z) : 0 <= octetAt s k <= 255.
Proof.
  unfold octetAt. pose proof (Z.mod_pos_bound (wrapUint32 s / 2 ^ k) 256).
  lia.
Qed.

Lemma land_255 (y : Z) : Z.land y 255 = y mod 256.
Proof. change 255 with (Z.ones 8). now rewrite Z.land_ones by lia. Qed.

Lemma wrapInt32_mod256 (y : Z) : wrapInt32 y mod 256 = y mod 256.
Proof.
  unfold wrapInt32.
  change (2 ^ 32) with 4294967296. change (2 ^ 31) with 2147483648.
  Z.div_mod_to_equations. lia.
Qed.

Lemma numberToIp_dottedQuad (s : Z) :
  iputils.numberToIp (Num s)
  = dottedQuad (octetAt s 24) (octetAt s 16) (octetAt s 8) (octetAt s 0).
Proof.
  unfold iputils.numberToIp, dottedQuad. f_equal.
  unfold band, shr, toInt32, toUint32. cbn [map].
  change (wrapInt32 255) with 255.
  rewrite !land_255, !wrapInt32_mod256.
  assert (Hsmall : forall y, wrapInt32 (y mod 256) = y mod 256).
  { intros y. apply wrapInt32_small.
    pose proof (Z.mod_pos_bound y 256). lia. }
  rewrite !Hsmall. unfold octetAt.
  replace (s mod 256) with ((wrapUint32 s / 2 ^ 0) mod 256); [reflexivity|].
  unfold wrapUint32. change (2 ^ 0) with 1. rewrite Z.div_1_r.
  change (2 ^ 32) with 4294967296.
  Z.div_mod_to_equations. lia.
Qed.

Lemma octetAt_sum (s : Z) :
  octetAt s 24 * 2 ^ 24 + octetAt s 16 * 2 ^ 16 + octetAt s 8 * 2 ^ 8
  + octetAt s 0 = wrapUint32 s.
Proof.
  unfold octetAt, wrapUint32.
  pose proof (Z.mod_pos_bound s (2 ^ 32) ltac:(lia)) as Hu.
  set (u := s mod 2 ^ 32) in *.
  change (2 ^ 32) with 4294967296 in Hu.
  change (2 ^ 24) with 16777216. change (2 ^ 16) with 65536.
  change (2 ^ 8) with 256. change (2 ^ 0) with 1.
  Z.div_mod_to_equations. lia.
Qed.

(** [ipToNumber] reads back what [numberToIp] wrote. *)
Lemma ipToNumber_numberToIp (s : Z) :
  int32 s -> iputils.ipToNumber (iputils.numberToIp (Num s)) = Normal (Num s).
Proof.
  intros Hs. rewrite numberToIp_dottedQuad.
  rewrite ipToNumber_dottedQuad by apply octetAt_range.
  rewrite octetAt_sum, wrapInt32_wrapUint32, wrapInt32_small by exact Hs.
  reflexivity.
Qed.

Lemma splitSlash_cidr (ip mask : string) :
  includes ip "/" = false -> includes mask "/" = false ->
  iputils.splitSlash (ip ++ "/" ++ mask) = (ip, Some mask).
Proof.
  intros Hip Hmask. unfold iputils.splitSlash.
  change (ip ++ "/" ++ mask)%string with (ip ++ String "/" mask)%string.
  rewrite split_append by assumption.
  now rewrite split_no_separator.
Qed.

(** The text of an aligned block, read by [cidrToRange], is the block. *)
Lemma cidrToRange_cidrText (s : Z) (maxSize : nat) :
  int32 s -> (1 <= maxSize <= 32)%nat -> s mod blockSize maxSize = 0 ->
  iputils.cidrToRange (cidrText (s, maxSize))
  = Normal (Num s, Num (s + blockSize maxSize - 1)).
Proof.
  intros Hs HM Haligned.
  pose proof (blockSize_bounds maxSize HM) as Hsize.
  destruct (mask_reads_back maxSize ltac:(lia)) as [Hmask Hnoslash].
  unfold iputils.cidrToRange, cidrText. simpl fst. simpl snd.
  rewrite splitSlash_cidr; auto.
  2:{ rewrite numberToIp_dottedQuad.
      apply dottedQuad_without_slash; apply octetAt_range. }
  rewrite ipToNumber_numberToIp by exact Hs. cbn [bind].
  rewrite Hmask. cbn [bind]. unfold sub at 1.
  destruct ((0 <=? 32 - Z.of_nat maxSize) && (32 - Z.of_nat maxSize <=? 52))
    eqn:Hbits.
  2:{ apply andb_false_iff in Hbits.
      destruct Hbits as [H|H]; apply Z.leb_gt in H; lia. }
  fold (blockSize maxSize).
  unfold band, bnot, sub, add, toInt32.
  rewrite (wrapInt32_small s) by exact Hs.
  rewrite (wrapInt32_small (blockSize maxSize - 1)) by lia.
  replace (Z.lnot (blockSize maxSize - 1)) with (- blockSize maxSize)
    by (unfold Z.lnot; lia).
  rewrite (wrapInt32_small (- blockSize maxSize)) by lia.
  assert (Hland : Z.land s (- blockSize maxSize) = s).
  { unfold blockSize. rewrite land_neg_pow2 by lia.
    fold (blockSize maxSize). lia. }
  rewrite Hland. reflexivity.
Qed.

Lemma tiling_read_back (e : Z) (blocks : list (Z * nat)) :
  int32 e ->
  forall s, - 2 ^ 31 <= s -> tiling e s blocks ->
    exists ranges,
      mapM iputils.cidrToRange (map cidrText blocks) = Normal ranges
      /\ consecutive e s ranges.
Proof.
  intros He. induction blocks as [|[s maxSize] rest IH]; intros s' Hlow Htiles.
  - inversion Htiles; subst. exists []. split; [reflexivity | constructor].
  - inversion Htiles as [|? ? ? Hrange [Hal Hlast] _ Hrest]; subst.
    pose proof (blockSize_bounds maxSize Hrange) as Hsize.
    destruct (IH (s + blockSize maxSize) ltac:(lia) Hrest)
      as [ranges [Hread Hcons]].
    exists ((Num s, Num (s + blockSize maxSize - 1)) :: ranges). split.
    + cbn [map mapM]. rewrite cidrToRange_cidrText; auto.
      * simpl bind. rewrite Hread. reflexivity.
      * unfold int32 in *. lia.
    + constructor; [lia|].
      now replace (s + blockSize maxSize - 1 + 1) with (s + blockSize maxSize)
        by lia.
Qed.

(** End to end, for two texts that read as 32-bit numbers of one sign, in
    order: [rangeToCIDRs] returns at most 64 texts, and [cidrToRange] reads
    them back as consecutive ranges from the start to the end. *)
Lemma rangeToCIDRs_read_back (startIP endIP : string) (s e : Z) :
  iputils.ipToNumber startIP = Normal (Num s) ->
  iputils.ipToNumber endIP = Normal (Num e) ->
  int32 s -> int32 e -> s <= e ->
  exists cidrs ranges,
    iputils.rangeToCIDRs startIP endIP = Normal cidrs /\
    (List.length cidrs <= 64)%nat /\
    mapM iputils.cidrToRange cidrs = Normal ranges /\
    consecutive e s ranges.
Proof.
  intros Hstart Hend Hs He Hse.
  destruct (rangeToCIDRs_tiling _ _ s e Hstart Hend Hs He Hse)
    as [blocks [Hrun Htiles]].
  destruct (tiling_read_back e blocks He s ltac:(unfold int32 in Hs; lia) Htiles)
    as [ranges [Hread Hcons]].
  exists (map cidrText blocks), ranges. repeat split; auto.
  rewrite length_map. now apply (tiling_at_most_64 s e).
Qed.

(* ================================================================== *)
(** * Further properties of the code *)

(** ** The radix tree *)

(** X1: [search] has no false hit.  Whatever was inserted into a fresh tree,
    in whatever order, a search that answers true was given a text that
    starts with one of the inserted prefixes. *)
Theorem search_hit_starts_with_inserted (prefixes : list string)
  (binaryIP : string) :
  RadixTree.search (insertAll prefixes) binaryIP = true ->
  exists p, In p prefixes /\ exists rest, binaryIP = (p ++ rest)%string.
Proof.
  intros Hhit. destruct (search_sound prefixes binaryIP Hhit) as [p [Hin Hp]].
  exists p. split; [exact Hin|]. now apply startsWith_append.
Qed.

Lemma search_hit_starts_with_inserted_witness :
  RadixTree.search (insertAll ["00"; "01"; "1"]) "0010" = true /\
  exists p, In p ["00"; "01"; "1"] /\ exists rest, "0010" = (p ++ rest)%string.
Proof.
  split; [reflexivity|].
  apply (search_hit_starts_with_inserted ["00"; "01"; "1"] "0010").
  reflexivity.
Defined.

Lemma commonPrefixLength_self (p : string) :
  p <> EmptyString -> (0 < RadixTree._commonPrefixLength p p)%nat.
Proof.
  destruct p as [|c p]; [congruence|]. intros _. simpl.
  rewrite Ascii.eqb_refl. lia.
Qed.

Lemma insertScan_apart (continue : RadixNode -> string -> RadixNode)
  (prefix : string) (entries : list (string * RadixNode)) :
  RadixTree.insertScan continue prefix entries = None <->
  Forall (fun entry => RadixTree._commonPrefixLength prefix (fst entry) = O)
    entries.
Proof.
  induction entries as [|[key child] rest IH]; simpl.
  - split; auto.
  - destruct (RadixTree._commonPrefixLength prefix key) as [|n] eqn:Hcpl; simpl.
    + destruct (RadixTree.insertScan continue prefix rest).
      * split; [discriminate|]. intros H. inversion H; subst.
        now apply IH in H3.
      * split; auto. intros _. constructor; auto. now apply IH.
    + split; [discriminate|]. intros H. inversion H; subst.
      simpl in H2. lia.
Qed.

Lemma mapSet_new {V : Type} (key : string) (v : V) (m : list (string * V)) :
  Forall (fun entry => fst entry <> key) m -> mapSet key v m = m ++ [(key, v)].
Proof.
  induction 1 as [|[k w] m Hk Hm IH]; simpl; auto.
  destruct (String.eqb k key) eqn:Heq.
  - apply String.eqb_eq in Heq. simpl in Hk. contradiction.
  - now rewrite IH.
Qed.

(** An insert into a flat tree, of a text that no key shares a start with. *)
Lemma insert_flatTree (keys : list string) (rootIsEnd : bool) (q : string) :
  Forall (fun key => RadixTree._commonPrefixLength q key = O) keys ->
  RadixTree.insert (flatTree keys rootIsEnd) q
  = if nonEmpty q then flatTree (keys ++ [q]) rootIsEnd
    else flatTree keys true.
Proof.
  intros Hapart. unfold RadixTree.insert, flatTree, nonEmpty.
  cbn [RadixTree.root RadixTree.insertLoop value children isEnd].
  destruct (0 <? len q)%nat eqn:Hlen; [|reflexivity].
  assert (Hq : q <> EmptyString) by (intros ->; discriminate Hlen).
  set (entries := map (fun key => (key, Node key [] true)) keys).
  assert (Hnone : RadixTree.insertScan
                    (RadixTree.insertLoop (len q)) q entries = None).
  { apply insertScan_apart. unfold entries. apply Forall_map.
    simpl. exact Hapart. }
  rewrite Hnone. rewrite mapSet_new.
  - unfold entries. now rewrite map_app.
  - unfold entries. apply Forall_map. simpl.
    rewrite Forall_forall in Hapart |- *. intros key Hkey ->.
    pose proof (commonPrefixLength_self q Hq).
    rewrite (Hapart q Hkey) in H. lia.
Qed.

Lemma insertAll_flatTree (prefixes : list string) :
  forall (keys : list string) (rootIsEnd : bool),
    startApart prefixes ->
    Forall (fun q =>
              Forall (fun key => RadixTree._commonPrefixLength q key = O) keys)
      prefixes ->
    fold_left RadixTree.insert prefixes (flatTree keys rootIsEnd)
    = flatTree (keys ++ filter nonEmpty prefixes)
        (rootIsEnd || existsb (fun p => negb (nonEmpty p)) prefixes).
Proof.
  induction prefixes as [|p rest IH]; intros keys rootIsEnd Hapart Hkeys.
  - simpl. now rewrite app_nil_r, orb_false_r.
  - destruct Hapart as [Hp Hrest]. inversion Hkeys as [|? ? Hpk Hrk]; subst.
    cbn [fold_left filter existsb]. rewrite insert_flatTree by exact Hpk.
    destruct (nonEmpty p) eqn:Hne.
    + rewrite IH; auto.
      * now rewrite <- app_assoc.
      * rewrite Forall_forall in Hrk, Hp |- *. intros q Hq.
        apply Forall_app. split; auto.
    + rewrite IH; auto. simpl. now rewrite orb_true_r.
Qed.

Lemma search_flatTree (keys : list string) (rootIsEnd : bool) (s : string) :
  Forall (fun key => nonEmpty key = true) keys ->
  RadixTree.search (flatTree keys rootIsEnd) s
  = existsb (startsWith s) keys || rootIsEnd.
Proof.
  intros Hkeys. unfold RadixTree.search, flatTree.
  cbn [RadixTree.root RadixTree.searchFrom].
  destruct (0 <? len s)%nat eqn:Hlen.
  - induction Hkeys as [|key keys Hkey Hkeys IH]; simpl; auto.
    destruct (startsWith s key); auto.
  - destruct s; [|discriminate].
    induction Hkeys as [|key keys Hkey Hkeys IH]; simpl; auto.
    destruct key; [discriminate|]. simpl. exact IH.
Qed.

(** X2: [search] is exact as long as no insert has to split an edge.  When
    no inserted text shares its first character with one inserted before it,
    [search] answers true exactly for the texts that start with an inserted
    one; on a fresh tree it answers false. *)
Theorem search_exact_without_split (prefixes : list string) (s : string) :
  startApart prefixes ->
  (RadixTree.search (insertAll prefixes) s = true <->
   exists p, In p prefixes /\ startsWith s p = true).
Proof.
  intros Hapart. unfold insertAll.
  change RadixTree.new with (flatTree [] false).
  rewrite insertAll_flatTree; auto.
  2:{ apply Forall_forall. intros; constructor. }
  rewrite search_flatTree.
  2:{ apply Forall_forall. intros key Hkey. now apply filter_In in Hkey. }
  cbn [app orb]. rewrite orb_true_iff, !existsb_exists. split.
  - intros [[p [Hin Hp]]|[p [Hin Hp]]].
    + apply filter_In in Hin. exists p. tauto.
    + exists p. split; auto.
      destruct p; [now destruct s | discriminate].
  - intros [p [Hin Hp]]. destruct (nonEmpty p) eqn:Hne.
    + left. exists p. split; auto. apply filter_In. auto.
    + right. exists p. rewrite Hne. auto.
Qed.

Lemma search_exact_without_split_witness :
  startApart ["0110"; "10"] /\
  (RadixTree.search (insertAll ["0110"; "10"]) "1011" = true <->
   exists p, In p ["0110"; "10"] /\ startsWith "1011" p = true).
Proof.
  assert (H : startApart ["0110"; "10"]).
  { simpl. repeat constructor. }
  split; [exact H|].
  exact (search_exact_without_split ["0110"; "10"] "1011" H).
Defined.

Lemma wellKeyed_node (v : string) (entries : list (string * RadixNode))
  (e : bool) :
  wellKeyed (Node v entries e) = entriesWith wellKeyed entries.
Proof. reflexivity. Qed.

Lemma entriesWith_keys (ok ok' : RadixNode -> Prop)
  (entries entries' : list (string * RadixNode)) :
  map fst entries' = map fst entries ->
  Forall2 (fun old new => ok (snd old) -> ok' (snd new)) entries entries' ->
  entriesWith ok entries -> entriesWith ok' entries'.
Proof.
  intros Hkeys Hall. revert Hkeys.
  induction Hall as [|[k c] [k' c'] rest rest' Hhead Htail IH]; simpl; auto.
  intros [= -> Hkeys] [Hk [Hlater [Hc Hrest]]].
  repeat split; auto.
  apply Forall_map with (f := fst)
                        (P := fun key' =>
                                RadixTree._commonPrefixLength key' k = O).
  rewrite Hkeys. now apply Forall_map.
Qed.

Lemma insertScan_wellKeyed (continue : RadixNode -> string -> RadixNode)
  (prefix : string) (entries entries' : list (string * RadixNode)) :
  (forall node p, wellKeyed node -> wellKeyed (continue node p)) ->
  entriesWith wellKeyed entries ->
  RadixTree.insertScan continue prefix entries = Some entries' ->
  entriesWith wellKeyed entries'.
Proof.
  intros Hcontinue. revert entries'.
  induction entries as [|[key child] rest IH]; intros entries'; simpl;
    [discriminate|].
  intros [Hkey [Hlater [Hchild Hrest]]].
  destruct (0 <? RadixTree._commonPrefixLength prefix key)%nat.
  - intros [= <-]. simpl. repeat split; auto.
    apply Hcontinue.
    destruct (0 <? len (sliceFrom _ key))%nat eqn:Hlen; [|exact Hchild].
    rewrite wellKeyed_node. simpl. repeat split; auto.
    + intros Hempty. rewrite Hempty in Hlen. discriminate Hlen.
    + destruct child as [v cs e]. exact Hchild.
  - destruct (RadixTree.insertScan continue prefix rest) as [rest'|] eqn:Hscan;
      [|discriminate].
    intros [= <-]. simpl. repeat split; auto.
    apply Forall_map with (f := fst)
                          (P := fun key' =>
                                  RadixTree._commonPrefixLength key' key = O).
    rewrite (insertScan_keys _ _ _ _ Hscan). now apply Forall_map.
Qed.

Lemma mapSet_wellKeyed (key : string) (v : RadixNode)
  (entries : list (string * RadixNode)) :
  key <> EmptyString -> wellKeyed v ->
  Forall (fun entry => RadixTree._commonPrefixLength key (fst entry) = O)
    entries ->
  entriesWith wellKeyed entries ->
  entriesWith wellKeyed (mapSet key v entries).
Proof.
  intros Hkey Hv Hapart.
  induction Hapart as [|[k w] rest Hk Hrest IH]; simpl.
  - intros _. repeat split; auto.
  - intros [Hk0 [Hlater [Hw Hok]]]. destruct (String.eqb k key).
    + simpl. repeat split; auto.
    + simpl. repeat split; auto.
      apply Forall_forall. intros [k' w'] Hin. simpl.
      assert (Hin' : In k' (map fst (mapSet key v rest)))
        by (apply in_map_iff; exists (k', w'); auto).
      destruct (mapSet_keys _ _ _ _ Hin') as [->|Hold]; [exact Hk|].
      apply in_map_iff in Hold. destruct Hold as [[k2 w2] [Heq Hin2]].
      simpl in Heq. subst k2.
      rewrite Forall_forall in Hlater. apply (Hlater (k', w2) Hin2).
Qed.

Lemma insertLoop_wellKeyed (fuel : nat) :
  forall (node : RadixNode) (prefix : string),
    wellKeyed node -> wellKeyed (RadixTree.insertLoop fuel node prefix).
Proof.
  induction fuel as [|fuel IH]; intros [v entries e] prefix Hnode; simpl; auto.
  destruct (0 <? len prefix)%nat eqn:Hlen; [|exact Hnode].
  destruct (RadixTree.insertScan _ prefix entries) as [entries'|] eqn:Hscan.
  - rewrite wellKeyed_node. eapply insertScan_wellKeyed; eauto.
  - rewrite wellKeyed_node. apply mapSet_wellKeyed; auto.
    + intros ->. discriminate Hlen.
    + simpl. exact I.
    + now apply insertScan_apart in Hscan.
Qed.

Lemma insertAll_wellKeyed (prefixes : list string) :
  forall tree, wellKeyed (RadixTree.root tree) ->
    wellKeyed (RadixTree.root (fold_left RadixTree.insert prefixes tree)).
Proof.
  induction prefixes as [|p rest IH]; intros tree Htree; simpl; auto.
  apply IH. unfold RadixTree.insert. cbn [RadixTree.root].
  now apply insertLoop_wellKeyed.
Qed.

(** Among well-keyed entries at most one key starts a given text. *)
Lemma entriesWith_one_match (ok : RadixNode -> Prop)
  (entries : list (string * RadixNode)) (s : string) :
  entriesWith ok entries ->
  forall i j k1 c1 k2 c2,
    nth_error entries i = Some (k1, c1) ->
    nth_error entries j = Some (k2, c2) ->
    startsWith s k1 = true -> startsWith s k2 = true -> i = j.
Proof.
  assert (Hclash : forall k1 k2,
             k1 <> EmptyString -> k2 <> EmptyString ->
             startsWith s k1 = true -> startsWith s k2 = true ->
             RadixTree._commonPrefixLength k2 k1 <> O).
  { intros [|a k1] [|b k2] H1 H2 Hs1 Hs2; try congruence.
    destruct s as [|c s]; [discriminate|]. simpl in *.
    apply andb_true_iff in Hs1, Hs2.
    destruct Hs1 as [Hca _], Hs2 as [Hcb _].
    apply Ascii.eqb_eq in Hca, Hcb. subst a b.
    rewrite Ascii.eqb_refl. discriminate. }
  assert (Hnonempty : forall es, entriesWith ok es ->
             forall i k c, nth_error es i = Some (k, c) -> k <> EmptyString).
  { induction es as [|[k0 c0] es IH]; intros Hes i k c Hi.
    - destruct i; discriminate.
    - destruct Hes as [Hk0 [_ [_ Hrest]]]. destruct i as [|i]; simpl in Hi.
      + now injection Hi as <- <-.
      + eapply IH; eauto. }
  induction entries as [|[k0 c0] rest IH]; intros Hes i j k1 c1 k2 c2 Hi Hj H1 H2.
  - destruct i; discriminate.
  - pose proof Hes as [Hk0 [Hlater [_ Hrest]]].
    rewrite Forall_forall in Hlater.
    destruct i as [|i], j as [|j]; simpl in Hi, Hj; auto.
    + injection Hi as <- <-. exfalso.
      apply (Hclash k0 k2); auto.
      * eapply Hnonempty; eauto.
      * apply (Hlater (k2, c2)). eapply nth_error_In, Hj.
    + injection Hj as <- <-. exfalso.
      apply (Hclash k0 k1); auto.
      * eapply Hnonempty; eauto.
      * apply (Hlater (k1, c1)). eapply nth_error_In, Hi.
    + f_equal. eapply IH; eauto.
Qed.

(** X3: the sibling keys of the tree never clash.  In every tree built by
    inserts into a fresh tree, the keys of any one children map are
    non-empty and start with different characters; so under the root at most
    one entry has a key that starts a given text, and the order in which
    [search] and [insert] walk a map has no effect. *)
Theorem insert_keeps_sibling_keys_apart (prefixes : list string) (s : string) :
  wellKeyed (RadixTree.root (insertAll prefixes)) /\
  forall i j k1 c1 k2 c2,
    nth_error (children (RadixTree.root (insertAll prefixes))) i
    = Some (k1, c1) ->
    nth_error (children (RadixTree.root (insertAll prefixes))) j
    = Some (k2, c2) ->
    startsWith s k1 = true -> startsWith s k2 = true -> i = j.
Proof.
  assert (Hwell : wellKeyed (RadixTree.root (insertAll prefixes))).
  { apply insertAll_wellKeyed. simpl. exact I. }
  split; [exact Hwell|].
  destruct (RadixTree.root (insertAll prefixes)) as [v entries e].
  simpl children. now apply entriesWith_one_match with (ok := wellKeyed).
Qed.

(** X4: [_commonPrefixLength] is the length of the longest common prefix:
    the two texts agree on that many characters, neither is shorter, and
    they agree on no greater number of characters. *)
Theorem commonPrefixLength_longest (str1 str2 : string) :
  let n := RadixTree._commonPrefixLength str1 str2 in
  sliceTo n str1 = sliceTo n str2 /\
  (n <= len str1)%nat /\ (n <= len str2)%nat /\
  forall m, (m <= len str1)%nat -> (m <= len str2)%nat ->
            sliceTo m str1 = sliceTo m str2 -> (m <= n)%nat.
Proof.
  revert str2. induction str1 as [|a s1 IH]; intros [|b s2]; simpl.
  - repeat split; auto; intros; lia.
  - repeat split; auto; intros; lia.
  - repeat split; auto; intros; lia.
  - destruct (Ascii.eqb a b) eqn:Hab.
    + apply Ascii.eqb_eq in Hab. subst b.
      destruct (IH s2) as [Heq [H1 [H2 Hmax]]]. simpl.
      repeat split; try (unfold len in *; simpl; lia).
      * now rewrite Heq.
      * intros [|m] Hm1 Hm2 Hm; [lia|]. simpl in Hm. injection Hm as Hm.
        apply le_n_S. apply Hmax; auto; unfold len in *; simpl in *; lia.
    + simpl. repeat split; auto; try lia.
      intros [|m] Hm1 Hm2 Hm; [lia|]. simpl in Hm. injection Hm as Hc _.
      subst b. rewrite Ascii.eqb_refl in Hab. discriminate.
Qed.

(** ** The address codec *)

Lemma split_not_nil (sep : ascii) (s : string) : split sep s <> [].
Proof.
  destruct s as [|c s]; simpl; [discriminate|].
  destruct (Ascii.eqb c sep); [discriminate|].
  destruct (split sep s); discriminate.
Qed.

Lemma split_at_separator (sep : ascii) (a b : string) :
  split sep (a ++ String sep b) = split sep a ++ split sep b.
Proof.
  induction a as [|c a IH]; simpl.
  - now rewrite Ascii.eqb_refl.
  - destruct (Ascii.eqb c sep); [now rewrite IH|].
    rewrite IH. pose proof (split_not_nil sep a).
    destruct (split sep a); [congruence | reflexivity].
Qed.

Lemma ipToNumber_fold (ip : string) :
  iputils.ipToNumber ip = Normal (fold_left ipStep (split "." ip) (Num 0)).
Proof. reflexivity. Qed.

Lemma ipStep_after_NaN (parts : list string) :
  parts <> [] -> fold_left ipStep parts NaN = fold_left ipStep parts (Num 0).
Proof. destruct parts as [|p parts]; [congruence | reflexivity]. Qed.

(** X5: [ipToNumber] yields NaN exactly when the part after the last dot
    does not start with a number ("1.2.3.x", "1.2.3."); an unreadable part
    anywhere else ("x.2.3.4") still gives a number. *)
Theorem ipToNumber_NaN_iff_last_part (ip : string) :
  iputils.ipToNumber ip = Normal NaN <->
  parseInt (last (split "." ip) EmptyString) None = NaN.
Proof.
  rewrite ipToNumber_fold.
  pose proof (split_not_nil "." ip) as Hparts.
  rewrite (app_removelast_last EmptyString Hparts) at 1.
  rewrite fold_left_app. cbn [fold_left]. unfold ipStep at 1.
  set (acc := fold_left ipStep _ _).
  set (lastPart := last (split "." ip) EmptyString).
  unfold add, shl. destruct (parseInt lastPart None); split;
    congruence.
Qed.

(** X6: an unreadable part before the last one erases what precedes it.
    When [x] holds no dot and does not start with a number,
    [ipToNumber(pre + "." + x + "." + rest)] is [ipToNumber(rest)]. *)
Theorem ipToNumber_forgets_before_unreadable (pre x rest : string) :
  includes x "." = false -> parseInt x None = NaN ->
  iputils.ipToNumber (pre ++ "." ++ x ++ "." ++ rest)
  = iputils.ipToNumber rest.
Proof.
  intros Hdot Hnan. rewrite !ipToNumber_fold. f_equal.
  change (pre ++ "." ++ x ++ "." ++ rest)%string
    with (pre ++ String "." (x ++ String "." rest))%string.
  rewrite split_at_separator, split_append by exact Hdot.
  rewrite fold_left_app. cbn [fold_left]. unfold ipStep at 2.
  rewrite Hnan.
  replace (add (shl (fold_left ipStep (split "." pre) (Num 0)) 8) NaN)
    with NaN by (unfold add, shl; reflexivity).
  apply ipStep_after_NaN, split_not_nil.
Qed.

Lemma ipToNumber_forgets_before_unreadable_witness :
  includes "x" "." = false /\ parseInt "x" None = NaN /\
  iputils.ipToNumber ("200.9" ++ "." ++ "x" ++ "." ++ "3.4")
  = iputils.ipToNumber "3.4".
Proof.
  split; [reflexivity|]. split; [reflexivity|].
  apply (ipToNumber_forgets_before_unreadable "200.9" "x" "3.4");
    reflexivity.
Defined.

(** X7: number to text to number.  For every 32-bit integer [s], negative
    ones included, [ipToNumber(numberToIp(s))] is [s]. *)
Theorem ipToNumber_after_numberToIp (s : Z) :
  - 2 ^ 31 <= s < 2 ^ 31 ->
  iputils.ipToNumber (iputils.numberToIp (Num s)) = Normal (Num s).
Proof. intros Hs. apply ipToNumber_numberToIp. exact Hs. Qed.

Lemma ipToNumber_after_numberToIp_witness :
  - 2 ^ 31 <= -1062731776 < 2 ^ 31 /\
  iputils.ipToNumber (iputils.numberToIp (Num (-1062731776)))
  = Normal (Num (-1062731776)).
Proof.
  split; [lia|]. apply (ipToNumber_after_numberToIp (-1062731776)). lia.
Defined.

Lemma octetAt_wrapInt32 (u k : Z) : octetAt (wrapInt32 u) k = octetAt u k.
Proof.
  unfold octetAt, wrapUint32. now rewrite wrapInt32_mod.
Qed.

Lemma octetAt_addressValue (a b c d : Z) :
  0 <= a <= 255 -> 0 <= b <= 255 -> 0 <= c <= 255 -> 0 <= d <= 255 ->
  octetAt (addressValue a b c d) 24 = a /\
  octetAt (addressValue a b c d) 16 = b /\
  octetAt (addressValue a b c d) 8 = c /\
  octetAt (addressValue a b c d) 0 = d.
Proof.
  intros Ha Hb Hc Hd. unfold octetAt, wrapUint32, addressValue.
  change (2 ^ 32) with 4294967296.
  change (2 ^ 24) with 16777216. change (2 ^ 16) with 65536.
  change (2 ^ 8) with 256. change (2 ^ 0) with 1.
  rewrite (Z.mod_small (a * 16777216 + b * 65536 + c * 256 + d)) by lia.
  repeat split; Z.div_mod_to_equations; lia.
Qed.

(** X8: text to number to text.  For four octets in 0..255,
    [numberToIp(ipToNumber("a.b.c.d"))] is "a.b.c.d" again, also when the
    number in between is negative. *)
Theorem numberToIp_after_ipToNumber (a b c d : Z) :
  0 <= a <= 255 -> 0 <= b <= 255 -> 0 <= c <= 255 -> 0 <= d <= 255 ->
  exists v, iputils.ipToNumber (dottedQuad a b c d) = Normal (Num v) /\
            iputils.numberToIp (Num v) = dottedQuad a b c d.
Proof.
  intros Ha Hb Hc Hd.
  exists (wrapInt32 (addressValue a b c d)). split.
  - now apply ipToNumber_dottedQuad.
  - rewrite numberToIp_dottedQuad, !octetAt_wrapInt32.
    destruct (octetAt_addressValue a b c d Ha Hb Hc Hd)
      as [-> [-> [-> ->]]].
    reflexivity.
Qed.

Lemma numberToIp_after_ipToNumber_witness :
  exists v, iputils.ipToNumber (dottedQuad 203 0 113 50) = Normal (Num v) /\
            iputils.numberToIp (Num v) = dottedQuad 203 0 113 50.
Proof. apply (numberToIp_after_ipToNumber 203 0 113 50); lia. Defined.

Lemma cidrOf_split (a b c d : Z) (n : nat) :
  0 <= a <= 255 -> 0 <= b <= 255 -> 0 <= c <= 255 -> 0 <= d <= 255 ->
  (n <= 32)%nat ->
  iputils.splitSlash (cidrOf a b c d n)
  = (dottedQuad a b c d, Some (toStringDec (Z.of_nat n))).
Proof.
  intros Ha Hb Hc Hd Hn. unfold cidrOf. apply splitSlash_cidr.
  - now apply dottedQuad_without_slash.
  - now apply mask_reads_back.
Qed.

(** The range of a well-formed text, in terms of the number [v] that
    [ipToNumber] reads from its address. *)
Lemma cidrToRange_cidrOf (a b c d : Z) (n : nat) :
  0 <= a <= 255 -> 0 <= b <= 255 -> 0 <= c <= 255 -> 0 <= d <= 255 ->
  (1 <= n <= 32)%nat ->
  let v := wrapInt32 (addressValue a b c d) in
  iputils.cidrToRange (cidrOf a b c d n)
  = Normal (Num (v - v mod blockSize n),
            Num (v - v mod blockSize n + blockSize n - 1)).
Proof.
  intros Ha Hb Hc Hd Hn v.
  pose proof (blockSize_bounds n Hn) as Hsize.
  pose proof (wrapInt32_range (addressValue a b c d)) as Hv. fold v in Hv.
  assert (Hip : iputils.ipToNumber (dottedQuad a b c d) = Normal (Num v))
    by now apply ipToNumber_dottedQuad.
  unfold iputils.cidrToRange. rewrite cidrOf_split by (auto; lia).
  rewrite Hip. cbn [bind].
  rewrite (proj1 (mask_reads_back n ltac:(lia))). cbn [bind].
  unfold sub at 1.
  destruct ((0 <=? 32 - Z.of_nat n) && (32 - Z.of_nat n <=? 52)) eqn:Hbits.
  2:{ apply andb_false_iff in Hbits.
      destruct Hbits as [H|H]; apply Z.leb_gt in H; lia. }
  fold (blockSize n).
  unfold band, bnot, sub, add, toInt32.
  rewrite (wrapInt32_small v) by exact Hv.
  rewrite (wrapInt32_small (blockSize n - 1)) by lia.
  replace (Z.lnot (blockSize n - 1)) with (- blockSize n)
    by (unfold Z.lnot; lia).
  rewrite (wrapInt32_small (- blockSize n)) by lia.
  assert (Hland : Z.land v (- blockSize n) = v - v mod blockSize n)
    by (unfold blockSize; apply land_neg_pow2; lia).
  rewrite Hland. reflexivity.
Qed.

(** X9: [cidrToRange] on a well-formed text.  For four octets in 0..255 and
    a prefix length [n] from 1 to 32, [cidrToRange("a.b.c.d/n")] is a pair
    [start, end] of [2^(32-n)] numbers, with [start] a multiple of that
    size, that holds the number [ipToNumber("a.b.c.d")]: host bits set in
    the text are cleared, not rejected. *)
Theorem cidrToRange_holds_its_address (a b c d : Z) (n : nat) :
  0 <= a <= 255 -> 0 <= b <= 255 -> 0 <= c <= 255 -> 0 <= d <= 255 ->
  (1 <= n <= 32)%nat ->
  exists v start end_,
    iputils.ipToNumber (dottedQuad a b c d) = Normal (Num v) /\
    iputils.cidrToRange (cidrOf a b c d n) = Normal (Num start, Num end_) /\
    start mod 2 ^ (32 - Z.of_nat n) = 0 /\
    end_ - start + 1 = 2 ^ (32 - Z.of_nat n) /\
    start <= v <= end_.
Proof.
  intros Ha Hb Hc Hd Hn.
  pose proof (blockSize_bounds n Hn) as Hsize.
  set (v := wrapInt32 (addressValue a b c d)).
  pose proof (Z.mod_pos_bound v (blockSize n) ltac:(lia)) as Hmod.
  exists v, (v - v mod blockSize n), (v - v mod blockSize n + blockSize n - 1).
  split; [now apply ipToNumber_dottedQuad|].
  split; [now apply cidrToRange_cidrOf|].
  fold (blockSize n). repeat split; try lia.
  rewrite Zminus_mod, Z.mod_mod, Z.sub_diag by lia. apply Z.mod_0_l. lia.
Qed.

Lemma cidrToRange_holds_its_address_witness :
  exists v start end_,
    iputils.ipToNumber (dottedQuad 192 168 77 9) = Normal (Num v) /\
    iputils.cidrToRange (cidrOf 192 168 77 9 20) = Normal (Num start, Num end_) /\
    start mod 2 ^ (32 - Z.of_nat 20) = 0 /\
    end_ - start + 1 = 2 ^ (32 - Z.of_nat 20) /\
    start <= v <= end_.
Proof. apply (cidrToRange_holds_its_address 192 168 77 9 20); lia. Defined.

(** *** Binary texts *)

Lemma len_append (a b : string) : len (a ++ b) = (len a + len b)%nat.
Proof.
  unfold len. induction a as [|c a IH]; simpl; auto.
Qed.

Lemma allBinary_append (a b : string) :
  allBinary (a ++ b) = allBinary a && allBinary b.
Proof.
  induction a as [|c a IH]; simpl; auto. now rewrite IH, andb_assoc.
Qed.

Lemma binaryValueFrom_append (acc : Z) (a b : string) :
  binaryValueFrom acc (a ++ b) = binaryValueFrom (binaryValueFrom acc a) b.
Proof. revert acc; induction a as [|c a IH]; intros acc; simpl; auto. Qed.

Lemma binaryValueFrom_shift (s : string) :
  forall acc,
    binaryValueFrom acc s = acc * 2 ^ Z.of_nat (len s) + binaryValue s.
Proof.
  unfold binaryValue.
  induction s as [|c s IH]; intros acc.
  - simpl. lia.
  - cbn [binaryValueFrom]. rewrite IH, (IH (2 * 0 + _)).
    replace (Z.of_nat (len (String c s))) with (Z.succ (Z.of_nat (len s)))
      by (unfold len; simpl String.length; lia).
    rewrite Z.pow_succ_r by lia. lia.
Qed.

Lemma binaryValue_bound (s : string) :
  0 <= binaryValue s < 2 ^ Z.of_nat (len s).
Proof.
  induction s as [|c s IH].
  - unfold binaryValue. simpl. lia.
  - unfold binaryValue. cbn [binaryValueFrom]. rewrite binaryValueFrom_shift.
    replace (Z.of_nat (len (String c s))) with (Z.succ (Z.of_nat (len s)))
      by (unfold len; simpl String.length; lia).
    rewrite Z.pow_succ_r by lia.
    destruct (Ascii.eqb c "1"); lia.
Qed.

Lemma octetBits_checked :
  forallb (fun o => (len (octetBits o) =? 8)%nat && allBinary (octetBits o)
                    && (binaryValue (octetBits o) =? o))
    (map Z.of_nat (seq 0 256)) = true.
Proof. vm_compute. reflexivity. Qed.

Lemma octetBits_spec (o : Z) :
  0 <= o <= 255 ->
  len (octetBits o) = 8%nat /\ allBinary (octetBits o) = true /\
  binaryValue (octetBits o) = o.
Proof.
  intros Ho.
  assert (Hin : In o (map Z.of_nat (seq 0 256))).
  { rewrite <- (Z2Nat.id o) by lia. apply in_map, in_seq. lia. }
  pose proof (proj1 (forallb_forall _ _) octetBits_checked o Hin) as H.
  cbv beta in H. apply andb_true_iff in H. destruct H as [H H3].
  apply andb_true_iff in H. destruct H as [H1 H2].
  apply Nat.eqb_eq in H1. apply Z.eqb_eq in H3. auto.
Qed.

Lemma octet_reads_back_radix10 (o : Z) :
  0 <= o <= 255 -> parseInt (toStringDec o) (Some 10) = parseInt (toStringDec o) None.
Proof.
  intros Ho.
  assert (Hall : forallb (fun o => match parseInt (toStringDec o) (Some 10),
                                         parseInt (toStringDec o) None with
                                   | Num x, Num y => x =? y
                                   | _, _ => false
                                   end)
                   (map Z.of_nat (seq 0 256)) = true)
    by (vm_compute; reflexivity).
  assert (Hin : In o (map Z.of_nat (seq 0 256))).
  { rewrite <- (Z2Nat.id o) by lia. apply in_map, in_seq. lia. }
  pose proof (proj1 (forallb_forall _ _) Hall o Hin) as H. cbv beta in H.
  destruct (parseInt (toStringDec o) (Some 10)),
    (parseInt (toStringDec o) None); try discriminate.
  apply Z.eqb_eq in H. now subst.
Qed.

Lemma ipToBinary_dottedQuad (a b c d : Z) :
  0 <= a <= 255 -> 0 <= b <= 255 -> 0 <= c <= 255 -> 0 <= d <= 255 ->
  iputils.ipToBinary (dottedQuad a b c d)
  = (octetBits a ++ octetBits b ++ octetBits c ++ octetBits d)%string.
Proof.
  intros Ha Hb Hc Hd. unfold iputils.ipToBinary.
  rewrite split_dottedQuad by assumption. reflexivity.
Qed.

Lemma ipToBinary_spec (a b c d : Z) :
  0 <= a <= 255 -> 0 <= b <= 255 -> 0 <= c <= 255 -> 0 <= d <= 255 ->
  len (iputils.ipToBinary (dottedQuad a b c d)) = 32%nat /\
  allBinary (iputils.ipToBinary (dottedQuad a b c d)) = true /\
  binaryValue (iputils.ipToBinary (dottedQuad a b c d))
  = a * 2 ^ 24 + b * 2 ^ 16 + c * 2 ^ 8 + d.
Proof.
  intros Ha Hb Hc Hd. rewrite ipToBinary_dottedQuad by assumption.
  destruct (octetBits_spec a Ha) as [La [Ba Va]].
  destruct (octetBits_spec b Hb) as [Lb [Bb Vb]].
  destruct (octetBits_spec c Hc) as [Lc [Bc Vc]].
  destruct (octetBits_spec d Hd) as [Ld [Bd Vd]].
  split; [|split].
  - rewrite !len_append, La, Lb, Lc, Ld. reflexivity.
  - rewrite !allBinary_append, Ba, Bb, Bc, Bd. reflexivity.
  - unfold binaryValue. rewrite !binaryValueFrom_append.
    rewrite (binaryValueFrom_shift (octetBits d)),
      (binaryValueFrom_shift (octetBits c)),
      (binaryValueFrom_shift (octetBits b)).
    fold (binaryValue (octetBits a)).
    rewrite Va, Vb, Vc, Vd, Lb, Lc, Ld.
    change (Z.of_nat 8) with 8. lia.
Qed.

(** X10: [ipToBinary] on a well-formed text.  For four octets in 0..255,
    [ipToBinary("a.b.c.d")] is a text of exactly 32 characters, all 0 or 1,
    that writes the unsigned value of the address in binary, most
    significant bit first. *)
Theorem ipToBinary_writes_the_address (a b c d : Z) :
  0 <= a <= 255 -> 0 <= b <= 255 -> 0 <= c <= 255 -> 0 <= d <= 255 ->
  len (iputils.ipToBinary (dottedQuad a b c d)) = 32%nat /\
  allBinary (iputils.ipToBinary (dottedQuad a b c d)) = true /\
  binaryValue (iputils.ipToBinary (dottedQuad a b c d))
  = a * 2 ^ 24 + b * 2 ^ 16 + c * 2 ^ 8 + d.
Proof. intros Ha Hb Hc Hd. now apply ipToBinary_spec. Qed.

Lemma ipToBinary_writes_the_address_witness :
  len (iputils.ipToBinary (dottedQuad 10 0 1 5)) = 32%nat /\
  allBinary (iputils.ipToBinary (dottedQuad 10 0 1 5)) = true /\
  binaryValue (iputils.ipToBinary (dottedQuad 10 0 1 5))
  = 10 * 2 ^ 24 + 0 * 2 ^ 16 + 1 * 2 ^ 8 + 5.
Proof. apply (ipToBinary_writes_the_address 10 0 1 5); lia. Defined.

Lemma sliceTo_length (n : nat) (s : string) :
  len (sliceTo n s) = Nat.min n (len s).
Proof.
  unfold len. revert s; induction n as [|n IH]; intros [|c s]; simpl; auto.
Qed.

Lemma sliceTo_sliceFrom (n : nat) (s : string) :
  (sliceTo n s ++ sliceFrom n s)%string = s.
Proof.
  revert s; induction n as [|n IH]; intros [|c s]; simpl; auto.
  now rewrite IH.
Qed.

(** The first [n] digits write the value without its last digits. *)
Lemma binaryValue_sliceTo (n : nat) (s : string) :
  (n <= len s)%nat ->
  binaryValue (sliceTo n s) = binaryValue s / 2 ^ Z.of_nat (len s - n).
Proof.
  intros Hn.
  pose proof (binaryValue_bound (sliceFrom n s)) as Hrest.
  rewrite sliceFrom_length in Hrest.
  assert (Hvalue : binaryValue s
                   = binaryValue (sliceTo n s) * 2 ^ Z.of_nat (len s - n)
                     + binaryValue (sliceFrom n s)).
  { rewrite <- (sliceTo_sliceFrom n s) at 1. unfold binaryValue at 1.
    rewrite binaryValueFrom_append, binaryValueFrom_shift.
    now rewrite sliceFrom_length. }
  rewrite Hvalue.
  rewrite Z.div_add_l by lia. rewrite Z.div_small by lia. lia.
Qed.

Lemma binaryPrefix_spec (a b c d : Z) (n : nat) :
  0 <= a <= 255 -> 0 <= b <= 255 -> 0 <= c <= 255 -> 0 <= d <= 255 ->
  (n <= 32)%nat ->
  CIDRProcessor.binaryPrefix (cidrOf a b c d n)
  = sliceTo n (iputils.ipToBinary (dottedQuad a b c d)) /\
  len (CIDRProcessor.binaryPrefix (cidrOf a b c d n)) = n /\
  binaryValue (CIDRProcessor.binaryPrefix (cidrOf a b c d n))
  = addressValue a b c d / 2 ^ (32 - Z.of_nat n) /\
  CIDRProcessor.binaryPrefix (dottedQuad a b c d)
  = iputils.ipToBinary (dottedQuad a b c d).
Proof.
  intros Ha Hb Hc Hd Hn.
  destruct (ipToBinary_spec a b c d Ha Hb Hc Hd) as [Hlen [_ Hvalue]].
  assert (Hprefix : CIDRProcessor.binaryPrefix (cidrOf a b c d n)
                    = sliceTo n (iputils.ipToBinary (dottedQuad a b c d))).
  { unfold CIDRProcessor.binaryPrefix.
    assert (Hslash : includes (cidrOf a b c d n) "/" = true).
    { unfold cidrOf. rewrite includes_append. simpl.
      now rewrite orb_true_r. }
    rewrite Hslash. unfold iputils.cidrToBinaryPrefix.
    rewrite cidrOf_split by assumption. cbn [parseIntOpt].
    rewrite (proj2 (octet_reads_back (Z.of_nat n) ltac:(lia))).
    unfold slice0.
    destruct (Z.of_nat n <? 0) eqn:Hneg; [apply Z.ltb_lt in Hneg; lia|].
    now rewrite Nat2Z.id. }
  rewrite Hprefix. repeat split.
  - rewrite sliceTo_length, Hlen. lia.
  - rewrite binaryValue_sliceTo by (rewrite Hlen; exact Hn).
    rewrite Hvalue, Hlen. unfold addressValue. do 2 f_equal. lia.
  - unfold CIDRProcessor.binaryPrefix.
    now rewrite dottedQuad_without_slash.
Qed.

(** X11: the trie key of a well-formed entry.  For four octets in 0..255
    and a prefix length [n] up to 32, [cidrToBinaryPrefix("a.b.c.d/n")] is
    the first [n] digits of [ipToBinary("a.b.c.d")]: [n] characters that
    write the top [n] bits of the address; a bare address gets all 32
    digits. *)
Theorem cidrToBinaryPrefix_is_top_bits (a b c d : Z) (n : nat) :
  0 <= a <= 255 -> 0 <= b <= 255 -> 0 <= c <= 255 -> 0 <= d <= 255 ->
  (n <= 32)%nat ->
  CIDRProcessor.binaryPrefix (cidrOf a b c d n)
  = sliceTo n (iputils.ipToBinary (dottedQuad a b c d)) /\
  len (CIDRProcessor.binaryPrefix (cidrOf a b c d n)) = n /\
  binaryValue (CIDRProcessor.binaryPrefix (cidrOf a b c d n))
  = addressValue a b c d / 2 ^ (32 - Z.of_nat n) /\
  CIDRProcessor.binaryPrefix (dottedQuad a b c d)
  = iputils.ipToBinary (dottedQuad a b c d).
Proof. intros Ha Hb Hc Hd Hn. now apply binaryPrefix_spec. Qed.

Lemma cidrToBinaryPrefix_is_top_bits_witness :
  CIDRProcessor.binaryPrefix (cidrOf 192 168 0 0 16)
  = sliceTo 16 (iputils.ipToBinary (dottedQuad 192 168 0 0)) /\
  len (CIDRProcessor.binaryPrefix (cidrOf 192 168 0 0 16)) = 16%nat /\
  binaryValue (CIDRProcessor.binaryPrefix (cidrOf 192 168 0 0 16))
  = addressValue 192 168 0 0 / 2 ^ (32 - Z.of_nat 16) /\
  CIDRProcessor.binaryPrefix (dottedQuad 192 168 0 0)
  = iputils.ipToBinary (dottedQuad 192 168 0 0).
Proof.
  apply (cidrToBinaryPrefix_is_top_bits 192 168 0 0 16); lia.
Defined.

(** ** Feed values *)

Lemma u32ToIP_numberToIp (n : Z) :
  CIDRProcessor.u32ToIP (Num n) = iputils.numberToIp (Num n).
Proof.
  rewrite numberToIp_dottedQuad.
  unfold CIDRProcessor.u32ToIP, dottedQuad. cbn [map join].
  unfold band, shr, sar, toInt32, toUint32.
  change (wrapInt32 255) with 255. rewrite !land_255, !wrapInt32_mod256.
  assert (Hsmall : forall y, wrapInt32 (y mod 256) = y mod 256).
  { intros y. apply wrapInt32_small.
    pose proof (Z.mod_pos_bound y 256). lia. }
  rewrite !Hsmall. unfold octetAt.
  pose proof (Z.mod_pos_bound n (2 ^ 32) ltac:(lia)) as Hu.
  assert (H24 : wrapInt32 (wrapUint32 n / 2 ^ 24)
                = (wrapUint32 n / 2 ^ 24) mod 256).
  { unfold wrapUint32.
    assert (0 <= n mod 2 ^ 32 / 2 ^ 24 < 256).
    { split; [apply Z.div_pos; lia|].
      apply Z.div_lt_upper_bound; lia. }
    rewrite (Z.mod_small (n mod 2 ^ 32 / 2 ^ 24) 256) by lia.
    apply wrapInt32_small. lia. }
  assert (H16 : (wrapInt32 n / 2 ^ 16) mod 256
                = (wrapUint32 n / 2 ^ 16) mod 256).
  { unfold wrapInt32, wrapUint32.
    change (2 ^ 32) with 4294967296. change (2 ^ 31) with 2147483648.
    change (2 ^ 16) with 65536. Z.div_mod_to_equations. lia. }
  assert (H8 : (wrapInt32 n / 2 ^ 8) mod 256
               = (wrapUint32 n / 2 ^ 8) mod 256).
  { unfold wrapInt32, wrapUint32.
    change (2 ^ 32) with 4294967296. change (2 ^ 31) with 2147483648.
    change (2 ^ 8) with 256. Z.div_mod_to_equations. lia. }
  assert (H0 : n mod 256 = (wrapUint32 n / 2 ^ 0) mod 256).
  { unfold wrapUint32. change (2 ^ 0) with 1. rewrite Z.div_1_r.
    change (2 ^ 32) with 4294967296. Z.div_mod_to_equations. lia. }
  rewrite H24, H16, H8, H0. reflexivity.
Qed.

(** X12: the two writers of addresses agree.  [u32ToIP] of
    [scripts/download.js] and [numberToIp] of [utils/iputils.js] write the
    same text for every integer, and [ipToNumber] reads a feed value below
    2^31 back as itself and one from 2^31 up to 2^32 - 1 back as that value
    minus 2^32. *)
Theorem u32ToIP_agrees_and_reads_back_signed (n : Z) :
  CIDRProcessor.u32ToIP (Num n) = iputils.numberToIp (Num n) /\
  (0 <= n < 2 ^ 31 ->
   iputils.ipToNumber (CIDRProcessor.u32ToIP (Num n)) = Normal (Num n)) /\
  (2 ^ 31 <= n < 2 ^ 32 ->
   iputils.ipToNumber (CIDRProcessor.u32ToIP (Num n))
   = Normal (Num (n - 2 ^ 32))).
Proof.
  split; [apply u32ToIP_numberToIp|].
  assert (Hread : iputils.ipToNumber (CIDRProcessor.u32ToIP (Num n))
                  = Normal (Num (wrapInt32 n))).
  { rewrite u32ToIP_numberToIp, numberToIp_dottedQuad.
    rewrite <- !(octetAt_wrapInt32 n), <- numberToIp_dottedQuad.
    apply ipToNumber_numberToIp, wrapInt32_range. }
  rewrite Hread. split; intros Hn; do 2 f_equal.
  - apply wrapInt32_small. lia.
  - unfold wrapInt32.
    replace (n + 2 ^ 31) with (n - 2 ^ 31 + 1 * 2 ^ 32) by lia.
    rewrite Z.mod_add, Z.mod_small by lia. lia.
Qed.

(** ** The range decomposer *)

(** X13: the guard of [rangeToCIDRs] as the code has it.  The call throws
    exactly when both texts read as numbers and the number of the start is
    above the number of the end, and then with the one message; when a text
    reads as NaN it throws nothing and returns the empty list. *)
Theorem rangeToCIDRs_guard (startIP endIP : string) :
  ((exists message, iputils.rangeToCIDRs startIP endIP = Throw message) <->
   (exists s e, iputils.ipToNumber startIP = Normal (Num s) /\
                iputils.ipToNumber endIP = Normal (Num e) /\ e < s)) /\
  (forall message,
     iputils.rangeToCIDRs startIP endIP = Throw message ->
     message = "Start IP must be less than or equal to End IP") /\
  (iputils.ipToNumber startIP = Normal NaN \/
   iputils.ipToNumber endIP = Normal NaN ->
   iputils.rangeToCIDRs startIP endIP = Normal []).
Proof.
  split; [apply rangeToCIDRs_throws_iff|].
  unfold iputils.rangeToCIDRs, iputils.ipToNumber. cbn [bind].
  set (start := fold_left _ (split "." startIP) _).
  set (end_ := fold_left _ (split "." endIP) _).
  split.
  - intros message. destruct (gt start end_).
    + now intros [= <-].
    + intros H. now apply decompose_no_throw in H.
  - intros [[= Hnan]|[= Hnan]]; rewrite Hnan.
    + reflexivity.
    + destruct start; reflexivity.
Qed.

(** X14: what [rangeToCIDRs] returns between two numbers of one sign.  When
    the start and end texts read as 32-bit integers [s <= e], the call
    returns the texts of blocks that tile the numbers from [s] to [e]: each
    block starts where the one before ended, the first at [s], the last
    ends at [e]; each start is a multiple of the block's size; and each
    block is the largest one, of prefix length 1 at least, that is aligned
    at its start and does not pass [e]. *)
Theorem rangeToCIDRs_tiles_the_range (startIP endIP : string) (s e : Z) :
  iputils.ipToNumber startIP = Normal (Num s) ->
  iputils.ipToNumber endIP = Normal (Num e) ->
  - 2 ^ 31 <= s -> s <= e -> e < 2 ^ 31 ->
  exists blocks,
    iputils.rangeToCIDRs startIP endIP = Normal (map cidrText blocks)
    /\ tiling e s blocks.
Proof.
  intros Hstart Hend Hlow Hse Hhigh.
  apply rangeToCIDRs_tiling; auto; unfold int32; lia.
Qed.

Lemma rangeToCIDRs_tiles_the_range_witness :
  exists blocks,
    iputils.rangeToCIDRs "10.0.0.1" "10.0.0.6" = Normal (map cidrText blocks)
    /\ tiling 167772166 167772161 blocks.
Proof.
  apply (rangeToCIDRs_tiles_the_range "10.0.0.1" "10.0.0.6"
           167772161 167772166); try reflexivity; lia.
Defined.

Lemma tiling_neighbours (e : Z) (blocks : list (Z * nat)) :
  forall s, tiling e s blocks ->
    forall i s1 s2 maxSize,
      nth_error blocks i = Some (s1, maxSize) ->
      nth_error blocks (S i) = Some (s2, maxSize) ->
      (2 <= maxSize)%nat ->
      s1 mod blockSize (maxSize - 1) <> 0.
Proof.
  induction blocks as [|[s0 m0] rest IH]; intros s Htiles i s1 s2 maxSize Hi Hj HM.
  - destruct i; discriminate.
  - destruct i as [|i]; simpl in Hi, Hj.
    + injection Hi as -> ->.
      destruct rest as [|[s3 m3] rest']; [discriminate|].
      simpl in Hj. injection Hj as -> ->.
      inversion Htiles; subst.
      eapply tiling_not_mergeable; eauto.
    + inversion Htiles; subst. eapply IH; eauto.
Qed.

(** X15: the list [rangeToCIDRs] returns is short and has no mergeable
    neighbours.  Between two numbers of one sign it returns at most 64
    blocks, and two neighbouring blocks of one prefix length (2 or more)
    never form a block of the next shorter prefix length: the first of the
    two is not aligned on the double size. *)
Theorem rangeToCIDRs_short_and_unmergeable (startIP endIP : string) (s e : Z) :
  iputils.ipToNumber startIP = Normal (Num s) ->
  iputils.ipToNumber endIP = Normal (Num e) ->
  - 2 ^ 31 <= s -> s <= e -> e < 2 ^ 31 ->
  exists blocks,
    iputils.rangeToCIDRs startIP endIP = Normal (map cidrText blocks) /\
    (List.length (map cidrText blocks) <= 64)%nat /\
    forall i s1 s2 maxSize,
      nth_error blocks i = Some (s1, maxSize) ->
      nth_error blocks (S i) = Some (s2, maxSize) ->
      (2 <= maxSize)%nat ->
      s1 mod blockSize (maxSize - 1) <> 0.
Proof.
  intros Hstart Hend Hlow Hse Hhigh.
  destruct (rangeToCIDRs_tiling startIP endIP s e Hstart Hend)
    as [blocks [Hrun Htiles]]; try (unfold int32; lia).
  exists blocks. split; [exact Hrun|]. split.
  - rewrite length_map. apply (tiling_at_most_64 s e); auto; unfold int32; lia.
  - now apply (tiling_neighbours e blocks s).
Qed.

Lemma rangeToCIDRs_short_and_unmergeable_witness :
  exists blocks,
    iputils.rangeToCIDRs "10.0.0.1" "10.0.0.6" = Normal (map cidrText blocks) /\
    (List.length (map cidrText blocks) <= 64)%nat /\
    forall i s1 s2 maxSize,
      nth_error blocks i = Some (s1, maxSize) ->
      nth_error blocks (S i) = Some (s2, maxSize) ->
      (2 <= maxSize)%nat ->
      s1 mod blockSize (maxSize - 1) <> 0.
Proof.
  apply (rangeToCIDRs_short_and_unmergeable "10.0.0.1" "10.0.0.6"
           167772161 167772166); try reflexivity; lia.
Defined.

(** X16: the feed path, end to end.  For two feed values [s <= e] on one
    side of 2^31, as [processUrl] hands them over through [u32ToIP],
    [rangeToCIDRs] returns texts that [cidrToRange] reads back as
    consecutive ranges covering exactly the numbers that [ipToNumber] gives
    to the two ends; for [s] below 2^31 and [e] from 2^31 on it throws. *)
Theorem feed_range_round_trip (s e : Z) :
  0 <= s -> s <= e -> e < 2 ^ 32 ->
  ((s < 2 ^ 31 <= e) ->
   iputils.rangeToCIDRs (CIDRProcessor.u32ToIP (Num s))
                        (CIDRProcessor.u32ToIP (Num e))
   = Throw "Start IP must be less than or equal to End IP") /\
  (~ (s < 2 ^ 31 <= e) ->
   exists cidrs ranges,
     iputils.rangeToCIDRs (CIDRProcessor.u32ToIP (Num s))
                          (CIDRProcessor.u32ToIP (Num e)) = Normal cidrs /\
     mapM iputils.cidrToRange cidrs = Normal ranges /\
     consecutive (wrapInt32 e) (wrapInt32 s) ranges).
Proof.
  intros Hs Hse He.
  assert (Hread : forall n, iputils.ipToNumber (CIDRProcessor.u32ToIP (Num n))
                            = Normal (Num (wrapInt32 n))).
  { intros n. rewrite u32ToIP_numberToIp, numberToIp_dottedQuad.
    rewrite <- !(octetAt_wrapInt32 n), <- numberToIp_dottedQuad.
    apply ipToNumber_numberToIp, wrapInt32_range. }
  assert (Hhigh : forall n, 2 ^ 31 <= n < 2 ^ 32 -> wrapInt32 n = n - 2 ^ 32).
  { intros n Hn. unfold wrapInt32.
    replace (n + 2 ^ 31) with (n - 2 ^ 31 + 1 * 2 ^ 32) by lia.
    rewrite Z.mod_add, Z.mod_small by lia. lia. }
  split.
  - intros Hcross. unfold iputils.rangeToCIDRs. rewrite !Hread. cbn [bind].
    rewrite (wrapInt32_small s), (Hhigh e) by lia.
    unfold gt. destruct (e - 2 ^ 32 <? s) eqn:Hlt; [reflexivity|].
    apply Z.ltb_ge in Hlt. lia.
  - intros Hside.
    destruct (rangeToCIDRs_read_back _ _ (wrapInt32 s) (wrapInt32 e)
                (Hread s) (Hread e))
      as [cidrs [ranges [Hrun [_ [Hback Hcons]]]]];
      try apply wrapInt32_range.
    + destruct (Z_lt_le_dec e (2 ^ 31)).
      * rewrite !wrapInt32_small by lia. lia.
      * rewrite !Hhigh by lia. lia.
    + exists cidrs, ranges. auto.
Qed.

Lemma feed_range_round_trip_witness :
  ((3232235520 < 2 ^ 31 <= 3232236031) ->
   iputils.rangeToCIDRs (CIDRProcessor.u32ToIP (Num 3232235520))
                        (CIDRProcessor.u32ToIP (Num 3232236031))
   = Throw "Start IP must be less than or equal to End IP") /\
  (~ (3232235520 < 2 ^ 31 <= 3232236031) ->
   exists cidrs ranges,
     iputils.rangeToCIDRs (CIDRProcessor.u32ToIP (Num 3232235520))
                          (CIDRProcessor.u32ToIP (Num 3232236031))
     = Normal cidrs /\
     mapM iputils.cidrToRange cidrs = Normal ranges /\
     consecutive (wrapInt32 3232236031) (wrapInt32 3232235520) ranges).
Proof. apply (feed_range_round_trip 3232235520 3232236031); lia. Defined.

(** ** The deduplicator *)

Lemma search_fresh (s : string) : RadixTree.search RadixTree.new s = false.
Proof.
  unfold RadixTree.search, RadixTree.new. simpl.
  now destruct (0 <? len s)%nat.
Qed.

(** X17: the shape of what [filterContainedCIDRsRadix] returns.  For the
    keys of a map whose masks read as integers, the returned entries are
    keys that were given, without duplicates, in the order of the sort
    (explicit blocks by ascending mask, bare addresses last); and the first
    entry in that order is always kept, so only an empty map gives an empty
    result. *)
Theorem filterContainedCIDRsRadix_shape (keys : list string) :
  NoDup keys -> Forall maskTracked keys ->
  let result := CIDRProcessor.filterContainedCIDRsRadix keys in
  (forall x, In x result -> In x keys) /\
  NoDup result /\
  StronglySorted (notAfter CIDRProcessor.compareCidrs) result /\
  hd_error result = hd_error (sort CIDRProcessor.compareCidrs keys).
Proof.
  intros Hnd Hmask. cbv zeta.
  rewrite (filterContainedCIDRsRadix_kept keys Hnd).
  assert (Hnd' : NoDup (sort CIDRProcessor.compareCidrs keys))
    by (eapply Permutation_NoDup; [apply sort_Permutation | exact Hnd]).
  repeat split.
  - intros x Hx. apply kept_In in Hx. now apply sort_In in Hx.
  - now apply kept_NoDup.
  - apply StronglySorted_kept.
    apply sort_sorted with (domain := maskTracked); auto.
    + exact compareCidrs_trans.
    + exact compareCidrs_after.
  - destruct (sort CIDRProcessor.compareCidrs keys) as [|x rest]; auto.
    simpl. now rewrite search_fresh.
Qed.

Lemma filterContainedCIDRsRadix_shape_witness :
  let keys := ["10.0.1.5"; "10.0.1.0/24"; "10.0.0.0/8"] in
  let result := CIDRProcessor.filterContainedCIDRsRadix keys in
  (forall x, In x result -> In x keys) /\
  NoDup result /\
  StronglySorted (notAfter CIDRProcessor.compareCidrs) result /\
  hd_error result = hd_error (sort CIDRProcessor.compareCidrs keys).
Proof.
  apply (filterContainedCIDRsRadix_shape
           ["10.0.1.5"; "10.0.1.0/24"; "10.0.0.0/8"]).
  - repeat constructor; simpl; intuition discriminate.
  - repeat constructor; intros Hslash; try discriminate Hslash;
      eexists; (split; [vm_compute; reflexivity | vm_compute; reflexivity]).
Defined.

(** X18: nothing is discarded without cause.  Every key that
    [filterContainedCIDRsRadix] leaves out has a returned key whose binary
    prefix starts its own binary prefix. *)
Theorem filterContainedCIDRsRadix_discards_only_covered
  (keys : list string) (x : string) :
  NoDup keys -> In x keys ->
  ~ In x (CIDRProcessor.filterContainedCIDRsRadix keys) ->
  exists k rest,
    In k (CIDRProcessor.filterContainedCIDRsRadix keys) /\
    CIDRProcessor.binaryPrefix x
    = (CIDRProcessor.binaryPrefix k ++ rest)%string.
Proof.
  intros Hnd Hin Hout.
  destruct (filterContainedCIDRsRadix_covers keys x Hnd Hin Hout)
    as [k [Hk Hstarts]].
  apply startsWith_append in Hstarts. destruct Hstarts as [rest Hrest].
  exists k, rest. auto.
Qed.

Lemma filterContainedCIDRsRadix_discards_only_covered_witness :
  exists k rest,
    In k (CIDRProcessor.filterContainedCIDRsRadix
            ["192.168.1.0/24"; "192.168.0.0/16"]) /\
    CIDRProcessor.binaryPrefix "192.168.1.0/24"
    = (CIDRProcessor.binaryPrefix k ++ rest)%string.
Proof.
  apply (filterContainedCIDRsRadix_discards_only_covered
           ["192.168.1.0/24"; "192.168.0.0/16"] "192.168.1.0/24").
  - repeat constructor; simpl; intuition discriminate.
  - simpl. auto.
  - vm_compute. intros [H|[]]. discriminate H.
Defined.

(** ** The range index *)

(** X19: [isBlocked] always answers.  On any array of ranges, sorted or
    not, and for any number, NaN included, the binary search ends within
    the length of the array, never reads outside it, and returns a
    boolean. *)
Theorem isBlocked_always_answers (ipNum : JsNumber)
  (ranges : list (JsNumber * JsNumber)) :
  exists answer, example.isBlocked ipNum ranges = Normal answer.
Proof.
  unfold example.isBlocked. apply isBlockedLoop_returns; lia.
Qed.

(** X20: the binary search is exact on a sorted index.  When the ranges of
    a checker are numbers in ascending order, none empty and each ending
    before the next starts, [isBlocked(n)] for a number [n] is true exactly
    when some range holds [n] between its bounds. *)
Theorem isBlocked_exact_on_sorted_ranges (checker : IpChecker.t)
  (rs : list (Z * Z)) (n : Z) :
  IpChecker.ranges checker = numRanges rs -> ascendingDisjoint rs ->
  IpChecker.isBlocked checker (IpChecker.Numeric (Num n))
  = Normal (existsb (holds n) rs).
Proof.
  intros Hranges Hrs. unfold IpChecker.isBlocked. cbn [bind].
  rewrite Hranges. now apply isBlocked_ascendingDisjoint.
Qed.

Lemma isBlocked_exact_on_sorted_ranges_witness :
  let checker := IpChecker.mk (numRanges [(10, 19); (30, 30); (40, 49)])
                   (Num 21) in
  IpChecker.ranges checker = numRanges [(10, 19); (30, 30); (40, 49)] /\
  ascendingDisjoint [(10, 19); (30, 30); (40, 49)] /\
  IpChecker.isBlocked checker (IpChecker.Numeric (Num 30))
  = Normal (existsb (holds 30) [(10, 19); (30, 30); (40, 49)]).
Proof.
  assert (H : ascendingDisjoint [(10, 19); (30, 30); (40, 49)]).
  { split; repeat constructor; simpl; lia. }
  split; [reflexivity|]. split; [exact H|].
  apply (isBlocked_exact_on_sorted_ranges _ [(10, 19); (30, 30); (40, 49)] 30);
    [reflexivity | exact H].
Defined.

(** X21: an unreadable address is reported as blocked.  When the checker
    holds at least one range and the text reads as NaN, [isBlocked] returns
    true: both comparisons of the first probe are false, so the search
    takes the probe for a hit. *)
Theorem isBlocked_unreadable_text (checker : IpChecker.t) (ip : string) :
  IpChecker.getRangeCount checker <> O ->
  iputils.ipToNumber ip = Normal NaN ->
  IpChecker.isBlocked checker (IpChecker.Text ip) = Normal true.
Proof.
  unfold IpChecker.getRangeCount, IpChecker.isBlocked. intros Hcount ->.
  cbn [bind]. unfold example.isBlocked.
  destruct (IpChecker.ranges checker) as [|r rs] eqn:Hrs; [contradiction|].
  set (ranges := r :: rs).
  assert (Hlen : (0 < List.length ranges)%nat) by (simpl; lia).
  destruct (List.length ranges) as [|fuel] eqn:Hfuel; [lia|].
  cbn [example.isBlockedLoop].
  destruct (0 <=? Z.of_nat (S fuel) - 1) eqn:Hle;
    [|apply Z.leb_gt in Hle; lia].
  set (mid := (0 + (Z.of_nat (S fuel) - 1)) / 2).
  assert (Hmid : 0 <= mid <= Z.of_nat (S fuel) - 1).
  { unfold mid. split.
    - apply Z.div_le_lower_bound; lia.
    - apply Z.div_le_upper_bound; lia. }
  destruct (mid <? 0) eqn:Hneg; [apply Z.ltb_lt in Hneg; lia|].
  destruct (nth_error ranges (Z.to_nat mid)) as [[start end_]|] eqn:Hnth.
  - reflexivity.
  - apply nth_error_None in Hnth. lia.
Qed.

Lemma isBlocked_unreadable_text_witness :
  let checker := IpChecker.mk (numRanges [(16843008, 16843263)]) (Num 256) in
  IpChecker.getRangeCount checker <> O /\
  iputils.ipToNumber "not-an-address" = Normal NaN /\
  IpChecker.isBlocked checker (IpChecker.Text "not-an-address") = Normal true.
Proof.
  split; [discriminate|]. split; [reflexivity|].
  apply (isBlocked_unreadable_text
           (IpChecker.mk (numRanges [(16843008, 16843263)]) (Num 256))
           "not-an-address"); [discriminate | reflexivity].
Defined.

Lemma mapM_Forall2 {A B : Type} (f : A -> completion B) (l : list A) :
  forall r, mapM f l = Normal r -> Forall2 (fun a b => f a = Normal b) l r.
Proof.
  induction l as [|a l IH]; simpl; intros r.
  - intros [= <-]. constructor.
  - destruct (f a) as [b| |] eqn:Hfa; simpl; try discriminate.
    destruct (mapM f l) as [bs| |]; simpl; try discriminate.
    intros [= <-]. constructor; auto.
Qed.

Lemma cidrToRange_start_is_number (cidr : string) (r : JsNumber * JsNumber) :
  iputils.cidrToRange cidr = Normal r -> exists z, fst r = Num z.
Proof.
  unfold iputils.cidrToRange. destruct (iputils.splitSlash cidr) as [ip prefix].
  unfold iputils.ipToNumber. cbn [bind].
  destruct (toNumber prefix) as [p| |]; cbn [bind]; try discriminate.
  destruct (sub (Num 32) p) as [|maskBits].
  - intros [= <-]. unfold band. simpl. eauto.
  - destruct ((0 <=? maskBits) && (maskBits <=? 52)); [|discriminate].
    intros [= <-]. unfold band. simpl. eauto.
Qed.

Lemma compareStart_trans (a b c : JsNumber * JsNumber) :
  (exists z, fst a = Num z) -> (exists z, fst b = Num z) ->
  (exists z, fst c = Num z) ->
  notAfter (fun a b => sub (fst a) (fst b)) a b ->
  notAfter (fun a b => sub (fst a) (fst b)) b c ->
  notAfter (fun a b => sub (fst a) (fst b)) a c.
Proof.
  unfold notAfter. intros [x ->] [y ->] [z ->]. simpl.
  rewrite !Z.ltb_ge. lia.
Qed.

Lemma compareStart_after (a b : JsNumber * JsNumber) :
  (exists z, fst a = Num z) -> (exists z, fst b = Num z) ->
  gt (sub (fst a) (fst b)) (Num 0) = true ->
  notAfter (fun a b => sub (fst a) (fst b)) b a.
Proof.
  unfold notAfter. intros [x ->] [y ->]. simpl.
  rewrite Z.ltb_lt, Z.ltb_ge. lia.
Qed.

Lemma StronglySorted_weaken {A : Type} (R R' : A -> A -> Prop)
  (P : A -> Prop) (l : list A) :
  (forall a b, P a -> P b -> R a b -> R' a b) ->
  Forall P l -> StronglySorted R l -> StronglySorted R' l.
Proof.
  intros Himp HP Hs. induction Hs as [|x l Hs IH Hx]; constructor.
  - inversion HP; subst. auto.
  - inversion HP as [|? ? Hpx Hpl]; subst.
    rewrite Forall_forall in Hx, Hpl |- *. intros y Hy. auto.
Qed.

(** X22: what [load] leaves in the checker.  When [load] succeeds, the
    ranges it stores are the ranges of the non-blank lines of the file, all
    of them and no others, rearranged in ascending order of their start;
    [getRangeCount] is the number of non-blank lines. *)
Theorem load_sorts_the_ranges (data : string) (checker : IpChecker.t) :
  IpChecker.load data = Normal checker ->
  exists loaded,
    mapM iputils.cidrToRange (example.readCidrs data) = Normal loaded /\
    Permutation loaded (IpChecker.ranges checker) /\
    StronglySorted (fun r r' => le (fst r) (fst r') = true)
      (IpChecker.ranges checker) /\
    IpChecker.getRangeCount checker = List.length (example.readCidrs data).
Proof.
  unfold IpChecker.load.
  destruct (mapM iputils.cidrToRange (example.readCidrs data))
    as [loaded| |] eqn:Hload; cbn [bind]; try discriminate.
  intros [= <-]. exists loaded. cbn [IpChecker.ranges].
  pose proof (mapM_Forall2 _ _ _ Hload) as Hall.
  assert (Hdomain : Forall (fun r => exists z, fst r = Num z) loaded).
  { clear Hload. induction Hall as [|cidr r cidrs rs Hr Hrest IH]; constructor.
    - eapply cidrToRange_start_is_number, Hr.
    - exact IH. }
  split; [reflexivity|]. split; [apply sort_Permutation|]. split.
  - apply StronglySorted_weaken
      with (R := notAfter (fun a b => sub (fst a) (fst b)))
           (P := fun r => exists z, fst r = Num z).
    + intros a b [x Hx] [y Hy]. unfold notAfter. rewrite Hx, Hy. simpl.
      rewrite Z.ltb_ge, Z.leb_le. lia.
    + apply Forall_forall. intros r Hr. apply sort_In in Hr.
      rewrite Forall_forall in Hdomain. auto.
    + apply sort_sorted with (domain := fun r => exists z, fst r = Num z);
        auto.
      * exact compareStart_trans.
      * exact compareStart_after.
  - unfold IpChecker.getRangeCount. cbn [IpChecker.ranges].
    rewrite <- (Permutation_length (sort_Permutation _ loaded)).
    symmetry. eapply Forall2_length, Hall.
Qed.

Lemma load_sorts_the_ranges_witness :
  exists checker loaded,
    IpChecker.load "10.0.0.0/8
  1.2.3.4

1.1.1.0/24" = Normal checker /\
    mapM iputils.cidrToRange (example.readCidrs "10.0.0.0/8
  1.2.3.4

1.1.1.0/24") = Normal loaded /\
    Permutation loaded (IpChecker.ranges checker) /\
    StronglySorted (fun r r' => le (fst r) (fst r') = true)
      (IpChecker.ranges checker) /\
    IpChecker.getRangeCount checker = 3%nat.
Proof.
  eexists. 
  destruct (load_sorts_the_ranges "10.0.0.0/8
  1.2.3.4

1.1.1.0/24" _ eq_refl) as [loaded [H1 [H2 [H3 H4]]]].
  exists loaded. split; [reflexivity|]. auto.
Defined.

Lemma sortInsert_map {A B : Type} (f : A -> B) (compare : B -> B -> JsNumber)
  (x : A) (l : list A) :
  sortInsert compare (f x) (map f l)
  = map f (sortInsert (fun a b => compare (f a) (f b)) x l).
Proof.
  induction l as [|y l IH]; simpl; auto.
  destruct (gt (compare (f x) (f y)) (Num 0)); simpl; auto.
  now rewrite IH.
Qed.

Lemma sort_map {A B : Type} (f : A -> B) (compare : B -> B -> JsNumber)
  (l : list A) :
  sort compare (map f l) = map f (sort (fun a b => compare (f a) (f b)) l).
Proof.
  unfold sort. induction l as [|x l IH]; simpl; auto.
  now rewrite IH, sortInsert_map.
Qed.

(** Ranges sorted by start, distinct and pairwise disjoint, are in
    ascending disjoint order. *)
Lemma sorted_disjoint_ascending (rs : list (Z * Z)) :
  StronglySorted (fun r r' => fst r <= fst r') rs ->
  NoDup rs -> Forall (fun r => fst r <= snd r) rs ->
  (forall r r', In r rs -> In r' rs -> r <> r' ->
                snd r < fst r' \/ snd r' < fst r) ->
  ascendingDisjoint rs.
Proof.
  intros Hsorted Hnd Hnonempty Hdisjoint. split; [|exact Hnonempty].
  induction Hsorted as [|r rs Hs IH Hr]; constructor.
  - inversion Hnd; inversion Hnonempty; subst.
    apply IH; auto. intros a b Ha Hb. apply Hdisjoint; now right.
  - inversion Hnd as [|? ? Hnotin _]; subst.
    rewrite Forall_forall in Hr, Hnonempty |- *. intros r' Hr'.
    assert (Hne : r <> r') by (intros ->; contradiction).
    destruct (Hdisjoint r r' (or_introl eq_refl) (or_intror Hr') Hne)
      as [?|Hback]; auto.
    pose proof (Hr r' Hr'). pose proof (Hnonempty r' (or_intror Hr')). lia.
Qed.

(** X23: the order of the lines of the file does not matter.  When the
    non-blank lines read as ranges of numbers that are distinct, non-empty
    and pairwise disjoint, then after [load], in whatever order the lines
    were, [isBlocked] is true exactly for the numbers that some range holds,
    and for the texts that [ipToNumber] reads as such a number. *)
Theorem load_then_isBlocked (data : string) (rs : list (Z * Z)) (n : Z) :
  mapM iputils.cidrToRange (example.readCidrs data) = Normal (numRanges rs) ->
  NoDup rs -> Forall (fun r => fst r <= snd r) rs ->
  (forall r r', In r rs -> In r' rs -> r <> r' ->
                snd r < fst r' \/ snd r' < fst r) ->
  (checker <- IpChecker.load data ;;
   IpChecker.isBlocked checker (IpChecker.Numeric (Num n)))
  = Normal (existsb (holds n) rs) /\
  forall ip, iputils.ipToNumber ip = Normal (Num n) ->
    (checker <- IpChecker.load data ;;
     IpChecker.isBlocked checker (IpChecker.Text ip))
    = Normal (existsb (holds n) rs).
Proof.
  intros Hload Hnd Hnonempty Hdisjoint.
  set (sorted := sort (fun a b => sub (Num (fst a)) (Num (fst b))) rs).
  assert (Hperm : Permutation rs sorted) by apply sort_Permutation.
  assert (Hranges : sort (fun a b => sub (fst a) (fst b)) (numRanges rs)
                    = numRanges sorted).
  { unfold numRanges. now rewrite sort_map. }
  assert (Hasc : ascendingDisjoint sorted).
  { apply sorted_disjoint_ascending.
    - apply StronglySorted_weaken
        with (R := notAfter (fun a b => sub (Num (fst a)) (Num (fst b))))
             (P := fun _ => True).
      + intros a b _ _. unfold notAfter. simpl. rewrite Z.ltb_ge. lia.
      + apply Forall_forall. auto.
      + apply sort_sorted with (domain := fun _ => True).
        * intros a b c _ _ _. unfold notAfter. simpl.
          rewrite !Z.ltb_ge. lia.
        * intros a b _ _. unfold notAfter. simpl.
          rewrite Z.ltb_lt, Z.ltb_ge. lia.
        * apply Forall_forall. auto.
    - exact (Permutation_NoDup Hperm Hnd).
    - exact (Permutation_Forall Hperm Hnonempty).
    - intros r r' Hr Hr' Hne.
      apply Hdisjoint; auto;
        apply (Permutation_in _ (Permutation_sym Hperm)); assumption. }
  assert (Hsame : existsb (holds n) sorted = existsb (holds n) rs).
  { apply eq_true_iff_eq. rewrite !existsb_exists.
    split; intros [r [Hr Hh]]; exists r; split; auto.
    - apply (Permutation_in _ (Permutation_sym Hperm)); assumption.
    - apply (Permutation_in _ Hperm); assumption. }
  assert (Hanswer : example.isBlocked (Num n) (numRanges sorted)
                    = Normal (existsb (holds n) rs)).
  { rewrite isBlocked_ascendingDisjoint by exact Hasc. now rewrite Hsame. }
  unfold IpChecker.load. rewrite Hload. cbn [bind].
  unfold IpChecker.isBlocked. cbn [IpChecker.ranges bind].
  rewrite Hranges. split; [exact Hanswer|].
  intros ip ->. cbn [bind]. exact Hanswer.
Qed.

Lemma load_then_isBlocked_witness :
  (checker <- IpChecker.load "10.0.0.0/8
1.1.1.0/24" ;;
   IpChecker.isBlocked checker (IpChecker.Numeric (Num 16843013)))
  = Normal (existsb (holds 16843013)
              [(167772160, 184549375); (16843008, 16843263)]) /\
  forall ip, iputils.ipToNumber ip = Normal (Num 16843013) ->
    (checker <- IpChecker.load "10.0.0.0/8
1.1.1.0/24" ;;
     IpChecker.isBlocked checker (IpChecker.Text ip))
    = Normal (existsb (holds 16843013)
                [(167772160, 184549375); (16843008, 16843263)]).
Proof.
  apply (load_then_isBlocked "10.0.0.0/8
1.1.1.0/24" [(167772160, 184549375); (16843008, 16843263)] 16843013).
  - reflexivity.
  - repeat constructor; simpl; intuition congruence.
  - repeat constructor; simpl; lia.
  - simpl. intros r r' [<-|[<-|[]]] [<-|[<-|[]]] Hne; simpl;
      try congruence; lia.
Defined.

(** ** Fetching and reading a feed *)

(** X24: [fetchWithRetry] tries three times at most.  Called with the
    default [attempt = 1], it calls [fetch] at most 3 times; it returns the
    first response whose [ok] flag is set, all yields before it having
    failed; and it throws only after three failed yields, with the error of
    the third. *)
Theorem fetchWithRetry_three_attempts (network : list CIDRProcessor.fetched)
  (result : completion (list string)) (later : list CIDRProcessor.fetched) :
  CIDRProcessor.fetchWithRetry network 1 = (result, later) ->
  (List.length network - List.length later <= 3)%nat /\
  (forall lines, result = Normal lines ->
     exists before status,
       network = before ++ CIDRProcessor.Responded true status lines :: later
       /\ Forall failedYield before) /\
  (forall error, result = Throw error ->
     exists f1 f2 f3,
       network = f1 :: f2 :: f3 :: later /\
       failedYield f1 /\ failedYield f2 /\ failedYield f3 /\
       error = errorOf f3).
Proof.
  intros Hrun.
  destruct network as [|y1 [|y2 [|y3 rest]]];
    repeat match goal with
    | y : CIDRProcessor.fetched |- _ => destruct y as [[|] ? ?|?]
    end;
    simpl in Hrun; injection Hrun as <- <-;
    (split; [cbn [List.length]; lia|]); split; intros x Hx;
    try discriminate Hx; try (injection Hx as <-).
  all: try (eexists [], _; split; [reflexivity | constructor]).
  all: try (eexists [_], _; split; [reflexivity | repeat constructor]).
  all: try (eexists [_; _], _; split; [reflexivity | repeat constructor]).
  all: try (eexists _, _, _; repeat split; reflexivity).
Qed.

Lemma fetchWithRetry_three_attempts_witness :
  let network := [CIDRProcessor.Rejected "ECONNRESET";
                  CIDRProcessor.Responded false 503 [];
                  CIDRProcessor.Responded true 200 ["1.2.3.4"];
                  CIDRProcessor.Rejected "never asked"] in
  let result := Normal ["1.2.3.4"] in
  let later := [CIDRProcessor.Rejected "never asked"] in
  (List.length network - List.length later <= 3)%nat /\
  (forall lines, result = Normal lines ->
     exists before status,
       network = before ++ CIDRProcessor.Responded true status lines :: later
       /\ Forall failedYield before) /\
  (forall error, result = Throw error ->
     exists f1 f2 f3,
       network = f1 :: f2 :: f3 :: later /\
       failedYield f1 /\ failedYield f2 /\ failedYield f3 /\
       error = errorOf f3).
Proof.
  apply (fetchWithRetry_three_attempts
           [CIDRProcessor.Rejected "ECONNRESET";
            CIDRProcessor.Responded false 503 [];
            CIDRProcessor.Responded true 200 ["1.2.3.4"];
            CIDRProcessor.Rejected "never asked"]).
  reflexivity.
Defined.

Lemma mapSet_keys_eq {V : Type} (key : string) (v : V) (m : list (string * V)) :
  map fst (mapSet key v m)
  = if existsb (String.eqb key) (map fst m) then map fst m
    else map fst m ++ [key].
Proof.
  induction m as [|[k w] m IH]; simpl; auto.
  rewrite (String.eqb_sym key k).
  destruct (String.eqb k key); simpl; auto.
  rewrite IH. now destruct (existsb (String.eqb key) (map fst m)).
Qed.



Lemma newSet_seen (l : list string) :
  forall seen seen',
    (forall x, existsb (String.eqb x) seen = existsb (String.eqb x) seen') ->
    newSet seen l = newSet seen' l.
Proof.
  induction l as [|x l IH]; intros seen seen' Hsame; simpl; auto.
  rewrite <- Hsame. destruct (existsb (String.eqb x) seen); auto.
  f_equal. apply IH. intros y. simpl. now rewrite Hsame.
Qed.

Lemma fold_mapSet_keys (l : list string) :
  forall m : list (string * bool),
    map fst (fold_left (fun m key => mapSet key true m) l m)
    = map fst m ++ newSet (map fst m) l.
Proof.
  induction l as [|x l IH]; intros m; simpl.
  - now rewrite app_nil_r.
  - rewrite IH, mapSet_keys_eq.
    destruct (existsb (String.eqb x) (map fst m)) eqn:Hex; auto.
    rewrite <- app_assoc. simpl. do 2 f_equal.
    apply newSet_seen. intros y. rewrite existsb_app. simpl.
    now rewrite orb_false_r, orb_comm.
Qed.

(** X25: what a plain feed adds.  For a feed whose address names neither
    "iptoasn.com" nor "NullifiedCode", the loop of [processUrl] never
    throws, leaves the sets of ASNs and names alone, and adds to the keys of
    [cidrMap], after those it held, the trimmed lines that are neither blank
    nor start with "#", each once, in the order of their first
    occurrence. *)
Theorem plain_feed_adds_its_lines (normalizeTail : string -> string)
  (url : string) (lines : list string) (st : CIDRProcessor.state) :
  CIDRProcessor.includesText url "iptoasn.com" = false ->
  CIDRProcessor.includesText url "NullifiedCode" = false ->
  exists st',
    CIDRProcessor.processLines normalizeTail url st lines = (st', Normal tt) /\
    CIDRProcessor.asnSet st' = CIDRProcessor.asnSet st /\
    CIDRProcessor.asnameSet st' = CIDRProcessor.asnameSet st /\
    map fst (CIDRProcessor.cidrMap st')
    = map fst (CIDRProcessor.cidrMap st)
      ++ newSet (map fst (CIDRProcessor.cidrMap st)) (feedEntries lines).
Proof.
  intros Hasn Hnull. revert st.
  induction lines as [|line rest IH]; intros st.
  - exists st. simpl. now rewrite app_nil_r.
  - cbn [CIDRProcessor.processLines]. unfold CIDRProcessor.processLine.
    rewrite Hasn, Hnull. unfold feedEntries. cbn [map filter].
    unfold nonEmpty at 1.
    destruct (0 <? len (trim line))%nat eqn:Hlen; cbn [negb orb andb].
    + destruct (startsWith (trim line) "#") eqn:Hcomment; cbn [negb].
      * apply IH.
      * destruct (IH (CIDRProcessor.mkState (CIDRProcessor.asnSet st)
                        (CIDRProcessor.asnameSet st)
                        (mapSet (trim line) true (CIDRProcessor.cidrMap st))))
          as [st' [Hrun [H1 [H2 H3]]]].
        exists st'. split; [exact Hrun|]. split; [exact H1|].
        split; [exact H2|]. rewrite H3. cbn [CIDRProcessor.cidrMap].
        fold (feedEntries rest).
        change (trim line :: feedEntries rest)
          with ([trim line] ++ feedEntries rest).
        rewrite <- (fold_mapSet_keys ([trim line] ++ feedEntries rest)).
        rewrite fold_left_app. cbn [fold_left].
        now rewrite fold_mapSet_keys.
    + apply IH.
Qed.

Lemma plain_feed_adds_its_lines_witness :
  exists st',
    CIDRProcessor.processLines (fun s => s)
      "https://example.org/ipv4.txt" CIDRProcessor.newState
      ["# datacenters"; " 10.0.0.0/8 "; ""; "1.2.3.4"; "10.0.0.0/8"]
    = (st', Normal tt) /\
    CIDRProcessor.asnSet st' = CIDRProcessor.asnSet CIDRProcessor.newState /\
    CIDRProcessor.asnameSet st'
    = CIDRProcessor.asnameSet CIDRProcessor.newState /\
    map fst (CIDRProcessor.cidrMap st')
    = map fst (CIDRProcessor.cidrMap CIDRProcessor.newState)
      ++ newSet (map fst (CIDRProcessor.cidrMap CIDRProcessor.newState))
           (feedEntries
              ["# datacenters"; " 10.0.0.0/8 "; ""; "1.2.3.4"; "10.0.0.0/8"]).
Proof.
  apply (plain_feed_adds_its_lines (fun s => s)
           "https://example.org/ipv4.txt"); reflexivity.
Defined.




Lemma processLines_app (normalizeTail : string -> string) (url : string)
  (before after : list string) :
  forall st st1,
    CIDRProcessor.processLines normalizeTail url st before = (st1, Normal tt) ->
    CIDRProcessor.processLines normalizeTail url st (before ++ after)
    = CIDRProcessor.processLines normalizeTail url st1 after.
Proof.
  induction before as [|line rest IH]; intros st st1; simpl.
  - now intros [= <-].
  - destruct (CIDRProcessor.processLine normalizeTail url st line);
      try discriminate. apply IH.
Qed.

Lemma rangeToCIDRs_across_sign_bit (s e : Z) :
  0 <= s < 2 ^ 31 -> 2 ^ 31 <= e < 2 ^ 32 ->
  iputils.rangeToCIDRs (CIDRProcessor.u32ToIP (Num s))
                       (CIDRProcessor.u32ToIP (Num e))
  = Throw "Start IP must be less than or equal to End IP".
Proof.
  intros Hs He.
  assert (Hread : forall n, iputils.ipToNumber (CIDRProcessor.u32ToIP (Num n))
                            = Normal (Num (wrapInt32 n))).
  { intros n. rewrite u32ToIP_numberToIp, numberToIp_dottedQuad.
    rewrite <- !(octetAt_wrapInt32 n), <- numberToIp_dottedQuad.
    apply ipToNumber_numberToIp, wrapInt32_range. }
  unfold iputils.rangeToCIDRs. rewrite !Hread. cbn [bind].
  rewrite (wrapInt32_small s) by lia.
  assert (Hhigh : wrapInt32 e = e - 2 ^ 32).
  { unfold wrapInt32.
    replace (e + 2 ^ 31) with (e - 2 ^ 31 + 1 * 2 ^ 32) by lia.
    rewrite Z.mod_add, Z.mod_small by lia. lia. }
  rewrite Hhigh. unfold gt.
  destruct (e - 2 ^ 32 <? s) eqn:Hlt; [reflexivity|].
  apply Z.ltb_ge in Hlt. lia.
Qed.

(** X27: one range across 2^31 ends the iptoasn feed.  In a feed whose
    address names "iptoasn.com", a line whose ASN is in the set and whose
    range starts below 2^31 and ends at 2^31 or above makes [rangeToCIDRs]
    throw; the loop stops there, so [processUrl] returns with the map as
    the lines before had left it and never reads the lines after. *)
Theorem range_across_sign_bit_ends_the_feed (normalizeTail : string -> string)
  (url : string) (st st1 : CIDRProcessor.state)
  (before after more : list string) (line startText endText asnText : string)
  (s e : Z) :
  CIDRProcessor.includesText url "iptoasn.com" = true ->
  CIDRProcessor.processLines normalizeTail url st before = (st1, Normal tt) ->
  trim line <> EmptyString -> startsWith (trim line) "#" = false ->
  split "009" (trim line) = startText :: endText :: asnText :: more ->
  CIDRProcessor.setHas (Some asnText) (CIDRProcessor.asnSet st1) = true ->
  toNumber (Some startText) = Normal (Num s) ->
  toNumber (Some endText) = Normal (Num e) ->
  0 <= s < 2 ^ 31 -> 2 ^ 31 <= e < 2 ^ 32 ->
  CIDRProcessor.processLines normalizeTail url st (before ++ line :: after)
  = (st1, Throw "Start IP must be less than or equal to End IP") /\
  CIDRProcessor.processUrl normalizeTail url st
    [CIDRProcessor.Responded true 200 (before ++ line :: after)] = Some st1.
Proof.
  intros Hurl Hbefore Hblank Hcomment Hfields Hasn Hstart Hend Hs He.
  assert (Hline : CIDRProcessor.processLine normalizeTail url st1 line
                  = Throw "Start IP must be less than or equal to End IP").
  { unfold CIDRProcessor.processLine.
    assert (Hlen : (0 <? len (trim line))%nat = true)
      by (destruct (trim line); [congruence | reflexivity]).
    rewrite Hlen, Hcomment, Hurl, Hfields. cbn [negb orb nth_error].
    rewrite Hasn. cbn [orb]. rewrite Hstart, Hend. cbn [bind].
    now rewrite rangeToCIDRs_across_sign_bit. }
  assert (Hrun : CIDRProcessor.processLines normalizeTail url st
                   (before ++ line :: after)
                 = (st1, Throw "Start IP must be less than or equal to End IP")).
  { rewrite (processLines_app _ _ _ _ _ _ Hbefore).
    cbn [CIDRProcessor.processLines]. now rewrite Hline. }
  split; [exact Hrun|].
  unfold CIDRProcessor.processUrl. cbn [CIDRProcessor.fetchWithRetry fst].
  now rewrite Hrun.
Qed.

Lemma range_across_sign_bit_ends_the_feed_witness :
  let url := "https://iptoasn.com/data/ip2asn-v4-u32.tsv.gz" in
  let st := CIDRProcessor.mkState ["64512"] [] [] in
  let before := [tsvLine ["16777216"; "16777471"; "64512"; "AU"; "ONE"]] in
  let line := tsvLine ["2130706432"; "2164260863"; "64512"; "US"; "TWO"] in
  let after := [tsvLine ["3232235520"; "3232301055"; "64512"; "US"; "THREE"]] in
  let st1 := CIDRProcessor.mkState ["64512"] [] [("1.0.0.0/24", true)] in
  CIDRProcessor.processLines (fun s => s) url st (before ++ line :: after)
  = (st1, Throw "Start IP must be less than or equal to End IP") /\
  CIDRProcessor.processUrl (fun s => s) url st
    [CIDRProcessor.Responded true 200 (before ++ line :: after)] = Some st1.
Proof.
  apply (range_across_sign_bit_ends_the_feed (fun s => s)
           "https://iptoasn.com/data/ip2asn-v4-u32.tsv.gz"
           (CIDRProcessor.mkState ["64512"] [] [])
           (CIDRProcessor.mkState ["64512"] [] [("1.0.0.0/24", true)])
           [tsvLine ["16777216"; "16777471"; "64512"; "AU"; "ONE"]]
           [tsvLine ["3232235520"; "3232301055"; "64512"; "US"; "THREE"]]
           ["US"; "TWO"]
           (tsvLine ["2130706432"; "2164260863"; "64512"; "US"; "TWO"])
           "2130706432" "2164260863" "64512" 2130706432 2164260863);
    try reflexivity; try discriminate; lia.
Defined.

(** ** Binary prefixes and ranges *)

Lemma startsWith_sliceTo (s key : string) :
  startsWith s key = true -> sliceTo (len key) s = key.
Proof.
  unfold len. revert s; induction key as [|k key IH]; intros s; simpl; auto.
  destruct s as [|c s]; [discriminate|].
  intros H. apply andb_true_iff in H. destruct H as [Hc Hs].
  apply Ascii.eqb_eq in Hc. subst. now rewrite IH.
Qed.

Lemma sliceTo_sliceTo (n m : nat) (s : string) :
  (n <= m)%nat -> sliceTo n (sliceTo m s) = sliceTo n s.
Proof.
  revert m s; induction n as [|n IH]; intros m s Hnm; simpl; auto.
  destruct m as [|m]; [lia|]. destruct s as [|c s]; simpl; auto.
  rewrite IH; auto. lia.
Qed.

Lemma sliceTo_all (n : nat) (s : string) :
  (len s <= n)%nat -> sliceTo n s = s.
Proof.
  unfold len. revert s; induction n as [|n IH]; intros [|c s]; simpl; auto.
  - lia.
  - intros H. rewrite IH; auto. lia.
Qed.

Lemma startsWith_length (s key : string) :
  startsWith s key = true -> (len key <= len s)%nat.
Proof.
  intros H. apply startsWith_append in H. destruct H as [rest ->].
  rewrite len_append. lia.
Qed.

(** The signed reading of an unsigned 32-bit value. *)
Lemma wrapInt32_unsigned (u : Z) :
  0 <= u < 2 ^ 32 -> wrapInt32 u = u - 2 ^ 32 * (u / 2 ^ 31).
Proof.
  intros Hu. unfold wrapInt32.
  change (2 ^ 32) with 4294967296 in *. change (2 ^ 31) with 2147483648.
  Z.div_mod_to_equations. lia.
Qed.

(** Rounding the signed reading down to a multiple of [2 ^ k]. *)
Lemma floor_wrapInt32 (u k : Z) :
  0 <= u < 2 ^ 32 -> 0 <= k <= 31 ->
  wrapInt32 u - wrapInt32 u mod 2 ^ k
  = 2 ^ k * (u / 2 ^ k) - 2 ^ 32 * (u / 2 ^ 31).
Proof.
  intros Hu Hk.
  assert (Hpos : 0 < 2 ^ k) by (apply Z.pow_pos_nonneg; lia).
  rewrite wrapInt32_unsigned by exact Hu.
  set (j := u / 2 ^ 31).
  assert (Hsplit : 2 ^ 32 = 2 ^ (32 - k) * 2 ^ k)
    by (rewrite <- Z.pow_add_r by lia; f_equal; lia).
  assert (Hdiv : (u - 2 ^ 32 * j) / 2 ^ k = u / 2 ^ k - 2 ^ (32 - k) * j).
  { replace (u - 2 ^ 32 * j) with (u + (- (2 ^ (32 - k) * j)) * 2 ^ k)
      by (rewrite Hsplit; ring).
    rewrite Z.div_add by lia. ring. }
  pose proof (Z.div_mod (u - 2 ^ 32 * j) (2 ^ k) ltac:(lia)) as Hdm.
  rewrite Hdiv in Hdm.
  replace (2 ^ k * (u / 2 ^ k - 2 ^ (32 - k) * j))
    with (2 ^ k * (u / 2 ^ k) - 2 ^ 32 * j) in Hdm
    by (rewrite Hsplit; ring).
  lia.
Qed.

(** Two unsigned values that agree above bit [k]: the block of size
    [2 ^ k'] around the second, for [k' <= k], lies within the block of
    size [2 ^ k] around the first, in the signed reading. *)
Lemma blocks_nest (u u' k k' : Z) :
  0 <= u < 2 ^ 32 -> 0 <= u' < 2 ^ 32 -> 0 <= k' <= k -> k <= 31 ->
  u' / 2 ^ k = u / 2 ^ k ->
  let v := wrapInt32 u in
  let v' := wrapInt32 u' in
  v - v mod 2 ^ k <= v' - v' mod 2 ^ k' /\
  v' - v' mod 2 ^ k' + 2 ^ k' - 1 <= v - v mod 2 ^ k + 2 ^ k - 1.
Proof.
  intros Hu Hu' Hk' Hk Hsame v v'. unfold v, v'.
  rewrite !floor_wrapInt32 by lia.
  assert (HX : 0 < 2 ^ k') by (apply Z.pow_pos_nonneg; lia).
  assert (HT : 0 < 2 ^ (k - k')) by (apply Z.pow_pos_nonneg; lia).
  assert (HD : 2 ^ k = 2 ^ k' * 2 ^ (k - k'))
    by (rewrite <- Z.pow_add_r by lia; f_equal; lia).
  assert (Hsign : u' / 2 ^ 31 = u / 2 ^ 31).
  { assert (H31 : 2 ^ 31 = 2 ^ k * 2 ^ (31 - k))
      by (rewrite <- Z.pow_add_r by lia; f_equal; lia).
    assert (0 < 2 ^ k) by (apply Z.pow_pos_nonneg; lia).
    assert (0 < 2 ^ (31 - k)) by (apply Z.pow_pos_nonneg; lia).
    rewrite H31, <- !Z.div_div by lia. now rewrite Hsame. }
  rewrite Hsign.
  set (X := 2 ^ k') in *. set (T := 2 ^ (k - k')) in *.
  set (p := u' / X).
  assert (Hq : p / T = u / 2 ^ k).
  { unfold p. rewrite Z.div_div by lia. rewrite <- HD. exact Hsame. }
  set (q := u / 2 ^ k) in *.
  pose proof (Z.div_mod p T ltac:(lia)) as Hp.
  pose proof (Z.mod_pos_bound p T ltac:(lia)) as Hr.
  rewrite Hq in Hp. rewrite HD.
  assert (Hlow : X * (T * q) <= X * p)
    by (apply Z.mul_le_mono_nonneg_l; lia).
  assert (Hhigh : X * (p + 1) <= X * (T * q + T))
    by (apply Z.mul_le_mono_nonneg_l; lia).
  split; [|ring_simplify in Hhigh; ring_simplify]; lia.
Qed.

Lemma addressValue_range (a b c d : Z) :
  0 <= a <= 255 -> 0 <= b <= 255 -> 0 <= c <= 255 -> 0 <= d <= 255 ->
  0 <= addressValue a b c d < 2 ^ 32.
Proof. unfold addressValue. lia. Qed.

(** The trie key and the range of a well-formed entry, side by side. *)
Lemma wellFormedEntry_shape (entry : string) :
  wellFormedEntry entry ->
  exists a b c d n,
    (0 <= a <= 255 /\ 0 <= b <= 255 /\ 0 <= c <= 255 /\ 0 <= d <= 255) /\
    (1 <= n <= 32)%nat /\
    CIDRProcessor.binaryPrefix entry
    = sliceTo n (iputils.ipToBinary (dottedQuad a b c d)) /\
    entryRange entry
    = Normal (Num (wrapInt32 (addressValue a b c d)
                   - wrapInt32 (addressValue a b c d) mod blockSize n),
              Num (wrapInt32 (addressValue a b c d)
                   - wrapInt32 (addressValue a b c d) mod blockSize n
                   + blockSize n - 1)).
Proof.
  intros [a [b [c [d [n [Ha [Hb [Hc [Hd [Hn Hentry]]]]]]]]]].
  exists a, b, c, d, n. split; [auto|]. split; [exact Hn|].
  destruct (binaryPrefix_spec a b c d n Ha Hb Hc Hd ltac:(lia))
    as [Hprefix [_ [_ Hbare]]].
  destruct (ipToBinary_spec a b c d Ha Hb Hc Hd) as [Hlen _].
  destruct Hentry as [->|[-> ->]].
  - split; [exact Hprefix|]. unfold entryRange.
    assert (Hslash : includes (cidrOf a b c d n) "/" = true).
    { unfold cidrOf. rewrite includes_append. simpl. now rewrite orb_true_r. }
    rewrite Hslash. now apply cidrToRange_cidrOf.
  - split.
    + rewrite Hbare. symmetry. apply sliceTo_all. rewrite Hlen. lia.
    + unfold entryRange. rewrite dottedQuad_without_slash by assumption.
      change (dottedQuad a b c d ++ "/32")%string with (cidrOf a b c d 32).
      now apply cidrToRange_cidrOf.
Qed.

(** When the key of [k] starts the key of [x], the range of [x] lies
    within the range of [k]. *)
Lemma prefix_within (x k : string) :
  wellFormedEntry x -> wellFormedEntry k ->
  startsWith (CIDRProcessor.binaryPrefix x) (CIDRProcessor.binaryPrefix k)
  = true ->
  (inner <- entryRange x ;; outer <- entryRange k ;;
   Normal (within inner outer)) = Normal true.
Proof.
  intros Hx Hk Hstarts.
  destruct (wellFormedEntry_shape x Hx)
    as [a' [b' [c' [d' [m [[Ha' [Hb' [Hc' Hd']]] [Hm [Hpx Hrx]]]]]]]].
  destruct (wellFormedEntry_shape k Hk)
    as [a [b [c [d [n [[Ha [Hb [Hc Hd]]] [Hn [Hpk Hrk]]]]]]]].
  destruct (ipToBinary_spec a b c d Ha Hb Hc Hd) as [Hlen [_ Hvalue]].
  destruct (ipToBinary_spec a' b' c' d' Ha' Hb' Hc' Hd') as [Hlen' [_ Hvalue']].
  rewrite Hpx, Hpk in Hstarts.
  set (B := iputils.ipToBinary (dottedQuad a b c d)) in *.
  set (B' := iputils.ipToBinary (dottedQuad a' b' c' d')) in *.
  assert (Hnm : (n <= m)%nat).
  { apply startsWith_length in Hstarts.
    rewrite !sliceTo_length, Hlen, Hlen' in Hstarts. lia. }
  assert (Hsame : sliceTo n B' = sliceTo n B).
  { apply startsWith_sliceTo in Hstarts.
    rewrite sliceTo_length, Hlen in Hstarts.
    replace (Nat.min n 32) with n in Hstarts by lia.
    now rewrite sliceTo_sliceTo in Hstarts by exact Hnm. }
  assert (Hdiv : addressValue a' b' c' d' / 2 ^ (32 - Z.of_nat n)
                 = addressValue a b c d / 2 ^ (32 - Z.of_nat n)).
  { apply (f_equal binaryValue) in Hsame.
    rewrite !binaryValue_sliceTo in Hsame by lia.
    rewrite Hvalue, Hvalue', Hlen, Hlen' in Hsame.
    replace (Z.of_nat (32 - n)) with (32 - Z.of_nat n) in Hsame by lia.
    exact Hsame. }
  pose proof (addressValue_range a b c d Ha Hb Hc Hd) as Hu.
  pose proof (addressValue_range a' b' c' d' Ha' Hb' Hc' Hd') as Hu'.
  destruct (blocks_nest (addressValue a b c d) (addressValue a' b' c' d')
              (32 - Z.of_nat n) (32 - Z.of_nat m) Hu Hu'
              ltac:(lia) ltac:(lia) Hdiv) as [Hlow Hhigh].
  rewrite Hrx, Hrk. cbn [bind]. unfold within, le. cbn [fst snd].
  unfold blockSize. f_equal. apply andb_true_iff.
  split; apply Z.leb_le; lia.
Qed.

(** X28: a longer key under a shorter one is a narrower range within a
    wider one.  For two well-formed entries, when the binary prefix of [k]
    starts the binary prefix of [x], the range that [cidrToRange] gives to
    [x] lies within the range it gives to [k]. *)
Theorem starting_prefix_means_containing_range (x k : string) :
  wellFormedEntry x -> wellFormedEntry k ->
  startsWith (CIDRProcessor.binaryPrefix x) (CIDRProcessor.binaryPrefix k)
  = true ->
  exists inner outer,
    entryRange x = Normal inner /\ entryRange k = Normal outer /\
    within inner outer = true.
Proof.
  intros Hx Hk Hstarts. pose proof (prefix_within x k Hx Hk Hstarts) as H.
  destruct (entryRange x) as [inner| |]; cbn [bind] in H; try discriminate.
  destruct (entryRange k) as [outer| |]; cbn [bind] in H; try discriminate.
  exists inner, outer.
  split; [reflexivity|]. split; [reflexivity|].
  injection H as H. exact H.
Qed.

Lemma wellFormedEntry_cidrOf (a b c d : Z) (n : nat) :
  0 <= a <= 255 -> 0 <= b <= 255 -> 0 <= c <= 255 -> 0 <= d <= 255 ->
  (1 <= n <= 32)%nat -> wellFormedEntry (cidrOf a b c d n).
Proof. intros. exists a, b, c, d, n. repeat split; auto; lia. Qed.

Lemma wellFormedEntry_bare (a b c d : Z) :
  0 <= a <= 255 -> 0 <= b <= 255 -> 0 <= c <= 255 -> 0 <= d <= 255 ->
  wellFormedEntry (dottedQuad a b c d).
Proof. intros. exists a, b, c, d, 32%nat. repeat split; auto; lia. Qed.

Lemma starting_prefix_means_containing_range_witness :
  exists inner outer,
    entryRange (dottedQuad 192 168 7 9) = Normal inner /\
    entryRange (cidrOf 192 168 0 0 16) = Normal outer /\
    within inner outer = true.
Proof.
  apply (starting_prefix_means_containing_range
           (dottedQuad 192 168 7 9) (cidrOf 192 168 0 0 16)).
  - apply wellFormedEntry_bare; lia.
  - apply wellFormedEntry_cidrOf; lia.
  - reflexivity.
Defined.

(** X29: what the deduplicator discards is really covered.  For
    well-formed keys without duplicates, every key that
    [filterContainedCIDRsRadix] leaves out has a returned key whose range
    holds its own range. *)
Theorem filterContainedCIDRsRadix_discards_within_kept
  (keys : list string) (x : string) :
  NoDup keys -> Forall wellFormedEntry keys -> In x keys ->
  ~ In x (CIDRProcessor.filterContainedCIDRsRadix keys) ->
  exists k inner outer,
    In k (CIDRProcessor.filterContainedCIDRsRadix keys) /\
    entryRange x = Normal inner /\ entryRange k = Normal outer /\
    within inner outer = true.
Proof.
  intros Hnd Hwf Hin Hout.
  destruct (filterContainedCIDRsRadix_covers keys x Hnd Hin Hout)
    as [k [Hk Hstarts]].
  rewrite Forall_forall in Hwf.
  pose proof (prefix_within x k (Hwf x Hin)
                (Hwf k (filterContainedCIDRsRadix_subset keys k Hnd Hk))
                Hstarts) as H.
  destruct (entryRange x) as [inner| |] eqn:Hinner; cbn [bind] in H;
    try discriminate.
  destruct (entryRange k) as [outer| |] eqn:Houter; cbn [bind] in H;
    try discriminate.
  exists k, inner, outer.
  split; [exact Hk|]. split; [reflexivity|]. split; [exact Houter|].
  injection H as H. exact H.
Qed.

Lemma filterContainedCIDRsRadix_discards_within_kept_witness :
  let keys := [dottedQuad 10 0 1 5; cidrOf 10 0 0 0 8] in
  exists k inner outer,
    In k (CIDRProcessor.filterContainedCIDRsRadix keys) /\
    entryRange (dottedQuad 10 0 1 5) = Normal inner /\
    entryRange k = Normal outer /\
    within inner outer = true.
Proof.
  apply (filterContainedCIDRsRadix_discards_within_kept
           [dottedQuad 10 0 1 5; cidrOf 10 0 0 0 8] (dottedQuad 10 0 1 5)).
  - repeat constructor; simpl; intuition discriminate.
  - repeat constructor;
      [apply wellFormedEntry_bare | apply wellFormedEntry_cidrOf]; lia.
  - now left.
  - vm_compute. intros [H|[]]. discriminate H.
Defined.

(** *** The total of the checker *)

Lemma blockLine_cidrOf (a b c d : Z) (n : nat) :
  0 <= a <= 255 -> 0 <= b <= 255 -> 0 <= c <= 255 -> 0 <= d <= 255 ->
  (1 <= n <= 32)%nat -> blockLine (cidrOf a b c d n) n.
Proof.
  intros Ha Hb Hc Hd Hn. split; [exact Hn|].
  exists a, b, c, d. auto 6.
Qed.

Lemma blockLine_range (line : string) (n : nat) :
  blockLine line n ->
  exists r, iputils.cidrToRange line = Normal (Num (fst r), Num (snd r)) /\
            rangeCount r = blockSize n.
Proof.
  intros [Hn [a [b [c [d [Ha [Hb [Hc [Hd ->]]]]]]]]].
  pose proof (cidrToRange_cidrOf a b c d n Ha Hb Hc Hd Hn) as H.
  cbv zeta in H.
  set (v := wrapInt32 (addressValue a b c d)) in *.
  exists (v - v mod blockSize n, v - v mod blockSize n + blockSize n - 1).
  split; [exact H|]. unfold rangeCount. cbn [fst snd]. lia.
Qed.

Lemma blockLines_ranges (lines : list string) (lengths : list nat) :
  Forall2 blockLine lines lengths ->
  exists rs, mapM iputils.cidrToRange lines = Normal (numRanges rs) /\
             map rangeCount rs = map blockSize lengths.
Proof.
  induction 1 as [|line n lines lengths Hline _ [rs [Hrs Hcount]]].
  - exists []. split; reflexivity.
  - destruct (blockLine_range line n Hline) as [r [Hr Hsize]].
    exists (r :: rs). split.
    + cbn [mapM]. rewrite Hr. cbn [bind]. rewrite Hrs. reflexivity.
    + cbn [map]. now rewrite Hsize, Hcount.
Qed.

Lemma sumZ_Permutation (l l' : list Z) :
  Permutation l l' -> sumZ l = sumZ l'.
Proof. induction 1; unfold sumZ in *; cbn [fold_right]; lia. Qed.

Lemma total_fold (rs : list (Z * Z)) :
  forall a,
    fold_left (fun acc r => add acc (add (sub (snd r) (fst r)) (Num 1)))
      (numRanges rs) (Num a)
    = Num (a + sumZ (map rangeCount rs)).
Proof.
  induction rs as [|r rs IH]; intros a.
  - unfold sumZ. cbn [numRanges map fold_left fold_right]. f_equal. lia.
  - unfold numRanges in *. cbn [map fold_left fst snd add sub].
    rewrite IH. unfold sumZ, rangeCount. cbn [fold_right]. f_equal. lia.
Qed.

Lemma sumZ_blockSize_bound (lengths : list nat) :
  Forall (fun n => (1 <= n <= 32)%nat) lengths ->
  0 <= sumZ (map blockSize lengths)
    <= Z.of_nat (List.length lengths) * 2 ^ 31.
Proof.
  induction 1 as [|n lengths Hn _ IH]; unfold sumZ in *.
  - cbn [map fold_right List.length]. lia.
  - pose proof (blockSize_bounds n Hn).
    cbn [map fold_right List.length]. lia.
Qed.

(** X30: [getTotalIPs] counts with multiplicity.  When the non-blank lines
    of the file, bare addresses completed with "/32", are blocks
    [a.b.c.d/n] with [n] from 1 to 32, at most 2^21 of them, [load]
    succeeds and [getTotalIPs] is the sum of the sizes [2^(32-n)] of the
    lines, whatever their order: a line given twice, or a block within
    another, is counted twice.  The sum stays below 2^53, where a double
    holds every integer. *)
Theorem getTotalIPs_sums_the_lines (data : string) (lengths : list nat) :
  Forall2 blockLine (example.readCidrs data) lengths ->
  Z.of_nat (List.length lengths) <= 2 ^ 21 ->
  exists checker,
    IpChecker.load data = Normal checker /\
    IpChecker.getTotalIPs checker = Num (sumZ (map blockSize lengths)) /\
    0 <= sumZ (map blockSize lengths) < 2 ^ 53 /\
    IpChecker.getRangeCount checker = List.length lengths.
Proof.
  intros Hlines Hmany.
  destruct (blockLines_ranges _ _ Hlines) as [rs [Hload Hcount]].
  set (sorted := sort (fun a b => sub (Num (fst a)) (Num (fst b))) rs).
  assert (Hperm : Permutation rs sorted) by apply sort_Permutation.
  assert (Hranges : sort (fun a b => sub (fst a) (fst b)) (numRanges rs)
                    = numRanges sorted).
  { unfold numRanges. now rewrite sort_map. }
  unfold IpChecker.load. rewrite Hload. cbn [bind]. rewrite Hranges.
  eexists. split; [reflexivity|].
  unfold IpChecker.getTotalIPs, IpChecker.getRangeCount.
  cbn [IpChecker.totalIPs IpChecker.ranges].
  split; [|split].
  - rewrite total_fold. f_equal. rewrite <- Hcount. cbn [Z.add].
    symmetry. apply sumZ_Permutation. now apply Permutation_map.
  - assert (Hbounds : Forall (fun n => (1 <= n <= 32)%nat) lengths).
    { clear - Hlines. induction Hlines as [|? ? ? ? [Hn _]]; auto. }
    pose proof (sumZ_blockSize_bound lengths Hbounds) as Hsum.
    assert (Z.of_nat (List.length lengths) * 2 ^ 31 <= 2 ^ 21 * 2 ^ 31)
      by (apply Z.mul_le_mono_nonneg_r; lia).
    lia.
  - unfold numRanges. rewrite length_map.
    rewrite <- (Permutation_length Hperm).
    rewrite <- (length_map rangeCount rs), Hcount. apply length_map.
Qed.

Lemma getTotalIPs_sums_the_lines_witness :
  exists checker,
    IpChecker.load "10.0.0.0/24
10.0.0.0/24
  10.0.0.7
0.0.0.0/1" = Normal checker /\
    IpChecker.getTotalIPs checker
    = Num (sumZ (map blockSize [24; 24; 32; 1]%nat)) /\
    0 <= sumZ (map blockSize [24; 24; 32; 1]%nat) < 2 ^ 53 /\
    IpChecker.getRangeCount checker = 4%nat.
Proof.
  apply (getTotalIPs_sums_the_lines "10.0.0.0/24
10.0.0.0/24
  10.0.0.7
0.0.0.0/1" [24; 24; 32; 1]%nat).
  - change (Forall2 blockLine
              [cidrOf 10 0 0 0 24; cidrOf 10 0 0 0 24; cidrOf 10 0 0 7 32;
               cidrOf 0 0 0 0 1] [24; 24; 32; 1]%nat).
    constructor; [apply blockLine_cidrOf; lia|].
    constructor; [apply blockLine_cidrOf; lia|].
    constructor; [apply blockLine_cidrOf; lia|].
    constructor; [apply blockLine_cidrOf; lia|].
    constructor.
  - cbn [List.length]. lia.
Defined.
